(** * AI subtitle translator: batching, reconciliation, retry and resume

    A shallow embedding of the translation pipeline of the
    [ai-subtitle-translator] app:

    - [js/batcher.js]: [estimateTokens], [calculateBatchTokens],
      [createBatches], [getBatchStats], [formatEntriesForAPI],
      [formatContextForAPI], [parseAPIResponse], [mergeBatches],
      [createProgressTracker];
    - [js/translator.js]: [callGeminiAPI], [translateBatch],
      [translateBatchWithRetry], [translateAllBatches], [validateApiKey],
      [delay];
    - [js/parser.js]: [detectFormat], [parseSRT], [parseVTT],
      [parseSubtitle], [generateSRT], [generateVTT], [generateSubtitle];
    - [js/app.js]: what [startTranslation] does with the callbacks of
      [translateAllBatches], the percentage of [updateProgress] and the
      test of [checkForSavedProgress].

    JavaScript strings are sequences of UTF-16 code units; numbers that
    count or index things are integers; the delays, which carry the
    fractional jitter [Math.random() * 2000], are rationals.  Arithmetic on
    rationals is exact where the code rounds each operation to a double:
    what is stated of a backoff, of the seconds announced and of a
    percentage is stated by ranges and at values where the two agree (see
    [totalDelay_bounds] and [percentOf]).  The asynchronous functions run in
    a small monad over a [World]: a clock, the number of provider calls
    issued so far and the trace of callbacks and timers.  Timers fire on
    time.  The text of the prompt is not modelled: the provider is given
    what the prompt is built from and answers as it pleases. *)

From Stdlib Require Import String Ascii DecimalString.
From Stdlib Require Import List ZArith NArith QArith Qround Bool Arith Lia Lqa.
From Stdlib Require DecimalPos DecimalN.
Import ListNotations.

Close Scope Q_scope.
Set Implicit Arguments.

(* ===================================================================== *)
(** ** JavaScript strings *)
(* ===================================================================== *)

Module JS.

(** One UTF-16 code unit. *)
Definition char := N.

Definition jsstring := list char.

(** An ASCII literal as a JavaScript string. *)
Definition js (s : string) : jsstring :=
  map N_of_ascii (list_ascii_of_string s).

Arguments js s%_string.

Definition LF : char := 10%N.
Definition DASH : char := 45%N.
Definition LBRACKET : char := 91%N.
Definition RBRACKET : char := 93%N.

(** [\d] *)
Definition isDigit (c : char) : bool := (48 <=? c)%N && (c <=? 57)%N.

(** The code units removed by [String.prototype.trim]: WhiteSpace and
    LineTerminator of ECMA-262. *)
Definition isWhiteSpace (c : char) : bool :=
  ((9 <=? c)%N && (c <=? 13)%N)          (* TAB LF VT FF CR *)
  || (c =? 32)%N || (c =? 160)%N         (* SP, NBSP *)
  || (c =? 5760)%N                       (* U+1680 *)
  || ((8192 <=? c)%N && (c <=? 8202)%N)  (* U+2000 .. U+200A *)
  || (c =? 8232)%N || (c =? 8233)%N      (* LS, PS *)
  || (c =? 8239)%N || (c =? 8287)%N      (* U+202F, U+205F *)
  || (c =? 12288)%N                      (* U+3000 *)
  || (c =? 65279)%N.                     (* U+FEFF *)

Fixpoint dropWhile (p : char -> bool) (s : jsstring) : jsstring :=
  match s with
  | [] => []
  | c :: s' => if p c then dropWhile p s' else s
  end.

(** [s.trim()] *)
Definition trim (s : jsstring) : jsstring :=
  rev (dropWhile isWhiteSpace (rev (dropWhile isWhiteSpace s))).

(** [s.startsWith(p)] *)
Fixpoint startsWith (p s : jsstring) : bool :=
  match p, s with
  | [], _ => true
  | _ :: _, [] => false
  | a :: p', b :: s' => (a =? b)%N && startsWith p' s'
  end.

(** [s.includes(p)] *)
Fixpoint includes (s p : jsstring) : bool :=
  startsWith p s ||
  match s with
  | [] => false
  | _ :: s' => includes s' p
  end.

(** Decimal rendering of a non-negative integer, as a template literal
    prints it. *)
Definition decimal (n : N) : jsstring :=
  js (DecimalString.NilEmpty.string_of_uint (N.to_uint n)).

(** Template-literal rendering of an integer: the decimal digits, which is
    what the engine prints for an integer of magnitude below [10^21]; from
    there on the engine switches to exponent notation, so the statements
    that print an index keep it below [2^53]. *)
Definition showZ (z : Z) : jsstring :=
  match z with
  | Zneg p => js "-" ++ decimal (Npos p)
  | _ => decimal (Z.to_N z)
  end.

(** [parts.join(sep)] *)
Fixpoint join (sep : jsstring) (parts : list jsstring) : jsstring :=
  match parts with
  | [] => []
  | [p] => p
  | p :: rest => p ++ sep ++ join sep rest
  end.

End JS.

Import JS.

(* ===================================================================== *)
(** ** batcher.js *)
(* ===================================================================== *)

(** [SubtitleEntry] of parser.js. *)
Record Entry := mkEntry {
  index : Z;
  startTime : jsstring;
  endTime : jsstring;
  text : jsstring
}.

(** [Batch]; [bindex] is the field [index] of the source. *)
Record Batch := mkBatch {
  bindex : nat;
  entries : list Entry;
  contextEntries : list Entry;
  startIndex : nat;
  endIndex : nat
}.

Module DEFAULT_CONFIG.
Definition maxEntriesPerBatch : Z := 50.
Definition contextOverlap : nat := 3.
End DEFAULT_CONFIG.

(** [arr.slice(from, to)] for integer bounds [0 <= from]. *)
Definition slice {A} (arr : list A) (from to : nat) : list A :=
  firstn (to - from) (skipn from arr).

(** [Math.max(10, Math.min(batchSize, 100))] *)
Definition actualBatchSize (batchSize : Z) : nat :=
  Z.to_nat (Z.max 10 (Z.min batchSize 100)).

(** The [while (currentIndex < totalEntries)] loop of [createBatches].
    [fuel] bounds the number of iterations; [createBatches] passes the
    number of entries, which the loop never exhausts because every
    iteration advances [currentIndex] by at least one. *)
Fixpoint createBatches_loop (fuel : nat) (all : list Entry) (size : nat)
  (currentIndex batchIndex : nat) (batches : list Batch) : list Batch :=
  match fuel with
  | O => batches
  | S fuel' =>
    let totalEntries := length all in
    if currentIndex <? totalEntries then
      let startIndex := currentIndex in
      let endIndex := Nat.min (currentIndex + size) totalEntries in
      let batchEntries := slice all startIndex endIndex in
      let contextStart := Nat.max 0 (startIndex - DEFAULT_CONFIG.contextOverlap) in
      let contextEntries :=
        if 0 <? startIndex then slice all contextStart startIndex else [] in
      createBatches_loop fuel' all size endIndex (S batchIndex)
        (batches ++ [mkBatch batchIndex batchEntries contextEntries startIndex endIndex])
    else batches
  end.

Definition createBatches (all : list Entry) (batchSize : Z) : list Batch :=
  let totalEntries := length all in
  if totalEntries =? 0 then []
  else createBatches_loop totalEntries all (actualBatchSize batchSize) 0 0 [].

(** The two counters of [getBatchStats] the pipeline uses. *)
Definition totalBatches (batches : list Batch) : nat := length batches.

Definition totalEntries (batches : list Batch) : nat :=
  fold_left (fun sum b => sum + length (entries b)) batches 0.

(** *** [response.split(/\n---\n|\n-{3,}\n/)] *)

(** First alternative, [\n---\n], tried at the head of [s]; the result is
    what follows the match. *)
Definition match_sep_exact (s : jsstring) : option jsstring :=
  match s with
  | c0 :: c1 :: c2 :: c3 :: c4 :: rest =>
    if (c0 =? LF)%N && (c1 =? DASH)%N && (c2 =? DASH)%N && (c3 =? DASH)%N
       && (c4 =? LF)%N
    then Some rest else None
  | _ => None
  end.

(** The greedy run of [-]: its length and what follows it. *)
Fixpoint dashes (s : jsstring) : nat * jsstring :=
  match s with
  | c :: s' =>
    if (c =? DASH)%N then let (n, rest) := dashes s' in (S n, rest)
    else (O, s)
  | [] => (O, [])
  end.

(** Second alternative, [\n-{3,}\n].  Giving back dashes of the greedy run
    cannot help, the next code unit being a dash, so the match succeeds
    exactly when the whole run has three dashes or more and a line feed
    follows it. *)
Definition match_sep_run (s : jsstring) : option jsstring :=
  match s with
  | c0 :: s1 =>
    if (c0 =? LF)%N then
      let (n, after) := dashes s1 in
      if 3 <=? n then
        match after with
        | c :: rest => if (c =? LF)%N then Some rest else None
        | [] => None
        end
      else None
    else None
  | [] => None
  end.

Definition match_sep (s : jsstring) : option jsstring :=
  match match_sep_exact s with
  | Some rest => Some rest
  | None => match_sep_run s
  end.

(** The split loop: [cur] is the block being read (reversed), [s] the
    input still to scan.  A match is never empty, so each iteration
    shortens [s]; [split] gives one unit of fuel per code unit. *)
Fixpoint split_loop (fuel : nat) (cur : jsstring) (s : jsstring) : list jsstring :=
  match fuel with
  | O => [rev cur ++ s]
  | S fuel' =>
    match s with
    | [] => [rev cur]
    | c :: s' =>
      match match_sep s with
      | Some rest => rev cur :: split_loop fuel' [] rest
      | None => split_loop fuel' (c :: cur) s'
      end
    end
  end.

Definition split (s : jsstring) : list jsstring :=
  split_loop (length s) [] s.

(** *** [block.match]: an opening bracket, one or more digits, a closing
    bracket, an optional line feed, then a second group that takes all the
    rest of the block *)

Fixpoint digits (s : jsstring) : nat * jsstring :=
  match s with
  | c :: s' =>
    if isDigit c then let (n, rest) := digits s' in (S n, rest) else (O, s)
  | [] => (O, [])
  end.

(** The second capture group when the block matches. *)
Definition match_index (block : jsstring) : option jsstring :=
  match block with
  | c0 :: s1 =>
    if (c0 =? LBRACKET)%N then
      let (n, after) := digits s1 in
      if 1 <=? n then
        match after with
        | c :: s2 =>
          if (c =? RBRACKET)%N then
            match s2 with
            | c' :: s3 => if (c' =? LF)%N then Some s3 else Some s2
            | [] => Some []
            end
          else None
        | [] => None
        end
      else None
    else None
  | [] => None
  end.

(** *** [parseAPIResponse] *)

(** The [for] loop over the blocks: [i] is the loop index, [blocks] the
    blocks from position [i] on.  Reading [originalEntries[i]] and testing
    [i < originalEntries.length] are one lookup. *)
Fixpoint parse_blocks (originalEntries : list Entry) (i : nat)
  (blocks : list jsstring) (translatedEntries : list Entry) : list Entry :=
  match blocks with
  | [] => translatedEntries
  | b :: blocks' =>
    match nth_error originalEntries i with
    | None => translatedEntries
    | Some original =>
      let block := trim b in
      match block with
      | [] => parse_blocks originalEntries (S i) blocks' translatedEntries
      | _ :: _ =>
        let translatedText :=
          match match_index block with
          | Some rest => trim rest
          | None => block
          end in
        parse_blocks originalEntries (S i) blocks'
          (translatedEntries ++
           [mkEntry (index original) (startTime original) (endTime original)
              translatedText])
      end
    end
  end.

(** The [while (translatedEntries.length < originalEntries.length)] loop. *)
Fixpoint pad_loop (fuel : nat) (originalEntries translatedEntries : list Entry)
  : list Entry :=
  match fuel with
  | O => translatedEntries
  | S fuel' =>
    match nth_error originalEntries (length translatedEntries) with
    | None => translatedEntries
    | Some original =>
      pad_loop fuel' originalEntries
        (translatedEntries ++
         [mkEntry (index original) (startTime original) (endTime original)
            (text original)])
    end
  end.

Definition parseAPIResponse (response : jsstring) (originalEntries : list Entry)
  : list Entry :=
  let blocks := split response in
  let translatedEntries := parse_blocks originalEntries 0 blocks [] in
  pad_loop (length originalEntries) originalEntries translatedEntries.

(* ===================================================================== *)
(** ** translator.js: the provider and its replies *)
(* ===================================================================== *)

(** An [Error] object; only its [message] is ever read. *)
Record Error := mkError { message : jsstring }.

(** What [createTranslationPrompt] builds the prompt of one call from. *)
Record Request := mkRequest {
  reqBatch : Batch;
  reqTargetLang : jsstring;
  reqTranslatedContext : list Entry
}.

(** [data.promptFeedback]: its [blockReason] and its [JSON.stringify]. *)
Record Feedback := mkFeedback {
  blockReason : option jsstring;
  feedbackJSON : jsstring
}.

(** [data.candidates[k]].  [parts] is [content?.parts], each part with its
    [text], which may be missing. *)
Record Candidate := mkCandidate {
  finishReason : option jsstring;
  safetyRatings : option (list (jsstring * jsstring));
  parts : option (list (option jsstring))
}.

Record ResponseData := mkResponseData {
  promptFeedback : option Feedback;
  candidates : option (list Candidate)
}.

(** What lines 160-161 of [callGeminiAPI] find in a reply that is not ok.
    [errorData] is the parsed body, or [{}] when the body is not JSON; the
    code reads [errorData.error?.message].
    - [NullBody e]: the body is the JSON [null], and reading
      [errorData.error] throws the TypeError [e], whose text is the
      engine's;
    - [ErrorMessage m]: the message is the string [m], or is missing
      ([None]: no [error], no [message], a body that is not JSON);
    - [ErrorValue truthy rendering]: the message is a value that is not a
      string, truthy or not, which a template literal prints as
      [rendering]. *)
Inductive ErrorData :=
| NullBody (e : Error)
| ErrorMessage (m : option jsstring)
| ErrorValue (truthy : bool) (rendering : jsstring).

(** The [Response] of [fetch].  [errorData] is read when the reply is not
    ok.  [body] is read when it is: [inl e] when [response.json()] rejects
    with [e], or resolves with [null], on which reading
    [data.promptFeedback] throws [e]. *)
Record HttpResponse := mkHttpResponse {
  status : Z;
  errorData : ErrorData;
  body : Error + ResponseData
}.

(** [fetch] rejects (network failure) or resolves with a response. *)
Inductive FetchOutcome :=
| Rejected (e : Error)
| Responded (r : HttpResponse).

(** [response.ok] *)
Definition ok (r : HttpResponse) : bool :=
  (200 <=? status r)%Z && (status r <=? 299)%Z.

(** A string operand of [||]: the empty string is falsy. *)
Definition orElse (s : option jsstring) (dflt : jsstring) : jsstring :=
  match s with
  | Some (c :: r) => c :: r
  | _ => dflt
  end.

(** A string tested for truth: [undefined] and the empty string are falsy. *)
Definition truthy (s : option jsstring) : option jsstring :=
  match s with
  | Some (c :: r) => Some (c :: r)
  | _ => None
  end.

(** [s === lit] for a string that may be missing. *)
Definition strictEq (s : option jsstring) (lit : jsstring) : bool :=
  match s with
  | Some a => (length a =? length lit) && startsWith a lit
  | None => false
  end.

Inductive Result (E A : Type) :=
| Return (a : A)
| Throw (e : E).

Arguments Return {E A} a.
Arguments Throw {E A} e.

(** The TypeError of line 161, when the body of the reply is [null]. *)
Definition nullBody (r : HttpResponse) : option Error :=
  match errorData r with
  | NullBody e => Some e
  | _ => None
  end.

(** [errorData.error?.message] as the operand of [||]: its text when it is
    truthy. *)
Definition truthyMessage (r : HttpResponse) : option jsstring :=
  match errorData r with
  | ErrorMessage m => truthy m
  | ErrorValue true rendering => Some rendering
  | _ => None
  end.

(** Lines 159-214 of [callGeminiAPI]: what the function does with the
    settled [fetch].  [Return None] is a first part without [text]. *)
Definition callGeminiAPI_reply (r : HttpResponse) : Result Error (option jsstring) :=
  if negb (ok r) then
    match nullBody r with
    | Some e => Throw e
    | None =>
      let errorMessage :=
        match truthyMessage r with
        | Some m => m
        | None => js "HTTP " ++ showZ (status r)
        end in
      if (status r =? 400)%Z then
        Throw (mkError (js "Invalid request: " ++ errorMessage))
      else if (status r =? 401)%Z || (status r =? 403)%Z then
        Throw (mkError (js "Invalid API key. Please check your Gemini API key."))
      else if (status r =? 429)%Z then
        Throw (mkError (js "Rate limit exceeded. Please wait a moment and try again."))
      else if (500 <=? status r)%Z then
        Throw (mkError (js "Gemini API server error. Please try again later."))
      else Throw (mkError (js "API error: " ++ errorMessage))
    end
  else
    match body r with
    | inl e => Throw e
    | inr data =>
      match match promptFeedback data with
            | Some f => truthy (blockReason f)
            | None => None
            end with
      | Some reason => Throw (mkError (js "Content blocked: " ++ reason))
      | None =>
        match candidates data with
        | None | Some [] =>
          match promptFeedback data with
          | Some f =>
            Throw (mkError (js "No response from Gemini API. Feedback: "
                            ++ feedbackJSON f))
          | None =>
            Throw (mkError (js "No response from Gemini API - empty candidates"))
          end
        | Some (candidate :: _) =>
          if strictEq (finishReason candidate) (js "SAFETY") then
            let ratings :=
              match safetyRatings candidate with
              | Some rs =>
                Some (join (js ", ")
                        (map (fun r => fst r ++ js ": " ++ snd r) rs))
              | None => None
              end in
            Throw (mkError (js "Response blocked by safety filter: "
                            ++ orElse ratings (js "unknown reason")))
          else if strictEq (finishReason candidate) (js "RECITATION") then
            Throw (mkError
                     (js "Response blocked due to recitation/copyright concerns"))
          else
            match parts candidate with
            | None | Some [] =>
              Throw (mkError (js "Empty response from Gemini API. Finish reason: "
                              ++ orElse (finishReason candidate) (js "unknown")))
            | Some (part :: _) => Return part
            end
        end
      end
    end.

Definition callGeminiAPI_result (f : FetchOutcome) : Result Error (option jsstring) :=
  match f with
  | Rejected e => Throw e
  | Responded r => callGeminiAPI_reply r
  end.

(** The test of lines 273-279 of [translateBatchWithRetry]. *)
Definition isRetryable (error : Error) : bool :=
  includes (message error) (js "Rate limit")
  || includes (message error) (js "429")
  || includes (message error) (js "Too Many")
  || includes (message error) (js "Empty response")
  || includes (message error) (js "empty candidates")
  || includes (message error) (js "No response from Gemini").

(* ===================================================================== *)
(** ** translator.js: the asynchronous functions *)
(* ===================================================================== *)

(** The status text of a progress notification, by the template it is
    printed from and the numbers the template interpolates. *)
Inductive Status :=
| StTranslating (batchNumber total : nat)
| StRateLimited (waitSeconds : Z) (attempt maxRetries : nat)
| StCompleted (batchNumber total : nat)
| StWaitingNext.

(** The message of a log notification, likewise. *)
Inductive LogMessage :=
| LogResuming (batchNumber alreadyTranslated : nat)
| LogSending (count : nat)
| LogReceived (count : nat)
| LogWaiting (waitSeconds : Z) (attempt maxRetries : nat).

(** A call of one of the callbacks [startTranslation] passes to
    [translateAllBatches]. *)
Inductive Notice :=
| Progress (completedBatches totalBatches currentBatchEntries : nat) (st : Status)
    (* [onProgress(...)] *)
| Log (msg : LogMessage) (batchNumber : option nat)
    (* [onLog(...)] *)
| Checkpoint (completedBatches : nat) (allEntries : list Entry) (failed : bool).
    (* [onBatchComplete(completedBatches, allEntries, failed)]; the entries
       are the contents of the array when the callback runs, which is what
       [saveProgress] serialises *)

(** What a run does that its caller or the outside can see, oldest first in
    a trace. *)
Inductive Event :=
| EvFetch (req : Request)
    (* one [fetch] of [callGeminiAPI] *)
| EvValidate (apiKey : jsstring)
    (* the [fetch] of [validateApiKey] *)
| EvTimer (ms : Q)
    (* [setTimeout(resolve, ms)] fired, [ms] after [delay] was called *)
| EvWaiting (waitSeconds : Z) (attempt maxRetries : nat)
    (* [onWaiting(waitSeconds, attempt, maxRetries)] was called *)
| EvNotice (n : Notice).

(** The state a run threads: the clock in milliseconds, the number of
    provider calls made, the number of [Math.random()] draws, the trace. *)
Record World := mkWorld {
  now : Q;
  calls : nat;
  draws : nat;
  trace : list Event
}.

(** What the run does not control. *)
Record Env := mkEnv {
  provider : nat -> Request -> FetchOutcome;
    (* how the k-th [fetch] of [callGeminiAPI] settles *)
  latency : nat -> Q;
    (* how long it takes to settle *)
  random : nat -> Q;
    (* the k-th value of [Math.random()] *)
  abortAt : option Q;
    (* when [signal] becomes aborted; [None]: never, or no signal given *)
  keyCheck : jsstring -> FetchOutcome;
    (* how the [fetch] of [validateApiKey] settles *)
  undefinedSplit : Error
    (* the [TypeError] of [undefined.split(...)] *)
}.

(** A value thrown by the retry loop: [throw lastError] throws [undefined]
    when the loop body never ran. *)
Inductive Thrown :=
| Err (e : Error)
| Undefined.

Definition M (E A : Type) : Type := World -> Result E A * World.

Definition ret {E A} (a : A) : M E A := fun w => (Return a, w).

Definition throw {E A} (e : E) : M E A := fun w => (Throw e, w).

Definition bind {E A B} (m : M E A) (k : A -> M E B) : M E B :=
  fun w =>
    match m w with
    | (Return a, w') => k a w'
    | (Throw e, w') => (Throw e, w')
    end.

(** [try { m } catch (e) { h e }], followed by [k]. *)
Definition tryCatch {E E' A B} (m : M E A) (k : A -> M E' B) (h : E -> M E' B)
  : M E' B :=
  fun w =>
    match m w with
    | (Return a, w') => k a w'
    | (Throw e, w') => h e w'
    end.

Definition emit {E} (evs : list Event) : M E unit :=
  fun w => (Return tt, mkWorld (now w) (calls w) (draws w) (trace w ++ evs)).

(** Calls of the caller's callbacks, in order. *)
Definition notify {E} (ns : list Notice) : M E unit := emit (map EvNotice ns).

Declare Scope js_scope.
Delimit Scope js_scope with js.
Notation "x <- m ;; k" := (bind m (fun x => k))
  (at level 100, m at next level, right associativity) : js_scope.
Notation "m ;; k" := (bind m (fun _ => k))
  (at level 100, right associativity) : js_scope.
Open Scope js_scope.

Definition cancelled : Error := mkError (js "Translation cancelled").

(** [Math.round] *)
Definition round (x : Q) : Z := Qfloor (x + (1 # 2))%Q.

Section Translator.

Variable env : Env.

(** [signal?.aborted] *)
Definition aborted (w : World) : bool :=
  match abortAt env with
  | Some t => Qle_bool t (now w)
  | None => false
  end.

Definition checkAbort {E} (e : E) : M E unit :=
  fun w => if aborted w then (Throw e, w) else (Return tt, w).

(** [delay(ms)]: a timer and nothing else. *)
Definition delay {E} (ms : Q) : M E unit :=
  fun w =>
    (Return tt,
     mkWorld (now w + ms)%Q (calls w) (draws w) (trace w ++ [EvTimer ms])).

(** [Math.random()] *)
Definition mathRandom {E} : M E Q :=
  fun w =>
    (Return (random env (draws w)),
     mkWorld (now w) (calls w) (S (draws w)) (trace w)).

Definition callGeminiAPI (req : Request) : M Error (option jsstring) :=
  fun w =>
    let k := calls w in
    (callGeminiAPI_result (provider env k req),
     mkWorld (now w + latency env k)%Q (S k) (draws w) (trace w ++ [EvFetch req])).

Definition translateBatch (batch : Batch) (targetLang : jsstring)
  (translatedContext : list Entry) : M Error (list Entry) :=
  response <- callGeminiAPI (mkRequest batch targetLang translatedContext) ;;
  match response with
  | Some raw => ret (parseAPIResponse raw (entries batch))
  | None => throw (undefinedSplit env)
  end.

(** The [for (attempt = 0; attempt <= maxRetries; attempt++)] loop of
    [translateBatchWithRetry], with [n] iterations left:
    [n = maxRetries + 1 - attempt]. *)
Fixpoint retry_loop (batch : Batch) (targetLang : jsstring)
  (translatedContext : list Entry) (maxRetries : nat)
  (onWaiting : option (Z -> nat -> nat -> list Notice))
  (n attempt : nat) (lastError : option Error) : M Thrown (list Entry) :=
  match n with
  | O =>
    throw (match lastError with Some e => Err e | None => Undefined end)
  | S n' =>
    checkAbort (Err cancelled) ;;
    tryCatch (translateBatch batch targetLang translatedContext)
      (fun translatedEntries => ret translatedEntries)
      (fun error =>
         if negb (isRetryable error) then throw (Err error)
         else
           (if attempt <? maxRetries then
              let baseDelay := 15000%Q in
              let backoffDelay :=
                (baseDelay * inject_Z (2 ^ Z.of_nat attempt))%Q in
              r <- mathRandom ;;
              let jitter := (r * 2000)%Q in
              let totalDelay := (backoffDelay + jitter)%Q in
              let waitSeconds := round (totalDelay / 1000)%Q in
              match onWaiting with
              | Some callback =>
                emit (EvWaiting waitSeconds (attempt + 1) maxRetries
                      :: map EvNotice (callback waitSeconds (attempt + 1) maxRetries))
              | None => ret tt
              end ;;
              delay totalDelay
            else ret tt) ;;
           retry_loop batch targetLang translatedContext maxRetries onWaiting
             n' (S attempt) (Some error))
  end.

Definition translateBatchWithRetry (batch : Batch) (targetLang : jsstring)
  (translatedContext : list Entry) (maxRetries : nat)
  (onWaiting : option (Z -> nat -> nat -> list Notice)) : M Thrown (list Entry) :=
  retry_loop batch targetLang translatedContext maxRetries onWaiting
    (S maxRetries) 0 None.

Definition BATCH_DELAY : Q := 4000%Q.

(** The [onWaiting] closure [translateAllBatches] passes down for batch
    [i]: a progress notification and a log entry. *)
Definition reportWaiting (i total : nat) (waitSeconds : Z)
  (attempt maxRetries : nat) : list Notice :=
  [Progress i total 0 (StRateLimited waitSeconds attempt maxRetries);
   Log (LogWaiting waitSeconds attempt maxRetries) (Some (i + 1))].

(** The [for (i = startFromBatch; i < batches.length; i++)] loop of
    [translateAllBatches]: [rest] is [batches] from position [i] on,
    [total] is [batches.length]. *)
Fixpoint batches_loop (targetLang : jsstring) (total i : nat)
  (rest : list Batch) (allTranslatedEntries : list Entry)
  : M Thrown (list Entry) :=
  match rest with
  | [] => ret allTranslatedEntries
  | batch :: rest' =>
    checkAbort (Err cancelled) ;;
    let contextStart := Nat.max 0 (length allTranslatedEntries - 3) in
    let translatedContext := skipn contextStart allTranslatedEntries in
    notify [Progress i total (length (entries batch)) (StTranslating (i + 1) total);
            Log (LogSending (length (entries batch))) (Some (i + 1))] ;;
    tryCatch
      (translateBatchWithRetry batch targetLang translatedContext 5
         (Some (reportWaiting i total)))
      (fun translatedEntries =>
         let all' := allTranslatedEntries ++ translatedEntries in
         notify [Log (LogReceived (length translatedEntries)) (Some (i + 1));
                 Checkpoint (i + 1) all' false;
                 Progress (i + 1) total (length (entries batch))
                   (StCompleted (i + 1) total)] ;;
         (if i <? total - 1 then
            notify [Progress (i + 1) total 0 StWaitingNext] ;;
            delay BATCH_DELAY
          else ret tt) ;;
         batches_loop targetLang total (S i) rest' all')
      (fun error =>
         notify [Checkpoint i allTranslatedEntries true] ;;
         throw error)
  end.

Definition translateAllBatches (batches : list Batch) (targetLang : jsstring)
  (startFromBatch : nat) (existingEntries : list Entry) : M Thrown (list Entry) :=
  (if 0 <? startFromBatch then
     notify [Log (LogResuming (startFromBatch + 1) (length existingEntries)) None]
   else ret tt) ;;
  batches_loop targetLang (length batches) startFromBatch
    (skipn startFromBatch batches) existingEntries.

(** The [fetch] of [validateApiKey]. *)
Definition fetchKeyCheck (key : jsstring) : M Error HttpResponse :=
  fun w =>
    (match keyCheck env key with
     | Responded response => Return response
     | Rejected e => Throw e
     end,
     mkWorld (now w) (calls w) (draws w) (trace w ++ [EvValidate key])).

(** [validateApiKey(apiKey)]; [None] is a key that is [undefined] or
    [null]. *)
Definition validateApiKey (apiKey : option jsstring) : M Thrown bool :=
  match truthy apiKey with
  | None => ret false
  | Some key =>
    if length (trim key) =? 0 then ret false
    else
      tryCatch (fetchKeyCheck key)
        (fun response => ret (ok response))
        (fun _ => ret false)
  end.

End Translator.

(* ===================================================================== *)
(** ** The segmenter as the specification words it *)
(* ===================================================================== *)

(** [ceil(n / size)] *)
Definition ceil_div (n size : nat) : nat := (n + size - 1) / size.

(** The batch at position [i] of a sequence cut in strides of [size]:
    it covers [[i*size, min((i+1)*size, total))], with up to
    [contextOverlap] entries before its start as context. *)
Definition batch_at (all : list Entry) (size c0 i0 k : nat) : Batch :=
  let startIndex := c0 + k * size in
  let endIndex := Nat.min (c0 + (k + 1) * size) (length all) in
  mkBatch (i0 + k) (slice all startIndex endIndex)
    (if 0 <? startIndex
     then slice all (startIndex - DEFAULT_CONFIG.contextOverlap) startIndex
     else [])
    startIndex endIndex.

Definition segment (all : list Entry) (batchSize : Z) : list Batch :=
  let size := actualBatchSize batchSize in
  map (batch_at all size 0 0) (seq 0 (ceil_div (length all) size)).

(* ===================================================================== *)
(** ** Reading a run *)
(* ===================================================================== *)

Definition isFetch (ev : Event) : bool :=
  match ev with EvFetch _ => true | _ => false end.

Definition isWaiting (ev : Event) : bool :=
  match ev with EvWaiting _ _ _ => true | _ => false end.

(** How many times the provider was called in a trace. *)
Definition fetches (t : list Event) : nat := length (filter isFetch t).

(** How many times [onWaiting] was called in a trace. *)
Definition waitings (t : list Event) : nat := length (filter isWaiting t).

(** The checkpoints of a trace, oldest first. *)
Fixpoint checkpoints (t : list Event) : list (nat * list Entry * bool) :=
  match t with
  | [] => []
  | EvNotice (Checkpoint completed allEntries failed) :: t' =>
    (completed, allEntries, failed) :: checkpoints t'
  | _ :: t' => checkpoints t'
  end.

(** The number of entries of the batches before position [k]: what
    [getBatchStats] counts on that prefix. *)
Definition entriesBefore (batches : list Batch) (k : nat) : nat :=
  totalEntries (firstn k batches).

(** What translation must leave alone in an entry. *)
Definition identity (e : Entry) : Z * jsstring * jsstring :=
  (index e, startTime e, endTime e).

(** A checkpoint that holds exactly the entries of the batches it reports
    as completed. *)
Definition checkpoint_ok (batches : list Batch) (c : nat * list Entry * bool)
  : Prop :=
  length (snd (fst c)) = entriesBefore batches (fst (fst c)).

Section Runs.

Variable env : Env.

(** What the k-th provider call makes of [translateBatch]. *)
Definition translateBatch_result (k : nat) (batch : Batch) (targetLang : jsstring)
  (translatedContext : list Entry) : Result Error (list Entry) :=
  match callGeminiAPI_result
          (provider env k (mkRequest batch targetLang translatedContext)) with
  | Return (Some raw) => Return (parseAPIResponse raw (entries batch))
  | Return None => Throw (undefinedSplit env)
  | Throw e => Throw e
  end.

(** The world once the provider call made in [w] has settled. *)
Definition after_fetch (req : Request) (w : World) : World :=
  mkWorld (now w + latency env (calls w))%Q (S (calls w)) (draws w)
    (trace w ++ [EvFetch req]).

(** [totalDelay] and [waitSeconds] of a backoff computed in [w], as exact
    rationals: the code computes [baseDelay * Math.pow(2, attempt)], the
    jitter, their sum and the quotient by 1000 in double precision, so its
    numbers can differ from these in the last place, and [waitSeconds] by
    one where the quotient falls on a half. *)
Definition totalDelay (attempt : nat) (w : World) : Q :=
  (15000 * inject_Z (2 ^ Z.of_nat attempt) + random env (draws w) * 2000)%Q.

Definition waitSeconds (attempt : nat) (w : World) : Z :=
  round (totalDelay attempt w / 1000)%Q.

(** The world once the backoff started in [w] is over: [onWaiting], when
    given, has been called and the timer has run. *)
Definition after_backoff (maxRetries : nat)
  (onWaiting : option (Z -> nat -> nat -> list Notice)) (attempt : nat)
  (w : World) : World :=
  mkWorld (now w + totalDelay attempt w)%Q (calls w) (S (draws w))
    (match onWaiting with
     | Some callback =>
       trace w
       ++ EvWaiting (waitSeconds attempt w) (attempt + 1) maxRetries
          :: map EvNotice (callback (waitSeconds attempt w) (attempt + 1) maxRetries)
     | None => trace w
     end ++ [EvTimer (totalDelay attempt w)]).

(** The world once a timer started in [w] has run. *)
Definition after_timer (ms : Q) (w : World) : World :=
  mkWorld (now w + ms)%Q (calls w) (draws w) (trace w ++ [EvTimer ms]).

(** The world once the caller's callbacks have been called. *)
Definition with_notices (ns : list Notice) (w : World) : World :=
  mkWorld (now w) (calls w) (draws w) (trace w ++ map EvNotice ns).

(** The rolling context of [translateAllBatches]: the last three entries
    translated so far. *)
Definition rollingContext (allTranslatedEntries : list Entry) : list Entry :=
  skipn (Nat.max 0 (length allTranslatedEntries - 3)) allTranslatedEntries.

End Runs.

(* ===================================================================== *)
(** ** Sample data *)
(* ===================================================================== *)

Module Sample.

Definition nl : string := String (ascii_of_nat 10) EmptyString.

Definition e1 : Entry :=
  mkEntry 1 (js "00:00:01,000") (js "00:00:02,000") (js "Hello").
Definition e2 : Entry :=
  mkEntry 2 (js "00:00:03,000") (js "00:00:04,000") (js "World").
Definition e3 : Entry :=
  mkEntry 3 (js "00:00:05,000") (js "00:00:06,000") (js "Bye").

(** A reply whose first block is blank: a separator line right after an
    empty first line, then one translated line. *)
Definition blankFirst : jsstring := js (nl ++ "---" ++ nl ++ "Salut").

Definition b0 : Batch := mkBatch 0 [e1] [] 0 1.
Definition b1 : Batch := mkBatch 1 [e2] [e1] 1 2.
Definition b2 : Batch := mkBatch 2 [e3] [e1; e2] 2 3.

Definition w0 : World := mkWorld 0 0 0 [].

Definition persian : jsstring := js "persian".

(** A reply with one candidate holding one text part. *)
Definition okReply (t : jsstring) : FetchOutcome :=
  Responded
    (mkHttpResponse 200 (ErrorMessage None)
       (inr (mkResponseData None
               (Some [mkCandidate (Some (js "STOP")) None (Some [Some t])])))).

(** A reply that is not ok. *)
Definition errorReply (st : Z) (msg : option jsstring) : FetchOutcome :=
  Responded
    (mkHttpResponse st (ErrorMessage msg) (inr (mkResponseData None None))).



Definition typeError : Error :=
  mkError (js "Cannot read properties of undefined (reading 'split')").

(** A provider that answers every call; the signal is not aborted. *)
Definition envOk : Env :=
  mkEnv (fun _ _ => okReply (js "Salam")) (fun _ => 100%Q) (fun _ => (1 # 2)%Q)
    None (fun _ => okReply []) typeError.

(** The same provider; the signal is aborted 150 ms into the run, during
    the timer that follows the first batch. *)
Definition envAbortInDelay : Env :=
  mkEnv (fun _ _ => okReply (js "Salam")) (fun _ => 100%Q) (fun _ => (1 # 2)%Q)
    (Some 150%Q) (fun _ => okReply []) typeError.


(** A provider that always answers 429. *)
Definition envAlways429 : Env :=
  mkEnv (fun _ _ => errorReply 429 None) (fun _ => 100%Q) (fun _ => (1 # 2)%Q)
    None (fun _ => okReply []) typeError.

(** A provider that always answers 429; the signal is aborted 200 ms into
    the run, during the first backoff. *)
Definition envAbortInBackoff : Env :=
  mkEnv (fun _ _ => errorReply 429 None) (fun _ => 100%Q) (fun _ => (1 # 2)%Q)
    (Some 200%Q) (fun _ => okReply []) typeError.

(** A provider that rejects the key. *)
Definition envBadKey : Env :=
  mkEnv (fun _ _ => errorReply 403 None) (fun _ => 100%Q) (fun _ => (1 # 2)%Q)
    None (fun _ => errorReply 403 None) typeError.



End Sample.

(* ===================================================================== *)
(** ** batcher.js: statistics, formatting, progress tracker *)
(* ===================================================================== *)

(** [estimateTokens(text)]: [Math.ceil(text.length / 3)] *)
Definition estimateTokens (t : jsstring) : nat := ceil_div (length t) 3.

(** [calculateBatchTokens(entries)] *)
Definition calculateBatchTokens (es : list Entry) : nat :=
  fold_left
    (fun total entry =>
       total
       + estimateTokens (startTime entry ++ js " --> " ++ endTime entry)
       + estimateTokens (text entry)
       + 10)
    es 0.

Record BatchStats := mkBatchStats {
  statTotalBatches : nat;
  statTotalEntries : nat;
  avgEntriesPerBatch : Z;
  estimatedTokens : nat
}.

(** [getBatchStats(batches)] *)
Definition getBatchStats (batches : list Batch) : BatchStats :=
  let nBatches := totalBatches batches in
  let nEntries := totalEntries batches in
  let avg :=
    if 0 <? nBatches
    then round (inject_Z (Z.of_nat nEntries) / inject_Z (Z.of_nat nBatches))%Q
    else 0%Z in
  let tokens :=
    fold_left
      (fun estimated batch =>
         estimated + calculateBatchTokens (entries batch)
         + calculateBatchTokens (contextEntries batch))
      batches 0 in
  mkBatchStats nBatches nEntries avg tokens.

(** The separator [formatEntriesForAPI] joins the blocks with. *)
Definition SEPARATOR : jsstring := LF :: js "---" ++ [LF].

(** A line feed followed by three dashes: how every separator begins. *)
Definition SEPARATOR_START : jsstring := [LF; DASH; DASH; DASH].

(** [s.trimEnd()]: the second half of [trim]. *)
Definition trimEnd (s : jsstring) : jsstring :=
  rev (dropWhile isWhiteSpace (rev s)).

(** The entry with its text trimmed. *)
Definition trimmed (entry : Entry) : Entry :=
  mkEntry (index entry) (startTime entry) (endTime entry) (trim (text entry)).

(** The block of one entry: its number between brackets, a line feed, its
    text. *)
Definition formatEntry (entry : Entry) : jsstring :=
  js "[" ++ showZ (index entry) ++ js "]" ++ LF :: text entry.

(** [formatEntriesForAPI(entries)] *)
Definition formatEntriesForAPI (es : list Entry) : jsstring :=
  join SEPARATOR (map formatEntry es).

(** [arr.map((x, i) => f(x, i))], counting from [i]. *)
Fixpoint mapi_from {A B} (f : A -> nat -> B) (i : nat) (l : list A) : list B :=
  match l with
  | [] => []
  | x :: l' => f x i :: mapi_from f (S i) l'
  end.

(** One pair of [formatContextForAPI]: the original text, and under it its
    translation when [translatedContext] has an entry at the same
    position. *)
Definition contextPair (translatedContext : list Entry) (entry : Entry)
  (i : nat) : jsstring :=
  match nth_error translatedContext i with
  | Some translation =>
    js "Original: " ++ text entry ++ LF :: js "Translation: " ++ text translation
  | None => js "Original: " ++ text entry
  end.

(** [formatContextForAPI(contextEntries, translatedContext)] *)
Definition formatContextForAPI (contextEntries translatedContext : list Entry)
  : jsstring :=
  if length contextEntries =? 0 then []
  else join [LF; LF] (mapi_from (contextPair translatedContext) 0 contextEntries).

(** [mergeBatches(translatedBatches)]: [flat()] of an array of arrays. *)
Definition mergeBatches (translatedBatches : list (list Entry)) : list Entry :=
  concat translatedBatches.

(** The variables the closures of [createProgressTracker] share. *)
Record Tracker := mkTracker {
  trackerTotalBatches : nat;
  trackerCompletedBatches : nat;
  trackerCompletedEntries : nat;
  trackerTotalEntries : nat
}.

Record ProgressInfo := mkProgressInfo {
  infoCompletedBatches : nat;
  infoTotalBatches : nat;
  infoCompletedEntries : nat;
  infoTotalEntries : nat;
  infoPercent : Z
}.

Definition createProgressTracker (nBatches : nat) : Tracker :=
  mkTracker nBatches 0 0 0.

Definition setTotalEntries (t : Tracker) (total : nat) : Tracker :=
  mkTracker (trackerTotalBatches t) (trackerCompletedBatches t)
    (trackerCompletedEntries t) total.

Definition completeBatch (t : Tracker) (entriesInBatch : nat) : Tracker :=
  mkTracker (trackerTotalBatches t) (S (trackerCompletedBatches t))
    (trackerCompletedEntries t + entriesInBatch) (trackerTotalEntries t).

(** [Math.round((completed / total) * 100)], [0] when there is no batch.
    The quotient is the exact rational, where the code rounds it to a
    double before it multiplies: the two agree at [0] and at [total], and
    both stay within [0] and [100] when [completed <= total], which is what
    the statements about the percentage use; in between they can differ by
    one at a tie (23 of 40 is 57 in doubles and 58 here). *)
Definition percentOf (completed total : nat) : Z :=
  if 0 <? total
  then round (inject_Z (Z.of_nat completed) / inject_Z (Z.of_nat total) * 100)%Q
  else 0%Z.

Definition getProgress (t : Tracker) : ProgressInfo :=
  mkProgressInfo (trackerCompletedBatches t) (trackerTotalBatches t)
    (trackerCompletedEntries t) (trackerTotalEntries t)
    (percentOf (trackerCompletedBatches t) (trackerTotalBatches t)).

Definition isComplete (t : Tracker) : bool :=
  trackerTotalBatches t <=? trackerCompletedBatches t.

Definition reset (t : Tracker) : Tracker :=
  mkTracker (trackerTotalBatches t) 0 0 (trackerTotalEntries t).

(* ===================================================================== *)
(** ** app.js: what [startTranslation] does with the callbacks *)
(* ===================================================================== *)

(** The variable [completedEntries] of [startTranslation] once its progress
    callback has been called for the notices of a trace: each call adds
    [batchEntries] when it is positive. *)
Fixpoint progressCounter (completedEntries : nat) (t : list Event) : nat :=
  match t with
  | [] => completedEntries
  | EvNotice (Progress _ _ batchEntries _) :: t' =>
    progressCounter
      (if 0 <? batchEntries then completedEntries + batchEntries
       else completedEntries) t'
  | _ :: t' => progressCounter completedEntries t'
  end.

(** The record [saveProgress] is given at a checkpoint, without the fields
    no function modelled here reads ([fileFormat], [header], [savedAt]). *)
Record SavedProgress := mkSavedProgress {
  savedFileName : jsstring;
  savedTargetLang : jsstring;
  savedBatchSize : Z;
  savedTotalBatches : nat;
  savedCompletedBatches : nat;
  savedTotalEntries : nat;
  savedTranslatedEntries : list Entry;
  savedOriginalEntries : list Entry;
  savedFailed : bool
}.

(** The record the checkpoint callback of [startTranslation] builds. *)
Definition checkpointRecord (fileName targetLang : jsstring) (batchSize : Z)
  (originalEntries : list Entry) (batches : list Batch)
  (c : nat * list Entry * bool) : SavedProgress :=
  let stats := getBatchStats batches in
  mkSavedProgress fileName targetLang batchSize (statTotalBatches stats)
    (fst (fst c)) (statTotalEntries stats) (snd (fst c)) originalEntries (snd c).

(** What [checkForSavedProgress] decides: whether the resume banner is
    shown for what [loadProgress] returned. *)
Definition resumeOffered (saved : option SavedProgress) (fileName : jsstring)
  : bool :=
  match saved with
  | Some s =>
    if 0 <? length (savedTranslatedEntries s) then
      strictEq (Some (savedFileName s)) fileName
      && (savedCompletedBatches s <? savedTotalBatches s)
    else false
  | None => false
  end.

(* ===================================================================== *)
(** ** parser.js *)
(* ===================================================================== *)

Definition CR : char := 13%N.
Definition COLON : char := 58%N.
Definition COMMA : char := 44%N.
Definition DOT : char := 46%N.
Definition GT : char := 62%N.
Definition PLUS : char := 43%N.

(** The two formats of a subtitle file. *)
Inductive Format := srt | vtt.

(** [ParsedSubtitle]; [subtitleEntries] is the field [entries] of the
    source. *)
Record ParsedSubtitle := mkParsedSubtitle {
  format : Format;
  header : jsstring;
  subtitleEntries : list Entry
}.

(** [detectFormat(content)] *)
Definition detectFormat (content : jsstring) : Format :=
  if startsWith (js "WEBVTT") (trim content) then vtt else srt.

(** [content.replace(/\r\n/g, '\n')] *)
Fixpoint replaceCRLF (s : jsstring) : jsstring :=
  match s with
  | [] => []
  | c :: s' =>
    if (c =? CR)%N then
      match s' with
      | c' :: s'' =>
        if (c' =? LF)%N then LF :: replaceCRLF s'' else c :: replaceCRLF s'
      | [] => [c]
      end
    else c :: replaceCRLF s'
  end.

(** [s.replace(/\r/g, '\n')] *)
Definition replaceCR (s : jsstring) : jsstring :=
  map (fun c => if (c =? CR)%N then LF else c) s.

Definition normalizedContent (content : jsstring) : jsstring :=
  replaceCR (replaceCRLF content).

(** *** [s.split(/\n\n+/)] *)

(** The pattern tried at the head of [s]: two line feeds and the greedy run
    of line feeds after them; the result is what follows the match. *)
Definition match_blank (s : jsstring) : option jsstring :=
  match s with
  | c0 :: c1 :: rest =>
    if (c0 =? LF)%N && (c1 =? LF)%N
    then Some (dropWhile (fun c => (c =? LF)%N) rest)
    else None
  | _ => None
  end.

(** The split loop, as for the separator of the API response: [cur] is the
    piece being read (reversed), [s] the input still to scan; a match is
    never empty, so one unit of fuel per code unit is enough. *)
Fixpoint splitBlank_loop (fuel : nat) (cur : jsstring) (s : jsstring)
  : list jsstring :=
  match fuel with
  | O => [rev cur ++ s]
  | S fuel' =>
    match s with
    | [] => [rev cur]
    | c :: s' =>
      match match_blank s with
      | Some rest => rev cur :: splitBlank_loop fuel' [] rest
      | None => splitBlank_loop fuel' (c :: cur) s'
      end
    end
  end.

Definition splitBlank (s : jsstring) : list jsstring :=
  splitBlank_loop (length s) [] s.

(** [s.split('\n')] *)
Fixpoint splitLines_loop (cur : jsstring) (s : jsstring) : list jsstring :=
  match s with
  | [] => [rev cur]
  | c :: s' =>
    if (c =? LF)%N then rev cur :: splitLines_loop [] s'
    else splitLines_loop (c :: cur) s'
  end.

Definition splitLines (s : jsstring) : list jsstring := splitLines_loop [] s.

(** *** [parseInt(s, 10)] *)

(** The value of the longest prefix of decimal digits, after [acc]. *)
Fixpoint parseDigits (acc : N) (s : jsstring) : N :=
  match s with
  | c :: s' => if isDigit c then parseDigits (10 * acc + (c - 48)) s' else acc
  | [] => acc
  end.

(** [parseInt(s, 10)]: leading white space, an optional sign, then the
    longest prefix of decimal digits; [None] is [NaN], the result when
    there is no digit.  The result is the mathematical value: it is the
    number [parseInt] returns below [2^53]. *)
Definition parseInt (s : jsstring) : option Z :=
  let s1 := dropWhile isWhiteSpace s in
  let (negative, s2) :=
    match s1 with
    | c :: s' =>
      if (c =? DASH)%N then (true, s')
      else if (c =? PLUS)%N then (false, s')
      else (false, s1)
    | [] => (false, [])
    end in
  match s2 with
  | c :: _ =>
    if isDigit c then
      let value := Z.of_N (parseDigits 0 s2) in
      Some (if negative then (- value)%Z else value)
    else None
  | [] => None
  end.

(** *** The timestamp line of an SRT block *)

(** One timestamp, two digits, a colon, two digits, a colon, two digits, a
    comma or a period and three digits, tried at the head of [s]: the
    timestamp and what follows it. *)
Definition match_time (s : jsstring) : option (jsstring * jsstring) :=
  match s with
  | h1 :: h2 :: c1 :: m1 :: m2 :: c2 :: s1 :: s2 :: p :: f1 :: f2 :: f3 :: rest =>
    if isDigit h1 && isDigit h2 && (c1 =? COLON)%N
       && isDigit m1 && isDigit m2 && (c2 =? COLON)%N
       && isDigit s1 && isDigit s2 && ((p =? COMMA)%N || (p =? DOT)%N)
       && isDigit f1 && isDigit f2 && isDigit f3
    then Some ([h1; h2; c1; m1; m2; c2; s1; s2; p; f1; f2; f3], rest)
    else None
  | _ => None
  end.

(** The whole pattern tried at the head of [s]: a timestamp, white space,
    the arrow, white space, a timestamp.  The code unit after a run of white
    space the pattern takes is never white space, so the greedy runs are the
    only ones to try.  The result is the two groups. *)
Definition match_stamp (s : jsstring) : option (jsstring * jsstring) :=
  match match_time s with
  | Some (t1, r1) =>
    match dropWhile isWhiteSpace r1 with
    | a :: b :: c :: r2 =>
      if (a =? DASH)%N && (b =? DASH)%N && (c =? GT)%N then
        match match_time (dropWhile isWhiteSpace r2) with
        | Some (t2, _) => Some (t1, t2)
        | None => None
        end
      else None
    | _ => None
    end
  | None => None
  end.

(** [line.match(...)]: the leftmost position where the pattern matches. *)
Fixpoint search_stamp (s : jsstring) : option (jsstring * jsstring) :=
  match match_stamp s with
  | Some groups => Some groups
  | None =>
    match s with
    | [] => None
    | _ :: s' => search_stamp s'
    end
  end.

(** *** [parseSRT] *)

(** The body of the loop over the blocks: the entry the block gives, or
    [None] when the loop goes on without one. *)
Definition parseSRT_block (block : jsstring) : option Entry :=
  let lines := splitLines (trim block) in
  if length lines <? 3 then None
  else
    match lines with
    | line0 :: line1 :: textLines =>
      match parseInt (trim line0) with
      | None => None
      | Some index =>
        match search_stamp (trim line1) with
        | None => None
        | Some (startTime, endTime) =>
          Some (mkEntry index startTime endTime (join [LF] textLines))
        end
      end
    | _ => None
    end.

Fixpoint parseSRT_loop (blocks : list jsstring) (entries : list Entry)
  : list Entry :=
  match blocks with
  | [] => entries
  | block :: blocks' =>
    match parseSRT_block block with
    | Some entry => parseSRT_loop blocks' (entries ++ [entry])
    | None => parseSRT_loop blocks' entries
    end
  end.

Definition parseSRT (content : jsstring) : ParsedSubtitle :=
  let blocks := splitBlank (trim (normalizedContent content)) in
  mkParsedSubtitle srt [] (parseSRT_loop blocks []).

(** *** [generateSRT], [generateVTT], [generateSubtitle] *)

(** [s.replace(a, b)] for two strings of one code unit: the first occurrence
    only. *)
Fixpoint replaceFirst (a b : char) (s : jsstring) : jsstring :=
  match s with
  | [] => []
  | c :: s' => if (c =? a)%N then b :: s' else c :: replaceFirst a b s'
  end.

(** The cue of an entry at position [i]: [a] is the separator replaced in
    the timestamps, [b] the one written. *)
Definition cue (a b : char) (entry : Entry) (i : nat) : jsstring :=
  let index :=
    if (index entry =? 0)%Z then Z.of_nat (i + 1) else index entry in
  showZ index
  ++ LF :: replaceFirst a b (startTime entry)
  ++ js " --> " ++ replaceFirst a b (endTime entry)
  ++ LF :: text entry.

Definition generateSRT (entries : list Entry) : jsstring :=
  join [LF; LF] (mapi_from (cue DOT COMMA) 0 entries).

Definition generateVTT (entries : list Entry) (header : jsstring) : jsstring :=
  header ++ [LF; LF] ++ join [LF; LF] (mapi_from (cue COMMA DOT) 0 entries).

Definition generateSubtitle (subtitle : ParsedSubtitle) : jsstring :=
  match format subtitle with
  | vtt => generateVTT (subtitleEntries subtitle) (header subtitle)
  | srt => generateSRT (subtitleEntries subtitle)
  end.

(** *** [parseVTT], [parseSubtitle] *)

(** The two alternatives of a VTT timestamp tried at the head of [s]: with
    hours, then without.  They differ at their sixth code unit, a colon or
    a period, so at most one of them matches. *)
Definition match_time_hours (s : jsstring) : option (jsstring * jsstring) :=
  match s with
  | h1 :: h2 :: c1 :: m1 :: m2 :: c2 :: s1 :: s2 :: p :: f1 :: f2 :: f3 :: rest =>
    if isDigit h1 && isDigit h2 && (c1 =? COLON)%N
       && isDigit m1 && isDigit m2 && (c2 =? COLON)%N
       && isDigit s1 && isDigit s2 && (p =? DOT)%N
       && isDigit f1 && isDigit f2 && isDigit f3
    then Some ([h1; h2; c1; m1; m2; c2; s1; s2; p; f1; f2; f3], rest)
    else None
  | _ => None
  end.

Definition match_time_minutes (s : jsstring) : option (jsstring * jsstring) :=
  match s with
  | m1 :: m2 :: c :: s1 :: s2 :: p :: f1 :: f2 :: f3 :: rest =>
    if isDigit m1 && isDigit m2 && (c =? COLON)%N
       && isDigit s1 && isDigit s2 && (p =? DOT)%N
       && isDigit f1 && isDigit f2 && isDigit f3
    then Some ([m1; m2; c; s1; s2; p; f1; f2; f3], rest)
    else None
  | _ => None
  end.

Definition match_time_vtt (s : jsstring) : option (jsstring * jsstring) :=
  match match_time_hours s with
  | Some groups => Some groups
  | None => match_time_minutes s
  end.

Definition match_stamp_vtt (s : jsstring) : option (jsstring * jsstring) :=
  match match_time_vtt s with
  | Some (t1, r1) =>
    match dropWhile isWhiteSpace r1 with
    | a :: b :: c :: r2 =>
      if (a =? DASH)%N && (b =? DASH)%N && (c =? GT)%N then
        match match_time_vtt (dropWhile isWhiteSpace r2) with
        | Some (t2, _) => Some (t1, t2)
        | None => None
        end
      else None
    | _ => None
    end
  | None => None
  end.

Fixpoint search_stamp_vtt (s : jsstring) : option (jsstring * jsstring) :=
  match match_stamp_vtt s with
  | Some groups => Some groups
  | None =>
    match s with
    | [] => None
    | _ :: s' => search_stamp_vtt s'
    end
  end.

(** The body of the loop over the parts: the entry the part gives when the
    cue counter is [cueIndex], or [None] when the loop goes on without
    one. *)
Definition parseVTT_block (part : jsstring) (cueIndex : nat) : option Entry :=
  let block := trim part in
  match block with
  | [] => None
  | _ :: _ =>
    let lines := splitLines block in
    let line0 := nth 0 lines [] in
    let hasId :=
      match line0 with
      | [] => false
      | _ :: _ => negb (includes line0 (js "-->"))
      end in
    let cueId := if hasId then Some (trim line0) else None in
    let timestampLineIndex := if hasId then 1 else 0 in
    if length lines <=? timestampLineIndex then None
    else
      match search_stamp_vtt (nth timestampLineIndex lines []) with
      | None => None
      | Some (startTime, endTime) =>
        let text := join [LF] (skipn (timestampLineIndex + 1) lines) in
        let index :=
          match truthy cueId with
          | Some id =>
            match parseInt id with
            | Some n => if (n =? 0)%Z then Z.of_nat cueIndex else n
            | None => Z.of_nat cueIndex
            end
          | None => Z.of_nat cueIndex
          end in
        Some (mkEntry index startTime endTime text)
      end
  end.

Fixpoint parseVTT_loop (parts : list jsstring) (cueIndex : nat)
  (entries : list Entry) : list Entry :=
  match parts with
  | [] => entries
  | part :: parts' =>
    match parseVTT_block part cueIndex with
    | Some entry => parseVTT_loop parts' (S cueIndex) (entries ++ [entry])
    | None => parseVTT_loop parts' cueIndex entries
    end
  end.

Definition parseVTT (content : jsstring) : ParsedSubtitle :=
  let parts := splitBlank (normalizedContent content) in
  let first := trim (nth 0 parts []) in
  let isHeader := startsWith (js "WEBVTT") first in
  let header := if isHeader then first else [] in
  let startIndex := if isHeader then 1 else 0 in
  mkParsedSubtitle vtt (orElse (Some header) (js "WEBVTT"))
    (parseVTT_loop (skipn startIndex parts) 1 []).

(** [parseSubtitle(content)] *)
Definition parseSubtitle (content : jsstring) : ParsedSubtitle :=
  match detectFormat content with
  | vtt => parseVTT content
  | srt => parseSRT content
  end.

(** The entry with its timestamps as [generateVTT] writes them. *)
Definition withPeriods (entry : Entry) : Entry :=
  mkEntry (index entry)
    (replaceFirst COMMA DOT (startTime entry))
    (replaceFirst COMMA DOT (endTime entry))
    (text entry).

(** A block to split at: no empty line in it, no line feed at its end. *)
Definition solid (b : jsstring) : Prop :=
  includes b [LF; LF] = false /\ (b = [] \/ last b 0%N <> LF).

(** A timestamp, and nothing but a timestamp. *)
Definition timeShape (t : jsstring) : bool :=
  match match_time t with
  | Some (_, []) => true
  | _ => false
  end.

(** A VTT timestamp, with or without hours, and nothing else. *)
Definition vttTimeShape (t : jsstring) : bool :=
  match match_time_vtt t with
  | Some (_, []) => true
  | _ => false
  end.

(** The entry with its timestamps as [generateSRT] writes them. *)
Definition withCommas (entry : Entry) : Entry :=
  mkEntry (index entry)
    (replaceFirst DOT COMMA (startTime entry))
    (replaceFirst DOT COMMA (endTime entry))
    (text entry).

(** An entry [generateSRT] writes as a block [parseSRT] reads back: a
    positive number below [2^53], timestamps in the shape the parser
    recognises, a text that is not empty, has no white space at its end, no
    carriage return, and no empty line in it or at its start. *)
Definition writable (entry : Entry) : Prop :=
  (1 <= index entry < 2 ^ 53)%Z /\
  timeShape (startTime entry) = true /\
  timeShape (endTime entry) = true /\
  text entry <> [] /\
  trimEnd (text entry) = text entry /\
  includes (LF :: text entry) [LF; LF] = false /\
  Forall (fun c => c <> CR) (text entry).

(** The file with every line feed written as carriage return, line feed. *)
Definition withCRLF (s : jsstring) : jsstring :=
  flat_map (fun c => if (c =? LF)%N then [CR; LF] else [c]) s.

(** The file with every line feed written as a carriage return. *)
Definition withCR (s : jsstring) : jsstring :=
  map (fun c => if (c =? LF)%N then CR else c) s.

(* ===================================================================== *)
(** ** Reading a run, continued *)
(* ===================================================================== *)

(** The requests of a trace, oldest first. *)
Fixpoint requests (t : list Event) : list Request :=
  match t with
  | [] => []
  | EvFetch req :: t' => req :: requests t'
  | _ :: t' => requests t'
  end.

(** The time spent in timers in a trace. *)
Fixpoint timerTotal (t : list Event) : Q :=
  match t with
  | [] => 0%Q
  | EvTimer ms :: t' => (ms + timerTotal t')%Q
  | _ :: t' => timerTotal t'
  end.

(** How a run of the loop of [translateAllBatches] ends when the outcome of
    translating a batch is [g] of the batch and of the rolling context,
    whenever it is tried, and the signal is never aborted. *)
Fixpoint outcomeOf (g : Batch -> list Entry -> Result Error (list Entry))
  (rest : list Batch) (all : list Entry) : Result Thrown (list Entry) :=
  match rest with
  | [] => Return all
  | batch :: rest' =>
    match g batch (rollingContext all) with
    | Return translated => outcomeOf g rest' (all ++ translated)
    | Throw e => Throw (Err e)
    end
  end.

(** What the retry controller may add to a trace while it works on request
    [req]: calls of the provider with that request, calls of [onWaiting],
    timers, and the notices [quiet] allows its callback. *)
Definition retryEvent (req : Request) (quiet : Notice -> Prop) (ev : Event)
  : Prop :=
  match ev with
  | EvFetch r => r = req
  | EvValidate _ => False
  | EvTimer _ => True
  | EvWaiting _ _ _ => True
  | EvNotice n => quiet n
  end.

(** The notices of [reportWaiting] for batch [i]: progress with no entry
    counted, and log entries. *)
Definition waitingNotice (i total : nat) (n : Notice) : Prop :=
  match n with
  | Progress completed t batchEntries _ =>
    completed = i /\ t = total /\ batchEntries = 0
  | Log _ _ => True
  | Checkpoint _ _ _ => False
  end.

(** What [translateAllBatches] adds to the trace before it translates
    batch [i]. *)
Definition batchStarted (i total : nat) (batch : Batch) : list Event :=
  map EvNotice
    [Progress i total (length (entries batch)) (StTranslating (i + 1) total);
     Log (LogSending (length (entries batch))) (Some (i + 1))].

(** What it adds once batch [i] is translated: the log entry, the
    checkpoint, the progress and, unless the batch is the last, the notice
    and the timer of the delay between batches. *)
Definition batchDone (i total : nat) (batch : Batch)
  (all translated : list Entry) : list Event :=
  map EvNotice
    [Log (LogReceived (length translated)) (Some (i + 1));
     Checkpoint (i + 1) (all ++ translated) false;
     Progress (i + 1) total (length (entries batch)) (StCompleted (i + 1) total)]
  ++ (if i <? total - 1
      then [EvNotice (Progress (i + 1) total 0 StWaitingNext);
            EvTimer BATCH_DELAY]
      else []).

(** What a run of the loop of [translateAllBatches] adds to the trace and
    how it ends, from batch [i] with [rest] to go and [all] translated so
    far: it returns when no batch is left; it is cancelled at the head of
    the loop; the retry controller throws and the failure is checkpointed;
    or the batch is translated by some call of the provider and the run goes
    on with the next. *)
Inductive RunTrace (env : Env) (targetLang : jsstring) (total : nat)
  : nat -> list Batch -> list Entry -> list Event
    -> Result Thrown (list Entry) -> Prop :=
| run_returns : forall i all,
    RunTrace env targetLang total i [] all [] (Return all)
| run_cancelled : forall i batch rest all,
    RunTrace env targetLang total i (batch :: rest) all []
      (Throw (Err cancelled))
| run_fails : forall i batch rest all d thrown,
    Forall (retryEvent (mkRequest batch targetLang (rollingContext all))
              (waitingNotice i total)) d ->
    fetches d <= 6 ->
    RunTrace env targetLang total i (batch :: rest) all
      (batchStarted i total batch ++ d ++ [EvNotice (Checkpoint i all true)])
      (Throw thrown)
| run_continues : forall i batch rest all d k translated delta outcome,
    Forall (retryEvent (mkRequest batch targetLang (rollingContext all))
              (waitingNotice i total)) d ->
    fetches d <= 6 ->
    translateBatch_result env k batch targetLang (rollingContext all)
    = Return translated ->
    RunTrace env targetLang total (S i) rest (all ++ translated) delta outcome ->
    RunTrace env targetLang total i (batch :: rest) all
      (batchStarted i total batch ++ d
       ++ batchDone i total batch all translated ++ delta)
      outcome.

(** What [translateAllBatches] adds to the trace before its loop: the log
    entry of a resumed run. *)
Definition resumeLogged (startFromBatch : nat) (existingEntries : list Entry)
  : list Event :=
  if 0 <? startFromBatch
  then [EvNotice (Log (LogResuming (startFromBatch + 1)
                         (length existingEntries)) None)]
  else [].

(** The checkpoints of a trace by what they report: the number of completed
    batches and whether the run failed. *)
Definition marks (t : list Event) : list (nat * bool) :=
  map (fun c => (fst (fst c), snd c)) (checkpoints t).

(** The longest the retry controller can spend in its timers from attempt
    [attempt] on, in milliseconds, counted from attempt 0: the backoffs
    [15000 * 2^a] of the attempts before, and 2000 of jitter for each. *)
Definition backoffBudget (attempt : nat) : Q :=
  (15000 * (inject_Z (2 ^ Z.of_nat attempt) - 1)
   + 2000 * inject_Z (Z.of_nat attempt))%Q.

(** The progress notices of a trace: completed and total batches. *)
Fixpoint progressReports (t : list Event) : list (nat * nat) :=
  match t with
  | [] => []
  | EvNotice (Progress completed total _ _) :: t' =>
    (completed, total) :: progressReports t'
  | _ :: t' => progressReports t'
  end.

(** The text the reconciler takes from a block that is not blank. *)
Definition blockText (block : jsstring) : jsstring :=
  match match_index block with
  | Some rest => trim rest
  | None => block
  end.

(* ===================================================================== *)
(** ** Theorems: the reconciler *)
(* ===================================================================== *)

Section Reconciler.

Variable originalEntries : list Entry.

Lemma parse_blocks_length_le : forall blocks i translated,
  length translated <= i ->
  length translated <= length originalEntries ->
  length (parse_blocks originalEntries i blocks translated)
  <= Nat.min (i + length blocks) (length originalEntries).
Proof.
  induction blocks as [|b blocks IH]; intros i translated Hi Hn;
    cbn [parse_blocks length].
  - lia.
  - destruct (nth_error originalEntries i) as [original|] eqn:Hnth.
    + assert (i < length originalEntries)
        by (apply nth_error_Some; congruence).
      destruct (trim b).
      * specialize (IH (S i) translated). lia.
      * match goal with |- length (parse_blocks _ _ _ ?t) <= _ =>
          specialize (IH (S i) t) end.
        rewrite length_app in IH. cbn [length] in IH. lia.
    + apply nth_error_None in Hnth. lia.
Qed.

Lemma copy_entry : forall e : Entry,
  mkEntry (index e) (startTime e) (endTime e) (text e) = e.
Proof. now destruct e. Qed.

(** With fuel for every missing entry, the padding loop appends the
    originals from position [translated.length] on. *)
Lemma pad_loop_skipn : forall fuel translated,
  length originalEntries - length translated <= fuel ->
  pad_loop fuel originalEntries translated
  = translated ++ skipn (length translated) originalEntries.
Proof.
  induction fuel as [|fuel IH]; intros translated Hfuel; simpl.
  - rewrite skipn_all2 by lia. now rewrite app_nil_r.
  - destruct (nth_error originalEntries (length translated)) as [o|] eqn:Hnth.
    + assert (Hlt : length translated < length originalEntries)
        by (apply nth_error_Some; congruence).
      rewrite IH by (rewrite length_app; simpl; lia).
      rewrite copy_entry, length_app, <- app_assoc. simpl.
      f_equal.
      rewrite Nat.add_1_r.
      clear - Hnth. revert Hnth.
      generalize (length translated) as k. generalize originalEntries as l.
      induction l as [|x l IHl]; intros [|k] H; simpl in *; try discriminate.
      * now inversion H.
      * now apply IHl.
    + apply nth_error_None in Hnth.
      rewrite skipn_all2 by lia. now rewrite app_nil_r.
Qed.

Lemma parseAPIResponse_unfold : forall response,
  let translated := parse_blocks originalEntries 0 (split response) [] in
  parseAPIResponse response originalEntries
  = translated ++ skipn (length translated) originalEntries.
Proof.
  intros response translated. unfold parseAPIResponse.
  apply pad_loop_skipn. lia.
Qed.

(** The reconciler returns as many entries as it was given originals,
    whatever the reply. *)
Lemma parseAPIResponse_length : forall response,
  length (parseAPIResponse response originalEntries) = length originalEntries.
Proof.
  intros response. rewrite parseAPIResponse_unfold.
  pose proof (@parse_blocks_length_le (split response) 0 []) as H.
  simpl in H. specialize (H (Nat.le_refl 0) (Nat.le_0_l _)).
  rewrite length_app, length_skipn. lia.
Qed.

End Reconciler.

Lemma firstn_S_nth_error : forall (A : Type) (l : list A) i x,
  nth_error l i = Some x -> firstn (S i) l = firstn i l ++ [x].
Proof.
  induction l as [|y l IH]; intros [|i] x H; try discriminate.
  - inversion H. reflexivity.
  - cbn [firstn app]. f_equal. apply IH, H.
Qed.

(** While no block is blank, the loop over the blocks keeps the entries it
    pushes in step with the originals. *)
Lemma parse_blocks_aligned : forall originalEntries blocks i translated,
  length translated = i ->
  Forall (fun b => trim b <> []) (firstn (length originalEntries - i) blocks) ->
  map identity translated = map identity (firstn i originalEntries) ->
  map identity (parse_blocks originalEntries i blocks translated)
  = map identity (firstn (i + length blocks) originalEntries).
Proof.
  intros originalEntries.
  induction blocks as [|b blocks IH]; intros i translated Hlen Hfull Hsame;
    cbn [parse_blocks length].
  - now rewrite Nat.add_0_r.
  - destruct (nth_error originalEntries i) as [original|] eqn:Hnth.
    + assert (Hi : i < length originalEntries)
        by (apply nth_error_Some; congruence).
      destruct (length originalEntries - i) as [|k] eqn:Hk; [lia|].
      cbn [firstn] in Hfull. inversion Hfull as [|? ? Hb Hrest]; subst.
      destruct (trim b) as [|c t] eqn:Htrim; [now elim Hb|].
      rewrite IH.
      * f_equal. f_equal. lia.
      * rewrite length_app. cbn [length]. lia.
      * replace (length originalEntries - S (length translated)) with k by lia.
        exact Hrest.
      * rewrite map_app, Hsame, (firstn_S_nth_error _ _ Hnth), map_app.
        reflexivity.
    + apply nth_error_None in Hnth.
      rewrite Hsame, !firstn_all2 by lia. reflexivity.
Qed.

(** The positions do match the originals for a reply none of whose blocks
    is blank. *)
Lemma parseAPIResponse_aligned : forall response originalEntries,
  Forall (fun b => trim b <> [])
    (firstn (length originalEntries) (split response)) ->
  map identity (parseAPIResponse response originalEntries)
  = map identity originalEntries.
Proof.
  intros response originalEntries Hfull.
  rewrite parseAPIResponse_unfold.
  pose proof (@parse_blocks_aligned originalEntries (split response) 0 []
                eq_refl) as Hal.
  rewrite Nat.sub_0_r in Hal. specialize (Hal Hfull eq_refl).
  cbn [Nat.add] in Hal.
  set (translated := parse_blocks originalEntries 0 (split response) []) in *.
  set (k := length (split response)) in *.
  assert (Hlen : length translated = length (firstn k originalEntries)).
  { rewrite <- (length_map identity), Hal. apply length_map. }
  rewrite map_app, Hal, Hlen, <- map_app.
  rewrite length_firstn.
  destruct (Nat.le_gt_cases k (length originalEntries)) as [Hle|Hgt].
  - rewrite Nat.min_l by lia. now rewrite firstn_skipn.
  - rewrite Nat.min_r by lia.
    rewrite firstn_all2, skipn_all2 by lia. now rewrite app_nil_r.
Qed.

(** The reply the prompt asks for: one numbered block per entry. *)
Example parseAPIResponse_round_trip :
  parseAPIResponse
    (join (js (Sample.nl ++ "---" ++ Sample.nl))
       [js ("[1]" ++ Sample.nl ++ "A"); js ("[2]" ++ Sample.nl ++ "B")])
    [Sample.e1; Sample.e2]
  = [mkEntry 1 (js "00:00:01,000") (js "00:00:02,000") (js "A");
     mkEntry 2 (js "00:00:03,000") (js "00:00:04,000") (js "B")].
Proof. reflexivity. Qed.

(** C1 (the code departs from the claim).  The claim: for every reply and
    every sequence of originals the reconciler returns as many entries as
    there are originals, the i-th carrying the index and the times of the
    i-th original.  The count holds ([parseAPIResponse_length]), and so do
    the positions when no block is blank ([parseAPIResponse_aligned]); in
    general the positions do not.  A blank block is skipped without an entry being
    pushed, so the block after it is paired with its own original but stored
    one position early, and the padding loop then copies that original
    again: on a reply with a blank first block and two originals, both
    returned entries carry the index and the times of the second original
    and the first original is gone. *)
Theorem parseAPIResponse_blank_block_shifts :
  split Sample.blankFirst = [[]; js "Salut"] /\
  parseAPIResponse Sample.blankFirst [Sample.e1; Sample.e2]
  = [mkEntry 2 (js "00:00:03,000") (js "00:00:04,000") (js "Salut");
     Sample.e2] /\
  option_map index
    (nth_error (parseAPIResponse Sample.blankFirst [Sample.e1; Sample.e2]) 0)
  <> option_map index (nth_error [Sample.e1; Sample.e2] 0).
Proof.
  split; [reflexivity|]. split; [reflexivity|].
  vm_compute. discriminate.
Qed.

(** What the padding does guarantee.  When the reply splits into fewer
    blocks than there are originals, the result still has one entry per
    original and, from the position of the first missing block on, each
    entry is the original itself, text included.  The empty reply gives back
    the originals unchanged. *)
Lemma parseAPIResponse_pads_with_originals :
  (forall response originalEntries,
     length (split response) < length originalEntries ->
     length (parseAPIResponse response originalEntries)
     = length originalEntries /\
     forall j, length (split response) <= j ->
       nth_error (parseAPIResponse response originalEntries) j
       = nth_error originalEntries j) /\
  (forall a b : Entry, parseAPIResponse [] [a; b] = [a; b]).
Proof.
  split.
  - intros response originalEntries Hfew. split.
    + apply parseAPIResponse_length.
    + intros j Hj. rewrite parseAPIResponse_unfold.
      pose proof (@parse_blocks_length_le originalEntries (split response) 0 [])
        as Hle.
      cbn [length] in Hle. specialize (Hle (Nat.le_refl 0) (Nat.le_0_l _)).
      rewrite nth_error_app2 by lia.
      rewrite nth_error_skipn. f_equal. lia.
  - intros a b. rewrite parseAPIResponse_unfold.
    unfold split. cbn [length split_loop rev app parse_blocks nth_error trim
                       dropWhile skipn].
    reflexivity.
Qed.

(** C7 (the code departs from the claim).  The claim: when the reply
    splits into fewer segments than there are originals, the remainder is
    padded with the corresponding originals, so that no entry is lost.  The
    count holds and so does the padding from the position of the first
    missing block on ([parseAPIResponse_pads_with_originals]), and the empty
    reply gives back the originals.  But the padding loop starts at the
    number of entries pushed so far, which is not the number of blocks read
    once a blank block has been skipped: on a reply of two segments, the
    first blank, against three originals, the loop copies the second and the
    third original after the translation of the second, and the first
    original is lost. *)
Theorem parseAPIResponse_padding_loses_an_entry :
  let originals := [Sample.e1; Sample.e2; Sample.e3] in
  let result := parseAPIResponse Sample.blankFirst originals in
  length (split Sample.blankFirst) = 2 /\
  length (split Sample.blankFirst) < length originals /\
  result
  = [mkEntry 2 (js "00:00:03,000") (js "00:00:04,000") (js "Salut");
     Sample.e2; Sample.e3] /\
  map index result = [2; 2; 3]%Z /\
  ~ In (identity Sample.e1) (map identity result) /\
  parseAPIResponse [] [Sample.e1; Sample.e2] = [Sample.e1; Sample.e2].
Proof.
  cbv zeta.
  split; [reflexivity|]. split; [vm_compute; lia|].
  split; [reflexivity|]. split; [reflexivity|].
  split; [|reflexivity].
  vm_compute. intros [H|[H|[H|[]]]]; discriminate.
Qed.

(** *** The split loop does not depend on its fuel *)

Lemma dashes_length : forall s n rest,
  dashes s = (n, rest) -> length s = n + length rest.
Proof.
  induction s as [|c s IH]; intros n rest H; simpl in H.
  - inversion H. reflexivity.
  - destruct (c =? DASH)%N.
    + destruct (dashes s) as [m r] eqn:E. inversion H; subst.
      simpl. now rewrite (IH _ _ eq_refl).
    + inversion H. reflexivity.
Qed.

Lemma match_sep_shorter : forall s rest,
  match_sep s = Some rest -> length rest < length s.
Proof.
  intros s rest. unfold match_sep.
  destruct (match_sep_exact s) as [r|] eqn:E1.
  - intros H; inversion H; subst. unfold match_sep_exact in E1.
    do 5 (destruct s as [|? s]; try discriminate).
    destruct (_ && _); inversion E1; subst. simpl. lia.
  - unfold match_sep_run. destruct s as [|c0 s1]; try discriminate.
    destruct (c0 =? LF)%N; try discriminate.
    destruct (dashes s1) as [n after] eqn:E.
    destruct (3 <=? n); try discriminate.
    destruct after as [|c r]; try discriminate.
    destruct (c =? LF)%N; try discriminate.
    intros H; inversion H; subst.
    apply dashes_length in E. simpl in *. lia.
Qed.

Lemma split_loop_fuel : forall fuel fuel' cur s,
  length s <= fuel -> length s <= fuel' ->
  split_loop fuel cur s = split_loop fuel' cur s.
Proof.
  induction fuel as [|fuel IH]; intros fuel' cur s H H'.
  - destruct s; [|simpl in H; lia]. destruct fuel'; simpl; now rewrite ?app_nil_r.
  - destruct fuel' as [|fuel'].
    + destruct s; [|simpl in H'; lia]. simpl; now rewrite ?app_nil_r.
    + cbn [split_loop]. destruct s as [|c s']; [reflexivity|].
      destruct (match_sep (c :: s')) as [rest|] eqn:E.
      * apply match_sep_shorter in E. f_equal. apply IH; simpl in *; lia.
      * apply IH; simpl in *; lia.
Qed.

(* ===================================================================== *)
(** ** Theorems: the segmenter *)
(* ===================================================================== *)

Section Segmenter.

Variable all : list Entry.
Variable size : nat.
Hypothesis size_pos : 1 <= size.

Lemma ceil_div_step : forall c,
  c < length all ->
  ceil_div (length all - c) size
  = S (ceil_div (length all - Nat.min (c + size) (length all)) size).
Proof.
  intros c Hc. unfold ceil_div.
  destruct (Nat.le_gt_cases (c + size) (length all)) as [Hle|Hgt].
  - rewrite Nat.min_l by lia.
    replace (length all - c + size - 1)
      with (length all - (c + size) + size - 1 + 1 * size) by lia.
    rewrite Nat.div_add by lia. lia.
  - rewrite Nat.min_r by lia.
    replace (length all - length all + size - 1) with (size - 1) by lia.
    rewrite (Nat.div_small (size - 1)) by lia.
    symmetry. apply Nat.div_unique with (r := length all - c - 1); lia.
Qed.

Lemma ceil_div_0 : ceil_div 0 size = 0.
Proof. unfold ceil_div. apply Nat.div_small. lia. Qed.

(** The loop, started at [currentIndex] with batch number [batchIndex],
    appends exactly the batches the specification describes. *)
Lemma createBatches_loop_spec : forall fuel c i0 batches,
  c <= length all ->
  length all - c <= fuel ->
  createBatches_loop fuel all size c i0 batches
  = batches ++ map (batch_at all size c i0)
                 (seq 0 (ceil_div (length all - c) size)).
Proof.
  induction fuel as [|fuel IH]; intros c i0 batches Hc Hfuel;
    cbn [createBatches_loop].
  - replace (length all - c) with 0 by lia.
    rewrite ceil_div_0. simpl. now rewrite app_nil_r.
  - destruct (c <? length all) eqn:Hlt.
    + apply Nat.ltb_lt in Hlt.
      rewrite IH by lia.
      rewrite (ceil_div_step Hlt).
      cbn [seq map]. rewrite <- app_assoc. f_equal. cbn [app].
      f_equal.
      * unfold batch_at. rewrite Nat.max_0_l.
        replace (c + 0 * size) with c by lia.
        replace (c + (0 + 1) * size) with (c + size) by lia.
        now rewrite Nat.add_0_r.
      * rewrite <- seq_shift, map_map.
        destruct (Nat.le_gt_cases (length all) (c + size)) as [Hge|Hlt'].
        -- rewrite Nat.min_r by lia. rewrite Nat.sub_diag, ceil_div_0.
           reflexivity.
        -- rewrite Nat.min_l by lia.
           apply map_ext. intros k. unfold batch_at.
           replace (c + size + k * size) with (c + S k * size) by lia.
           replace (c + size + (k + 1) * size) with (c + (S k + 1) * size) by lia.
           replace (S i0 + k) with (i0 + S k) by lia.
           reflexivity.
    + apply Nat.ltb_ge in Hlt.
      replace (length all - c) with 0 by lia.
      rewrite ceil_div_0. simpl. now rewrite app_nil_r.
Qed.

(** The entries of the batches the loop appends are the entries from
    [currentIndex] on, in order. *)
Lemma createBatches_loop_concat : forall fuel c i0 batches,
  length all - c <= fuel ->
  concat (map entries (createBatches_loop fuel all size c i0 batches))
  = concat (map entries batches) ++ skipn c all.
Proof.
  induction fuel as [|fuel IH]; intros c i0 batches Hfuel;
    cbn [createBatches_loop].
  - rewrite skipn_all2 by lia. now rewrite app_nil_r.
  - destruct (c <? length all) eqn:Hlt.
    + apply Nat.ltb_lt in Hlt.
      rewrite IH by lia.
      rewrite map_app, concat_app. cbn [map concat entries].
      rewrite app_nil_r, <- app_assoc. f_equal.
      unfold slice.
      rewrite <- (firstn_skipn (Nat.min (c + size) (length all) - c) (skipn c all))
        at 2.
      f_equal. rewrite skipn_skipn. f_equal. lia.
    + apply Nat.ltb_ge in Hlt.
      rewrite skipn_all2 by lia. now rewrite app_nil_r.
Qed.

End Segmenter.

Lemma actualBatchSize_clamp : forall batchSize,
  10 <= actualBatchSize batchSize <= 100 /\
  Z.of_nat (actualBatchSize batchSize)
  = (if batchSize <? 10 then 10 else if 100 <? batchSize then 100 else batchSize)%Z.
Proof.
  intros batchSize. unfold actualBatchSize.
  destruct (Z.ltb_spec batchSize 10); [|destruct (Z.ltb_spec 100 batchSize)];
    split; lia.
Qed.

(** C4.  For every entry sequence and every batch size, [createBatches]
    clamps the size to [[10, 100]] and returns the batches the specification
    describes: [ceil(N / B)] of them, the i-th numbered [i] and holding the
    entries of positions [[i*B, min((i+1)*B, N))], so that the batches put
    end to end are the input; the empty input gives no batch.  The function
    is pure, hence deterministic. *)
Theorem createBatches_partition : forall (all : list Entry) (batchSize : Z),
  let B := actualBatchSize batchSize in
  let N := length all in
  (10 <= B <= 100 /\
   Z.of_nat B
   = (if batchSize <? 10 then 10 else if 100 <? batchSize then 100 else batchSize)%Z) /\
  createBatches all batchSize = segment all batchSize /\
  length (createBatches all batchSize) = ceil_div N B /\
  (forall i b, nth_error (createBatches all batchSize) i = Some b ->
     bindex b = i /\
     startIndex b = i * B /\
     endIndex b = Nat.min ((i + 1) * B) N /\
     startIndex b < endIndex b /\
     entries b = slice all (i * B) (Nat.min ((i + 1) * B) N)) /\
  concat (map entries (createBatches all batchSize)) = all /\
  (all = [] -> createBatches all batchSize = []).
Proof.
  intros all batchSize B N.
  pose proof (actualBatchSize_clamp batchSize) as Hclamp.
  assert (HB : 1 <= B) by (subst B; lia).
  assert (Hseg : createBatches all batchSize = segment all batchSize).
  { unfold createBatches, segment. fold B. fold N.
    destruct (N =? 0) eqn:HN.
    - apply Nat.eqb_eq in HN.
      replace (ceil_div N B) with 0; [reflexivity|].
      replace N with 0. symmetry. apply (ceil_div_0 HB).
    - subst N. rewrite (createBatches_loop_spec all HB) by lia.
      now rewrite Nat.sub_0_r. }
  split; [exact Hclamp|]. split; [exact Hseg|].
  split; [|split; [|split]].
  - rewrite Hseg. unfold segment. now rewrite length_map, length_seq.
  - intros i b Hnth. rewrite Hseg in Hnth. unfold segment in Hnth. fold B in Hnth.
    rewrite nth_error_map in Hnth.
    destruct (nth_error (seq 0 (ceil_div (length all) B)) i) as [k|] eqn:Hk;
      [|discriminate].
    assert (Hi : i < ceil_div (length all) B).
    { rewrite <- (length_seq (ceil_div (length all) B) 0).
      apply nth_error_Some. congruence. }
    rewrite nth_error_seq in Hk.
    destruct (i <? ceil_div (length all) B); inversion Hk; subst k.
    inversion Hnth; subst b. unfold batch_at. cbn.
    fold N. repeat split; try reflexivity.
    assert (i * B < N).
    { unfold ceil_div in Hi. fold N in Hi.
      destruct (Nat.le_gt_cases N (i * B)) as [Hge|]; [|assumption].
      exfalso.
      assert ((N + B - 1) / B < i + 1).
      { apply Nat.Div0.div_lt_upper_bound. nia. }
      lia. }
    nia.
  - unfold createBatches. fold N.
    destruct (N =? 0) eqn:HN.
    + apply Nat.eqb_eq in HN. subst N.
      destruct all; [reflexivity|discriminate].
    + rewrite (createBatches_loop_concat all HB) by lia. reflexivity.
  - intros ->. reflexivity.
Qed.

Lemma createBatches_partition_witness :
  length (createBatches (repeat Sample.e1 25) 3) = 3 /\
  concat (map entries (createBatches (repeat Sample.e1 25) 3))
  = repeat Sample.e1 25 /\
  (forall b, nth_error (createBatches (repeat Sample.e1 25) 3) 2 = Some b ->
     startIndex b = 20 /\ endIndex b = 25).
Proof.
  destruct (createBatches_partition (repeat Sample.e1 25) 3)
    as (_ & _ & Hlen & Hnth & Hcat & _).
  split; [exact Hlen|]. split; [exact Hcat|].
  intros b Hb. destruct (Hnth 2 b Hb) as (_ & Hs & He & _).
  split; [exact Hs|exact He].
Defined.

(* ===================================================================== *)
(** ** Theorems: the retry controller *)
(* ===================================================================== *)

Lemma fetches_app : forall t t', fetches (t ++ t') = fetches t + fetches t'.
Proof. intros. unfold fetches. now rewrite filter_app, length_app. Qed.

Lemma waitings_app : forall t t', waitings (t ++ t') = waitings t + waitings t'.
Proof. intros. unfold waitings. now rewrite filter_app, length_app. Qed.

Lemma fetches_notices : forall ns, fetches (map EvNotice ns) = 0.
Proof. induction ns; [reflexivity|assumption]. Qed.

Lemma waitings_notices : forall ns, waitings (map EvNotice ns) = 0.
Proof. induction ns; [reflexivity|assumption]. Qed.

Lemma fetches_cons_other : forall ev t,
  isFetch ev = false -> fetches (ev :: t) = fetches t.
Proof. intros ev t H. unfold fetches. cbn [filter]. now rewrite H. Qed.

Lemma waitings_cons_waiting : forall ev t,
  isWaiting ev = true -> waitings (ev :: t) = S (waitings t).
Proof. intros ev t H. unfold waitings. cbn [filter]. now rewrite H. Qed.

Lemma checkpoints_app : forall t t',
  checkpoints (t ++ t') = checkpoints t ++ checkpoints t'.
Proof.
  induction t as [|ev t IH]; intros t'; [reflexivity|].
  destruct ev as [| | | |[]]; cbn [app checkpoints]; rewrite IH; reflexivity.
Qed.

Section RetryController.

Variable env : Env.
Variable batch : Batch.
Variable targetLang : jsstring.
Variable translatedContext : list Entry.
Variable maxRetries : nat.
Variable onWaiting : option (Z -> nat -> nat -> list Notice).

Local Abbreviation req := (mkRequest batch targetLang translatedContext).
Local Abbreviation loop :=
  (retry_loop env batch targetLang translatedContext maxRetries onWaiting).
Local Abbreviation result k :=
  (translateBatch_result env k batch targetLang translatedContext).

(** One iteration of the loop, by cases. *)
Lemma retry_loop_step : forall n attempt lastError w,
  loop (S n) attempt lastError w
  = if aborted env w then (Throw (Err cancelled), w)
    else
      match result (calls w) with
      | Return translatedEntries =>
        (Return translatedEntries, after_fetch env req w)
      | Throw error =>
        if isRetryable error then
          loop n (S attempt) (Some error)
            (if attempt <? maxRetries
             then after_backoff env maxRetries onWaiting attempt
                    (after_fetch env req w)
             else after_fetch env req w)
        else (Throw (Err error), after_fetch env req w)
      end.
Proof.
  intros n attempt lastError w. cbn [retry_loop].
  unfold bind at 1. unfold checkAbort at 1.
  destruct (aborted env w); [reflexivity|].
  unfold tryCatch, translateBatch, translateBatch_result, bind, callGeminiAPI.
  fold (after_fetch env req w).
  destruct (callGeminiAPI_result (provider env (calls w) req)) as [[raw|]|e].
  - reflexivity.
  - unfold throw. destruct (isRetryable (undefinedSplit env)); cbn [negb].
    + destruct (attempt <? maxRetries); [|reflexivity].
      unfold mathRandom, delay, emit, ret.
      destruct onWaiting; reflexivity.
    + reflexivity.
  - destruct (isRetryable e); cbn [negb].
    + destruct (attempt <? maxRetries); [|reflexivity].
      unfold mathRandom, delay, emit, ret.
      destruct onWaiting; reflexivity.
    + reflexivity.
Qed.

Lemma retry_loop_0 : forall attempt lastError w,
  loop 0 attempt lastError w
  = (Throw (match lastError with Some e => Err e | None => Undefined end), w).
Proof. reflexivity. Qed.

Lemma fetches_after_fetch : forall r w,
  fetches (trace (after_fetch env r w)) = S (fetches (trace w)).
Proof. intros r w. cbn [after_fetch trace]. rewrite fetches_app. cbn. lia. Qed.

Lemma waitings_after_fetch : forall r w,
  waitings (trace (after_fetch env r w)) = waitings (trace w).
Proof. intros r w. cbn [after_fetch trace]. rewrite waitings_app. cbn. lia. Qed.

Lemma fetches_after_backoff : forall attempt w,
  fetches (trace (after_backoff env maxRetries onWaiting attempt w))
  = fetches (trace w).
Proof.
  intros attempt w. cbn [after_backoff trace].
  destruct onWaiting as [callback|]; rewrite !fetches_app.
  - rewrite (fetches_cons_other (EvWaiting _ _ _)) by reflexivity.
    rewrite fetches_notices. cbn. lia.
  - cbn. lia.
Qed.

Lemma waitings_after_backoff : forall attempt w,
  waitings (trace (after_backoff env maxRetries onWaiting attempt w))
  = waitings (trace w) + match onWaiting with Some _ => 1 | None => 0 end.
Proof.
  intros attempt w. cbn [after_backoff trace].
  destruct onWaiting as [callback|]; rewrite !waitings_app.
  - rewrite (waitings_cons_waiting (EvWaiting _ _ _)) by reflexivity.
    rewrite waitings_notices. cbn. lia.
  - cbn. lia.
Qed.

Lemma retry_loop_fetch_bound : forall n attempt lastError w,
  fetches (trace (snd (loop n attempt lastError w))) <= fetches (trace w) + n.
Proof.
  induction n as [|n IH]; intros attempt lastError w.
  - rewrite retry_loop_0. cbn [snd]. lia.
  - rewrite retry_loop_step.
    destruct (aborted env w); [cbn [snd]; lia|].
    destruct (result (calls w)) as [v|e].
    + cbn [snd]. rewrite fetches_after_fetch. lia.
    + destruct (isRetryable e).
      * match goal with |- context [loop n _ _ ?w'] =>
          specialize (IH (S attempt) (Some e) w');
          assert (fetches (trace w') = S (fetches (trace w))) as Hw'
        end.
        { destruct (attempt <? maxRetries);
            rewrite ?fetches_after_backoff; apply fetches_after_fetch. }
        lia.
      * cbn [snd]. rewrite fetches_after_fetch. lia.
Qed.



Lemma translateBatch_result_length : forall k v,
  result k = Return v -> length v = length (entries batch).
Proof.
  intros k v. unfold translateBatch_result.
  destruct (callGeminiAPI_result _) as [[raw|]|e]; try discriminate.
  intros H. inversion H. apply parseAPIResponse_length.
Qed.

(** What the loop adds to the trace holds no checkpoint, provided the
    [onWaiting] callback emits none, and a value it returns has one entry
    per entry of the batch. *)
Lemma retry_loop_trace : forall n attempt lastError w,
  (forall callback seconds a m,
     onWaiting = Some callback ->
     checkpoints (map EvNotice (callback seconds a m)) = []) ->
  exists delta,
    trace (snd (loop n attempt lastError w)) = trace w ++ delta /\
    checkpoints delta = [] /\
    forall v, fst (loop n attempt lastError w) = Return v ->
              length v = length (entries batch).
Proof.
  intros n attempt lastError w Hquiet. revert attempt lastError w.
  induction n as [|n IH]; intros attempt lastError w.
  - rewrite retry_loop_0. exists []. cbn [fst snd].
    rewrite app_nil_r. repeat split. discriminate.
  - rewrite retry_loop_step.
    destruct (aborted env w).
    { exists []. cbn [fst snd]. rewrite app_nil_r. repeat split. discriminate. }
    destruct (result (calls w)) as [v|e] eqn:Hres.
    { exists [EvFetch req]. cbn [fst snd]. repeat split.
      intros v' Hv'. inversion Hv'; subst v'.
      eapply translateBatch_result_length; eassumption. }
    destruct (isRetryable e).
    + match goal with |- context [loop n _ _ ?w'] => set (w1 := w') end.
      assert (Hw1 : exists d, trace w1 = trace w ++ d /\ checkpoints d = []).
      { subst w1. destruct (attempt <? maxRetries).
        - cbn [after_backoff after_fetch trace].
          destruct onWaiting as [callback|] eqn:Hcb.
          + eexists. rewrite <- !app_assoc. split; [reflexivity|].
            cbn [app checkpoints]. rewrite checkpoints_app.
            rewrite (Hquiet callback); reflexivity.
          + eexists. rewrite <- !app_assoc. split; reflexivity.
        - eexists. split; reflexivity. }
      destruct Hw1 as (d1 & Hd1 & Hc1).
      destruct (IH (S attempt) (Some e) w1) as (d2 & Hd2 & Hc2 & Hlen).
      exists (d1 ++ d2). rewrite Hd2, Hd1, <- app_assoc.
      split; [reflexivity|]. split; [|exact Hlen].
      rewrite checkpoints_app, Hc1, Hc2. reflexivity.
    + exists [EvFetch req]. cbn [fst snd]. repeat split. discriminate.
Qed.

Hypothesis never_aborted : abortAt env = None.

Lemma aborted_never : forall w, aborted env w = false.
Proof. intros w. unfold aborted. now rewrite never_aborted. Qed.

(** When every call fails with a retryable error, the loop runs all its
    iterations and throws the error of the last one. *)
Lemma retry_loop_exhausts : forall n attempt lastError w,
  attempt + n = S maxRetries ->
  (forall k, k < n ->
     exists e, result (calls w + k) = Throw e /\ isRetryable e = true) ->
  let run := loop n attempt lastError w in
  calls (snd run) = calls w + n /\
  fetches (trace (snd run)) = fetches (trace w) + n /\
  waitings (trace (snd run))
  = waitings (trace w)
    + match onWaiting with Some _ => maxRetries - attempt | None => 0 end /\
  (forall m, n = S m ->
     exists e, result (calls w + m) = Throw e /\ fst run = Throw (Err e)) /\
  (n = 0 ->
   run = (Throw (match lastError with Some e => Err e | None => Undefined end), w)).
Proof.
  induction n as [|n IH]; intros attempt lastError w Hn Hfail run; subst run.
  - rewrite retry_loop_0. cbn [fst snd].
    replace (maxRetries - attempt) with 0 by lia.
    repeat split; try lia; try (destruct onWaiting; lia); discriminate.
  - rewrite retry_loop_step, aborted_never.
    destruct (Hfail 0 ltac:(lia)) as [e [He Hretry]].
    rewrite Nat.add_0_r in He. rewrite He, Hretry.
    match goal with |- context [loop n _ _ ?w'] => set (w1 := w') end.
    assert (Hcalls : calls w1 = S (calls w)).
    { subst w1. destruct (attempt <? maxRetries); reflexivity. }
    assert (Hfetch : fetches (trace w1) = S (fetches (trace w))).
    { subst w1. destruct (attempt <? maxRetries);
        rewrite ?fetches_after_backoff; apply fetches_after_fetch. }
    assert (Hwait : waitings (trace w1)
                    = waitings (trace w)
                      + match onWaiting with
                        | Some _ => if attempt <? maxRetries then 1 else 0
                        | None => 0
                        end).
    { subst w1. destruct (attempt <? maxRetries).
      - rewrite waitings_after_backoff, waitings_after_fetch.
        destruct onWaiting; reflexivity.
      - rewrite waitings_after_fetch. destruct onWaiting; lia. }
    destruct (IH (S attempt) (Some e) w1 ltac:(lia)) as (Hc & Hf & Hw & Hlast & Hzero).
    { intros k Hk. rewrite Hcalls.
      replace (S (calls w) + k) with (calls w + S k) by lia.
      apply Hfail. lia. }
    repeat split.
    + lia.
    + lia.
    + rewrite Hw, Hwait. destruct onWaiting; [|lia].
      destruct (Nat.ltb_spec attempt maxRetries); lia.
    + intros m Hm. inversion Hm; subst m. destruct n as [|n'].
      * rewrite (Hzero eq_refl). cbn [fst]. exists e.
        rewrite Nat.add_0_r. now split.
      * destruct (Hlast n' eq_refl) as [e' [He' Hrun]].
        exists e'. split; [|exact Hrun].
        rewrite Hcalls in He'.
        now replace (calls w + S n') with (S (calls w) + n') by lia.
    + discriminate.
Qed.


End RetryController.

(** C9.  The retry controller calls the provider at most [maxRetries + 1]
    times.  When the signal is never aborted and every call fails with a
    retryable error, it calls the provider exactly [maxRetries + 1] times,
    calls [onWaiting] exactly [maxRetries] times and throws the error of the
    last call. *)
Theorem translateBatchWithRetry_attempts :
  forall env batch targetLang translatedContext maxRetries onWaiting w,
  let run :=
    translateBatchWithRetry env batch targetLang translatedContext maxRetries
      onWaiting w in
  fetches (trace (snd run)) <= fetches (trace w) + (maxRetries + 1) /\
  (abortAt env = None ->
   (forall k, k <= maxRetries ->
      exists e,
        translateBatch_result env (calls w + k) batch targetLang translatedContext
        = Throw e /\ isRetryable e = true) ->
   fetches (trace (snd run)) = fetches (trace w) + (maxRetries + 1) /\
   (forall callback, onWaiting = Some callback ->
      waitings (trace (snd run)) = waitings (trace w) + maxRetries) /\
   exists e,
     translateBatch_result env (calls w + maxRetries) batch targetLang
       translatedContext = Throw e /\
     fst run = Throw (Err e)).
Proof.
  intros env batch targetLang translatedContext maxRetries onWaiting w run.
  subst run. unfold translateBatchWithRetry. split.
  - rewrite Nat.add_1_r. apply retry_loop_fetch_bound.
  - intros Hnever Hfail.
    destruct (@retry_loop_exhausts env batch targetLang translatedContext
                maxRetries onWaiting Hnever (S maxRetries) 0 None w
                eq_refl) as (_ & Hf & Hw & Hlast & _).
    { intros k Hk. apply Hfail. lia. }
    rewrite Nat.add_1_r. split; [exact Hf|]. split.
    + intros callback ->. rewrite Hw. lia.
    + exact (Hlast maxRetries eq_refl).
Qed.

Lemma translateBatchWithRetry_attempts_witness :
  let run :=
    translateBatchWithRetry Sample.envAlways429 Sample.b0 Sample.persian [] 2
      (Some (fun _ _ _ => [])) Sample.w0 in
  fetches (trace (snd run)) = 3 /\
  waitings (trace (snd run)) = 2 /\
  fst run
  = Throw (Err (mkError
                  (js "Rate limit exceeded. Please wait a moment and try again."))).
Proof.
  destruct (translateBatchWithRetry_attempts Sample.envAlways429 Sample.b0
              Sample.persian [] 2 (Some (fun _ _ _ => [])) Sample.w0) as [_ H].
  destruct H as (Hf & Hw & e & He & Hrun).
  - reflexivity.
  - intros k _. eexists. split; [reflexivity|vm_compute; reflexivity].
  - split; [exact Hf|]. split; [exact (Hw _ eq_refl)|].
    rewrite Hrun. inversion He. reflexivity.
Defined.





(* ===================================================================== *)
(** ** Theorems: which failures are retried *)
(* ===================================================================== *)



(** The fixed prefixes of the other messages contain no marker and no
    beginning of one, so the test looks at the text that follows them. *)
Lemma isRetryable_invalid_request : forall m,
  isRetryable (mkError (js "Invalid request: " ++ m)) = isRetryable (mkError m).
Proof. reflexivity. Qed.

Lemma isRetryable_api_error : forall m,
  isRetryable (mkError (js "API error: " ++ m)) = isRetryable (mkError m).
Proof. reflexivity. Qed.

Lemma isRetryable_content_blocked : forall m,
  isRetryable (mkError (js "Content blocked: " ++ m)) = isRetryable (mkError m).
Proof. reflexivity. Qed.

Lemma isRetryable_safety : forall m,
  isRetryable (mkError (js "Response blocked by safety filter: " ++ m))
  = isRetryable (mkError m).
Proof. reflexivity. Qed.







(* ===================================================================== *)
(** ** Theorems: the orchestrator *)
(* ===================================================================== *)

Section Orchestrator.

Variable env : Env.
Variable targetLang : jsstring.
Variable total : nat.

(** One iteration of the loop over the batches, by cases. *)
Lemma batches_loop_step : forall i batch rest all w,
  batches_loop env targetLang total i (batch :: rest) all w
  = if aborted env w then (Throw (Err cancelled), w)
    else
      let w1 :=
        with_notices
          [Progress i total (length (entries batch)) (StTranslating (i + 1) total);
           Log (LogSending (length (entries batch))) (Some (i + 1))] w in
      match translateBatchWithRetry env batch targetLang (rollingContext all) 5
              (Some (reportWaiting i total)) w1 with
      | (Return translatedEntries, w2) =>
        let all' := all ++ translatedEntries in
        let w3 :=
          with_notices
            [Log (LogReceived (length translatedEntries)) (Some (i + 1));
             Checkpoint (i + 1) all' false;
             Progress (i + 1) total (length (entries batch))
               (StCompleted (i + 1) total)] w2 in
        batches_loop env targetLang total (S i) rest all'
          (if i <? total - 1
           then after_timer BATCH_DELAY
                  (with_notices [Progress (i + 1) total 0 StWaitingNext] w3)
           else w3)
      | (Throw error, w2) =>
        (Throw error, with_notices [Checkpoint i all true] w2)
      end.
Proof.
  intros i batch rest all w. cbn [batches_loop].
  unfold bind at 1. unfold checkAbort at 1.
  destruct (aborted env w); [reflexivity|].
  unfold bind at 1. unfold notify at 1. unfold emit at 1.
  fold (rollingContext all).
  match goal with |- context [with_notices ?ns w] =>
    change (mkWorld (now w) (calls w) (draws w) (trace w ++ map EvNotice ns))
      with (with_notices ns w)
  end.
  unfold tryCatch.
  destruct (translateBatchWithRetry _ _ _ _ _ _ _) as [[translated|error] w2].
  - cbv zeta. unfold bind at 1. unfold notify at 1. unfold emit at 1.
    unfold bind at 1.
    destruct (i <? total - 1); reflexivity.
  - reflexivity.
Qed.

(** What [translateBatchWithRetry] throws for a batch is checkpointed with
    [failed = true] before it is thrown on. *)
Lemma failure_in_batch_is_checkpointed : forall i batch rest all w error w2,
  aborted env w = false ->
  translateBatchWithRetry env batch targetLang (rollingContext all) 5
    (Some (reportWaiting i total))
    (with_notices
       [Progress i total (length (entries batch)) (StTranslating (i + 1) total);
        Log (LogSending (length (entries batch))) (Some (i + 1))] w)
  = (Throw error, w2) ->
  batches_loop env targetLang total i (batch :: rest) all w
  = (Throw error, with_notices [Checkpoint i all true] w2).
Proof.
  intros i batch rest all w error w2 Hlive Hrun.
  rewrite batches_loop_step, Hlive. cbv zeta. now rewrite Hrun.
Qed.

(** A run that throws either has just checkpointed the failure of a batch,
    or throws the cancellation noticed at the head of the loop. *)
Lemma batches_loop_throw_cases : forall rest i all w thrown w',
  batches_loop env targetLang total i rest all w = (Throw thrown, w') ->
  (exists j entriesSoFar w2,
     i <= j /\ w' = with_notices [Checkpoint j entriesSoFar true] w2) \/
  (thrown = Err cancelled /\ aborted env w' = true).
Proof.
  induction rest as [|batch rest IH]; intros i all w thrown w' Hrun.
  - discriminate.
  - rewrite batches_loop_step in Hrun.
    destruct (aborted env w) eqn:Hlive.
    { inversion Hrun; subst. right. split; [reflexivity|assumption]. }
    cbv zeta in Hrun.
    destruct (translateBatchWithRetry _ _ _ _ _ _ _) as [[translated|error] w2].
    + apply IH in Hrun.
      destruct Hrun as [(j & soFar & w3 & Hj & Hw')|Hcancel].
      * left. exists j, soFar, w3. split; [lia|assumption].
      * right. assumption.
    + inversion Hrun; subst. left. exists i, all, w2. split; [lia|reflexivity].
Qed.

Variable batches : list Batch.

Lemma skipn_cons_nth_error : forall (A : Type) i (l : list A) x rest,
  skipn i l = x :: rest -> nth_error l i = Some x /\ skipn (S i) l = rest.
Proof.
  induction i as [|i IH]; intros [|y l] x rest H; try discriminate.
  - inversion H. split; reflexivity.
  - apply (IH l x rest H).
Qed.

Lemma totalEntries_app : forall l l',
  totalEntries (l ++ l') = totalEntries l + totalEntries l'.
Proof.
  intros l l'. unfold totalEntries. rewrite fold_left_app.
  generalize (fold_left (fun sum b => sum + length (entries b)) l 0) as a.
  induction l' as [|b l' IH]; intros a; cbn [fold_left].
  - lia.
  - rewrite IH, (IH (0 + _)). lia.
Qed.

Lemma entriesBefore_S : forall i batch,
  nth_error batches i = Some batch ->
  entriesBefore batches (S i)
  = entriesBefore batches i + length (entries batch).
Proof.
  intros i batch Hnth. unfold entriesBefore.
  rewrite (firstn_S_nth_error _ _ Hnth), totalEntries_app. reflexivity.
Qed.

(** Every checkpoint the loop emits holds the entries of the batches it
    counts as completed, when the loop starts that way. *)
Lemma batches_loop_checkpoints : forall rest i all w,
  skipn i batches = rest ->
  length all = entriesBefore batches i ->
  exists delta,
    trace (snd (batches_loop env targetLang total i rest all w))
    = trace w ++ delta /\
    Forall (checkpoint_ok batches) (checkpoints delta).
Proof.
  induction rest as [|batch rest IH]; intros i all w Hrest Hall.
  - exists []. cbn [batches_loop ret snd]. rewrite app_nil_r.
    split; [reflexivity|constructor].
  - rewrite batches_loop_step.
    destruct (aborted env w).
    { exists []. cbn [snd]. rewrite app_nil_r. split; [reflexivity|constructor]. }
    cbv zeta.
    destruct (skipn_cons_nth_error _ _ Hrest) as [Hnth Hrest'].
    match goal with |- context [translateBatchWithRetry _ _ _ _ _ _ ?w1] =>
      destruct (@retry_loop_trace env batch targetLang (rollingContext all) 5
                  (Some (reportWaiting i total)) 6 0 None w1)
        as (d & Hd & Hnone & Hlen)
    end.
    { intros callback seconds a m Hcb. inversion Hcb. reflexivity. }
    unfold translateBatchWithRetry.
    destruct (retry_loop _ _ _ _ _ _ _ _ _ _) as [[translated|error] w2].
    + cbn [fst snd] in Hd, Hlen. specialize (Hlen translated eq_refl).
      match goal with |- context [batches_loop _ _ _ _ _ ?a ?w4] =>
        destruct (IH (S i) a w4 Hrest') as (d' & Hd' & Hok)
      end.
      { rewrite length_app, Hlen, Hall. symmetry. now apply entriesBefore_S. }
      rewrite Hd'.
      assert (Hall' : checkpoint_ok batches (i + 1, all ++ translated, false)).
      { unfold checkpoint_ok. cbn [fst snd].
        rewrite length_app, Hlen, Hall, Nat.add_1_r. symmetry.
        now apply entriesBefore_S. }
      destruct (i <? total - 1);
        cbn [after_timer with_notices trace map]; rewrite Hd;
        cbn [with_notices trace map]; eexists;
        (split; [rewrite <- !app_assoc; reflexivity|]);
        rewrite !checkpoints_app, Hnone; cbn [checkpoints app];
        constructor; assumption.
    + cbn [fst snd] in Hd. cbn [snd with_notices trace map]. rewrite Hd.
      cbn [with_notices trace map]. eexists.
      split; [rewrite <- !app_assoc; reflexivity|].
      rewrite !checkpoints_app, Hnone. cbn [checkpoints app].
      constructor; [|constructor]. exact Hall.
Qed.

End Orchestrator.

(** C8.  Started from a state in which the entries already translated are
    those of the batches before [startFromBatch] (in particular from batch 0
    with no entry), every checkpoint a run emits, after a success or a
    failure, holds as many entries as the batches before the
    [completedBatches] it reports. *)
Theorem checkpoint_holds_completed_batches :
  forall env batches targetLang startFromBatch existingEntries w,
  length existingEntries = entriesBefore batches startFromBatch ->
  exists delta,
    trace (snd (translateAllBatches env batches targetLang startFromBatch
                  existingEntries w))
    = trace w ++ delta /\
    forall completedBatches allEntries failed,
      In (completedBatches, allEntries, failed) (checkpoints delta) ->
      length allEntries = entriesBefore batches completedBatches.
Proof.
  intros env batches targetLang startFromBatch existingEntries w Hstart.
  unfold translateAllBatches, bind.
  set (w1 := snd ((if 0 <? startFromBatch
                   then notify [Log (LogResuming (startFromBatch + 1)
                                       (length existingEntries)) None]
                   else ret tt) w : Result Thrown unit * World)).
  assert (Hw1 : exists d, trace w1 = trace w ++ d /\ checkpoints d = []).
  { subst w1. destruct (0 <? startFromBatch); cbn.
    - eexists. split; reflexivity.
    - exists []. now rewrite app_nil_r. }
  destruct Hw1 as (d & Hd & Hnone).
  destruct (@batches_loop_checkpoints env targetLang (length batches) batches
              (skipn startFromBatch batches) startFromBatch existingEntries w1
              eq_refl Hstart) as (d' & Hd' & Hok).
  exists (d ++ d'). split.
  - rewrite app_assoc, <- Hd, <- Hd'. subst w1.
    destruct (0 <? startFromBatch); reflexivity.
  - intros completedBatches allEntries failed Hin.
    rewrite checkpoints_app, Hnone in Hin. cbn [app] in Hin.
    rewrite Forall_forall in Hok. exact (Hok _ Hin).
Qed.

Lemma checkpoint_holds_completed_batches_witness :
  length (@nil Entry) = entriesBefore [Sample.b0; Sample.b1] 0 /\
  exists delta,
    trace (snd (translateAllBatches Sample.envOk [Sample.b0; Sample.b1]
                  Sample.persian 0 [] Sample.w0))
    = trace Sample.w0 ++ delta /\
    forall completedBatches allEntries failed,
      In (completedBatches, allEntries, failed) (checkpoints delta) ->
      length allEntries = entriesBefore [Sample.b0; Sample.b1] completedBatches.
Proof.
  split; [reflexivity|].
  apply (checkpoint_holds_completed_batches Sample.envOk
           [Sample.b0; Sample.b1] Sample.persian 0 [] Sample.w0).
  reflexivity.
Defined.

(** C2 (the code departs from the claim).  The claim: a run that fails at
    batch [i] calls the checkpoint callback with [i], the entries so far
    and [failed = true] before the failure reaches the caller.  The code
    does so for what [translateBatchWithRetry] throws; the abort check at
    the head of the loop throws outside the [try].  With two batches and a
    signal aborted during the timer that follows the first, the run throws
    "Translation cancelled" at batch 1 having called the provider once and
    emitted the single checkpoint of the first success: no checkpoint with
    [failed = true] is emitted. *)
Theorem cancel_between_batches_skips_checkpoint :
  fst (translateAllBatches Sample.envAbortInDelay [Sample.b0; Sample.b1]
         Sample.persian 0 [] Sample.w0)
  = Throw (Err cancelled) /\
  fetches
    (trace (snd (translateAllBatches Sample.envAbortInDelay
                   [Sample.b0; Sample.b1] Sample.persian 0 [] Sample.w0)))
  = 1 /\
  checkpoints
    (trace (snd (translateAllBatches Sample.envAbortInDelay
                   [Sample.b0; Sample.b1] Sample.persian 0 [] Sample.w0)))
  = [(1, [mkEntry 1 (js "00:00:01,000") (js "00:00:02,000") (js "Salam")], false)] /\
  ~ In (1, [mkEntry 1 (js "00:00:01,000") (js "00:00:02,000") (js "Salam")], true)
      (checkpoints
         (trace (snd (translateAllBatches Sample.envAbortInDelay
                        [Sample.b0; Sample.b1] Sample.persian 0 [] Sample.w0)))).
Proof.
  vm_compute. repeat split.
  intros [H|[]]. discriminate.
Qed.

(** The sibling path: the same cancellation noticed by the retry controller,
    at the top of the attempt that follows a backoff, is thrown inside the
    [try] and is checkpointed with [failed = true]. *)
Lemma cancel_in_backoff_is_checkpointed :
  fst (translateAllBatches Sample.envAbortInBackoff [Sample.b0; Sample.b1]
         Sample.persian 0 [] Sample.w0)
  = Throw (Err cancelled) /\
  checkpoints
    (trace (snd (translateAllBatches Sample.envAbortInBackoff
                   [Sample.b0; Sample.b1] Sample.persian 0 [] Sample.w0)))
  = [(0, [], true)].
Proof. vm_compute. split; reflexivity. Qed.

(* ===================================================================== *)
(** ** Theorems: cancellation and the timers *)
(* ===================================================================== *)




(* ===================================================================== *)
(** ** Theorems: validating a key *)
(* ===================================================================== *)

(** C10.  [validateApiKey] never throws.  For a key that is missing, empty
    or made of white space only it returns [false] and leaves the world as
    it was: no request is issued.  Otherwise it issues one request and
    returns [response.ok], or [false] when the request rejects; so a reply
    that is not ok and a network failure both give [false]. *)
Theorem validateApiKey_never_throws :
  forall env apiKey w,
  (exists valid, fst (validateApiKey env apiKey w) = Return valid) /\
  ((apiKey = None \/ exists key, apiKey = Some key /\ trim key = []) ->
   validateApiKey env apiKey w = (Return false, w)) /\
  (forall key,
     apiKey = Some key -> trim key <> [] ->
     trace (snd (validateApiKey env apiKey w)) = trace w ++ [EvValidate key] /\
     (forall e, keyCheck env key = Rejected e ->
        fst (validateApiKey env apiKey w) = Return false) /\
     (forall response, keyCheck env key = Responded response ->
        fst (validateApiKey env apiKey w) = Return (ok response) /\
        (ok response = false ->
         fst (validateApiKey env apiKey w) = Return false))).
Proof.
  intros env apiKey w.
  assert (Hblank : forall key, trim key = [] ->
            validateApiKey env (Some key) w = (Return false, w)).
  { intros key Hkey. unfold validateApiKey.
    destruct key as [|c key]; [reflexivity|]. cbn [truthy].
    now rewrite Hkey. }
  assert (Hfull : forall key, trim key <> [] ->
            validateApiKey env (Some key) w
            = (match keyCheck env key with
               | Responded response => Return (ok response)
               | Rejected _ => Return false
               end,
               mkWorld (now w) (calls w) (draws w) (trace w ++ [EvValidate key]))).
  { intros key Hkey. unfold validateApiKey.
    destruct key as [|c key]; [now elim Hkey|]. cbn [truthy].
    destruct (trim (c :: key)) as [|c' t] eqn:Htrim; [now elim Hkey|].
    cbn [length Nat.eqb]. unfold tryCatch, fetchKeyCheck.
    destruct (keyCheck env (c :: key)); reflexivity. }
  split; [|split].
  - destruct apiKey as [key|]; [|exists false; reflexivity].
    destruct (trim key) as [|c t] eqn:Htrim.
    + rewrite (Hblank key Htrim). exists false. reflexivity.
    + rewrite Hfull by (rewrite Htrim; discriminate).
      destruct (keyCheck env key); eexists; reflexivity.
  - intros [->|(key & -> & Hkey)]; [reflexivity|]. now apply Hblank.
  - intros key -> Hkey. rewrite (Hfull key Hkey). cbn [fst snd trace].
    split; [reflexivity|]. split.
    + intros e ->. reflexivity.
    + intros response ->. split; [reflexivity|]. now intros ->.
Qed.

Lemma validateApiKey_never_throws_witness :
  validateApiKey Sample.envBadKey (Some (js "   ")) Sample.w0
  = (Return false, Sample.w0) /\
  fst (validateApiKey Sample.envBadKey (Some (js "not-a-key")) Sample.w0)
  = Return false.
Proof.
  destruct (validateApiKey_never_throws Sample.envBadKey (Some (js "   "))
              Sample.w0) as (_ & Hblank & _).
  destruct (validateApiKey_never_throws Sample.envBadKey
              (Some (js "not-a-key")) Sample.w0) as (_ & _ & Hfull).
  split.
  - apply Hblank. right. exists (js "   "). split; reflexivity.
  - destruct (Hfull (js "not-a-key") eq_refl) as (_ & _ & Hreply).
    + vm_compute. discriminate.
    + destruct (Hreply _ eq_refl) as [_ Hfalse]. apply Hfalse. reflexivity.
Defined.

(* ===================================================================== *)
(** ** Further properties: the batches and their statistics *)
(* ===================================================================== *)

Lemma createBatches_segment : forall all batchSize,
  createBatches all batchSize = segment all batchSize.
Proof.
  intros all batchSize.
  pose proof (actualBatchSize_clamp batchSize) as [Hclamp _].
  assert (HB : 1 <= actualBatchSize batchSize) by lia.
  unfold createBatches, segment.
  destruct (length all =? 0) eqn:HN.
  - apply Nat.eqb_eq in HN. rewrite HN, (ceil_div_0 HB). reflexivity.
  - rewrite (createBatches_loop_spec all HB) by lia.
    now rewrite Nat.sub_0_r.
Qed.

Lemma ceil_div_gt : forall n size i,
  1 <= size -> i < ceil_div n size -> i * size < n.
Proof.
  intros n size i Hsize Hi. unfold ceil_div in Hi.
  destruct (Nat.le_gt_cases n (i * size)) as [Hge|]; [|assumption].
  exfalso.
  assert ((n + size - 1) / size < i + 1)
    by (apply Nat.Div0.div_lt_upper_bound; nia).
  lia.
Qed.

Lemma ceil_div_le : forall n size i,
  1 <= size -> i * size < n -> i < ceil_div n size.
Proof.
  intros n size i Hsize Hi. unfold ceil_div.
  apply Nat.div_le_lower_bound; [lia|]. nia.
Qed.

(** The batch at position [i] of what [createBatches] returns. *)
Lemma createBatches_nth : forall all batchSize i b,
  nth_error (createBatches all batchSize) i = Some b ->
  b = batch_at all (actualBatchSize batchSize) 0 0 i /\
  i * actualBatchSize batchSize < length all.
Proof.
  intros all batchSize i b Hnth.
  pose proof (actualBatchSize_clamp batchSize) as [Hclamp _].
  rewrite createBatches_segment in Hnth. unfold segment in Hnth.
  rewrite nth_error_map in Hnth.
  set (B := actualBatchSize batchSize) in *.
  destruct (nth_error (seq 0 (ceil_div (length all) B)) i) as [k|] eqn:Hk;
    [|discriminate].
  assert (Hi : i < ceil_div (length all) B).
  { rewrite <- (length_seq (ceil_div (length all) B) 0).
    apply nth_error_Some. congruence. }
  rewrite nth_error_seq in Hk.
  destruct (i <? ceil_div (length all) B); inversion Hk; subst k.
  inversion Hnth. split; [reflexivity|].
  apply ceil_div_gt; [lia|assumption].
Qed.

Lemma length_slice : forall (A : Type) (l : list A) from to,
  length (slice l from to) = Nat.min (to - from) (length l - from).
Proof. intros. unfold slice. now rewrite length_firstn, length_skipn. Qed.

(** X1.  The context of a batch is made of the entries right before it:
    the three entries that precede its first entry, or all the entries
    before it when there are fewer than three; the first batch has none.
    Context and entries put end to end are consecutive entries of the
    input. *)
Theorem createBatches_context_window : forall all batchSize i b,
  nth_error (createBatches all batchSize) i = Some b ->
  contextEntries b
  = slice all (startIndex b - DEFAULT_CONFIG.contextOverlap) (startIndex b) /\
  length (contextEntries b)
  = Nat.min DEFAULT_CONFIG.contextOverlap (startIndex b) /\
  contextEntries b ++ entries b
  = slice all (startIndex b - DEFAULT_CONFIG.contextOverlap) (endIndex b) /\
  (i = 0 -> contextEntries b = []).
Proof.
  intros all batchSize i b Hnth.
  destruct (createBatches_nth _ _ _ Hnth) as [-> Hi].
  pose proof (actualBatchSize_clamp batchSize) as [Hclamp _].
  set (B := actualBatchSize batchSize) in *.
  unfold batch_at, DEFAULT_CONFIG.contextOverlap.
  cbn [contextEntries startIndex endIndex entries].
  rewrite !Nat.add_0_l.
  set (s := i * B) in *. set (e := Nat.min ((i + 1) * B) (length all)).
  assert (Hse : s <= e) by (subst s e; nia).
  assert (Hctx : (if 0 <? s then slice all (s - 3) s else []) = slice all (s - 3) s).
  { destruct (Nat.ltb_spec 0 s); [reflexivity|].
    replace s with 0 by lia. reflexivity. }
  rewrite Hctx. split; [reflexivity|]. split; [|split].
  - rewrite length_slice. lia.
  - unfold slice.
    replace (skipn s all) with (skipn (s - (s - 3)) (skipn (s - 3) all))
      by (rewrite skipn_skipn; f_equal; lia).
    replace (e - (s - 3)) with ((s - (s - 3)) + (e - s)) by lia.
    generalize (skipn (s - 3) all) as l. generalize (s - (s - 3)) as a.
    generalize (e - s) as c. clear.
    intros c a. induction a as [|a IH]; intros l.
    + reflexivity.
    + destruct l as [|x l]; cbn [firstn skipn app Nat.add].
      * now rewrite firstn_nil.
      * f_equal. apply IH.
  - intros ->. subst s. reflexivity.
Qed.

Lemma createBatches_context_window_witness :
  nth_error (createBatches (repeat Sample.e1 25) 10) 1
  = Some (batch_at (repeat Sample.e1 25) 10 0 0 1) /\
  length (contextEntries (batch_at (repeat Sample.e1 25) 10 0 0 1)) = 3.
Proof.
  assert (H : nth_error (createBatches (repeat Sample.e1 25) 10) 1
              = Some (batch_at (repeat Sample.e1 25) 10 0 0 1))
    by reflexivity.
  split; [exact H|].
  destruct (createBatches_context_window _ _ _ H) as (_ & Hlen & _).
  exact Hlen.
Defined.

(** X2.  Every batch but the last holds exactly the clamped batch size of
    entries; the last holds at least one entry and at most that many; the
    entries of a batch are as many as its indices span. *)
Theorem createBatches_batch_sizes : forall all batchSize i b,
  nth_error (createBatches all batchSize) i = Some b ->
  let B := actualBatchSize batchSize in
  1 <= length (entries b) <= B /\
  length (entries b) = endIndex b - startIndex b /\
  (S i < length (createBatches all batchSize) -> length (entries b) = B).
Proof.
  intros all batchSize i b Hnth B.
  destruct (createBatches_nth _ _ _ Hnth) as [-> Hi].
  pose proof (actualBatchSize_clamp batchSize) as [Hclamp _].
  fold B in Hi, Hclamp |- *.
  unfold batch_at. cbn [entries startIndex endIndex].
  rewrite length_slice, !Nat.add_0_l.
  split; [nia|]. split; [nia|].
  intros Hnext.
  destruct (nth_error (createBatches all batchSize) (S i)) as [b'|] eqn:Hb'.
  - destruct (createBatches_nth _ _ _ Hb') as [_ Hi']. fold B in Hi'. nia.
  - apply nth_error_None in Hb'. lia.
Qed.

Lemma createBatches_batch_sizes_witness :
  nth_error (createBatches (repeat Sample.e1 25) 10) 2
  = Some (batch_at (repeat Sample.e1 25) 10 0 0 2) /\
  length (entries (batch_at (repeat Sample.e1 25) 10 0 0 2)) = 5.
Proof.
  assert (H : nth_error (createBatches (repeat Sample.e1 25) 10) 2
              = Some (batch_at (repeat Sample.e1 25) 10 0 0 2))
    by reflexivity.
  split; [exact H|].
  destruct (createBatches_batch_sizes _ _ _ H) as (_ & Hspan & _).
  exact Hspan.
Defined.

Lemma round_le : forall (q : Q) (z : Z),
  (q <= inject_Z z)%Q -> (round q <= z)%Z.
Proof.
  intros q z Hq. unfold round. apply Z.lt_succ_r. rewrite Zlt_Qlt.
  eapply Qle_lt_trans; [apply Qfloor_le|].
  unfold Z.succ. rewrite inject_Z_plus. change (inject_Z 1) with 1%Q. lra.
Qed.

Lemma round_ge : forall (q : Q) (z : Z),
  (inject_Z z <= q)%Q -> (z <= round q)%Z.
Proof.
  intros q z Hq. unfold round. rewrite <- (Qfloor_Z z).
  apply Qfloor_resp_le. lra.
Qed.

Lemma totalEntries_concat : forall batches,
  totalEntries batches = length (concat (map entries batches)).
Proof.
  induction batches as [|b batches IH].
  - reflexivity.
  - change (b :: batches) with ([b] ++ batches).
    rewrite totalEntries_app, IH. cbn [map concat app].
    rewrite length_app. unfold totalEntries. cbn. lia.
Qed.

Lemma createBatches_concat : forall all batchSize,
  concat (map entries (createBatches all batchSize)) = all.
Proof.
  intros all batchSize.
  pose proof (actualBatchSize_clamp batchSize) as [Hclamp _].
  assert (HB : 1 <= actualBatchSize batchSize) by lia.
  unfold createBatches.
  destruct (length all =? 0) eqn:HN.
  - apply Nat.eqb_eq in HN. destruct all; [reflexivity|discriminate].
  - rewrite (createBatches_loop_concat all HB) by lia. reflexivity.
Qed.

Lemma length_createBatches : forall all batchSize,
  length (createBatches all batchSize)
  = ceil_div (length all) (actualBatchSize batchSize).
Proof.
  intros. rewrite createBatches_segment. unfold segment.
  now rewrite length_map, length_seq.
Qed.

(** X3.  The statistics of the batches [createBatches] returns: as many
    batches as [ceil(N / B)], as many entries as the input has, and a
    rounded average batch size between 1 and the clamped batch size (0 for
    the empty input). *)
Theorem getBatchStats_of_createBatches : forall all batchSize,
  let stats := getBatchStats (createBatches all batchSize) in
  let B := actualBatchSize batchSize in
  statTotalBatches stats = ceil_div (length all) B /\
  statTotalEntries stats = length all /\
  (all = [] -> avgEntriesPerBatch stats = 0%Z) /\
  (all <> [] -> (1 <= avgEntriesPerBatch stats <= Z.of_nat B)%Z).
Proof.
  intros all batchSize stats B. subst stats.
  pose proof (actualBatchSize_clamp batchSize) as [Hclamp _]. fold B in Hclamp.
  unfold getBatchStats. cbn [statTotalBatches statTotalEntries avgEntriesPerBatch].
  unfold totalBatches.
  rewrite totalEntries_concat, createBatches_concat, length_createBatches.
  fold B. split; [reflexivity|]. split; [reflexivity|]. split.
  - intros ->. cbn [length]. rewrite ceil_div_0 by lia. reflexivity.
  - intros Hne.
    assert (HN : 1 <= length all) by (destruct all; [congruence|cbn; lia]).
    set (N := length all) in *. set (m := ceil_div N B).
    assert (Hm1 : 1 <= m) by (apply (@ceil_div_le N B 0); lia).
    assert (HmN : m <= N).
    { destruct (Nat.le_gt_cases m N) as [|Hgt]; [assumption|].
      assert (N * B < N) by (apply ceil_div_gt; lia). nia. }
    assert (HmB : N <= m * B).
    { destruct (Nat.le_gt_cases N (m * B)) as [|Hgt]; [assumption|].
      assert (m < m) by (apply (@ceil_div_le N B m); lia). lia. }
    destruct (Nat.ltb_spec 0 m) as [_|]; [|lia].
    assert (Hmpos : (0 < inject_Z (Z.of_nat m))%Q).
    { change 0%Q with (inject_Z 0). rewrite <- Zlt_Qlt. lia. }
    split.
    + apply round_ge. apply Qle_shift_div_l; [assumption|].
      change (inject_Z 1) with 1%Q. rewrite Qmult_1_l.
      rewrite <- Zle_Qle. lia.
    + apply round_le. apply Qle_shift_div_r; [assumption|].
      rewrite <- inject_Z_mult, <- Zle_Qle. nia.
Qed.

Lemma getBatchStats_of_createBatches_witness :
  repeat Sample.e1 25 <> [] /\
  statTotalBatches (getBatchStats (createBatches (repeat Sample.e1 25) 10)) = 3 /\
  statTotalEntries (getBatchStats (createBatches (repeat Sample.e1 25) 10)) = 25 /\
  (1 <= avgEntriesPerBatch
          (getBatchStats (createBatches (repeat Sample.e1 25) 10)) <= 10)%Z.
Proof.
  assert (Hne : repeat Sample.e1 25 <> []) by discriminate.
  split; [exact Hne|].
  destruct (getBatchStats_of_createBatches (repeat Sample.e1 25) 10)
    as (Hb & He & _ & Havg).
  split; [exact Hb|]. split; [exact He|]. exact (Havg Hne).
Defined.

(** X4.  [mergeBatches] undoes [createBatches]: the entries of the batches,
    merged, are the input, in order. *)
Theorem mergeBatches_createBatches : forall all batchSize,
  mergeBatches (map entries (createBatches all batchSize)) = all.
Proof. intros. unfold mergeBatches. apply createBatches_concat. Qed.

(** X5.  The token estimate of a batch is a third of the characters it
    counts (both timestamps, the arrow between them and the text) plus ten
    per entry, rounded up by at most four thirds per entry. *)
Theorem calculateBatchTokens_bounds : forall es,
  let chars :=
    list_sum
      (map (fun e => length (startTime e) + 5 + length (endTime e)
                     + length (text e)) es) in
  chars + 30 * length es <= 3 * calculateBatchTokens es
  /\ 3 * calculateBatchTokens es <= chars + 34 * length es.
Proof.
  intros es. unfold calculateBatchTokens.
  assert (Hceil : forall n, n <= 3 * ceil_div n 3 <= n + 2).
  { intros n. unfold ceil_div.
    pose proof (Nat.div_mod_eq (n + 3 - 1) 3) as Hdm.
    assert (Hlt : (n + 3 - 1) mod 3 < 3) by (apply Nat.mod_upper_bound; lia).
    lia. }
  assert (Hgen : forall acc,
    let chars :=
      list_sum
        (map (fun e => length (startTime e) + 5 + length (endTime e)
                       + length (text e)) es) in
    let total :=
      fold_left
        (fun total entry =>
           total
           + estimateTokens (startTime entry ++ js " --> " ++ endTime entry)
           + estimateTokens (text entry) + 10) es acc in
    3 * acc + chars + 30 * length es <= 3 * total
    /\ 3 * total <= 3 * acc + chars + 34 * length es).
  { induction es as [|e es IH]; intros acc; cbv zeta.
    - cbn. lia.
    - specialize (IH (acc
        + estimateTokens (startTime e ++ js " --> " ++ endTime e)
        + estimateTokens (text e) + 10)).
      cbv zeta in IH. unfold list_sum in *.
      cbn [map fold_right fold_left length] in *.
      unfold estimateTokens in *.
      rewrite !length_app in *.
      change (length (js " --> ")) with 5 in *.
      pose proof (Hceil (length (startTime e) + (5 + length (endTime e)))).
      pose proof (Hceil (length (text e))).
      lia. }
  specialize (Hgen 0). cbv zeta in Hgen. cbv zeta. lia.
Qed.

(* ===================================================================== *)
(** ** Further properties: the reconciler *)
(* ===================================================================== *)

Lemma parse_blocks_firstn : forall originalEntries blocks i translated,
  parse_blocks originalEntries i blocks translated
  = parse_blocks originalEntries i
      (firstn (length originalEntries - i) blocks) translated.
Proof.
  intros originalEntries.
  induction blocks as [|b blocks IH]; intros i translated.
  - now rewrite firstn_nil.
  - cbn [parse_blocks].
    destruct (nth_error originalEntries i) as [original|] eqn:Hnth.
    + assert (Hi : i < length originalEntries)
        by (apply nth_error_Some; congruence).
      destruct (length originalEntries - i) as [|k] eqn:Hk; [lia|].
      cbn [firstn parse_blocks]. rewrite Hnth.
      replace k with (length originalEntries - S i) by lia.
      destruct (trim b); apply IH.
    + apply nth_error_None in Hnth.
      replace (length originalEntries - i) with 0 by lia. reflexivity.
Qed.

(** X6.  Blocks beyond the number of originals are never looked at: two
    replies whose first [originalEntries.length] blocks are the same are
    reconciled to the same entries. *)
Theorem parseAPIResponse_ignores_extra_blocks :
  forall response response' originalEntries,
  firstn (length originalEntries) (split response)
  = firstn (length originalEntries) (split response') ->
  parseAPIResponse response originalEntries
  = parseAPIResponse response' originalEntries.
Proof.
  intros response response' originalEntries Hsame.
  unfold parseAPIResponse. cbv zeta.
  rewrite (parse_blocks_firstn originalEntries (split response)).
  rewrite (parse_blocks_firstn originalEntries (split response')).
  rewrite Nat.sub_0_r, Hsame. reflexivity.
Qed.

Lemma parseAPIResponse_ignores_extra_blocks_witness :
  parseAPIResponse
    (js ("Salam" ++ Sample.nl ++ "---" ++ Sample.nl ++ "extra"))
    [Sample.e1]
  = parseAPIResponse (js "Salam") [Sample.e1].
Proof.
  apply parseAPIResponse_ignores_extra_blocks. reflexivity.
Defined.

Lemma parse_blocks_prefix : forall originalEntries blocks i translated,
  exists suffix,
    parse_blocks originalEntries i blocks translated = translated ++ suffix.
Proof.
  intros originalEntries.
  induction blocks as [|b blocks IH]; intros i translated; cbn [parse_blocks].
  - exists []. now rewrite app_nil_r.
  - destruct (nth_error originalEntries i) as [original|].
    + destruct (trim b).
      * apply IH.
      * match goal with |- context [parse_blocks _ _ _ (_ ++ [?x])] =>
          destruct (IH (S i) (translated ++ [x])) as [suffix Hs];
          exists (x :: suffix)
        end.
        rewrite Hs, <- app_assoc. reflexivity.
    + exists []. now rewrite app_nil_r.
Qed.

(** While no block is blank, the entry pushed for block [j] is original
    [j] with the text of the block. *)
Lemma parse_blocks_nth : forall originalEntries blocks i translated,
  length translated = i ->
  Forall (fun b => trim b <> []) (firstn (length originalEntries - i) blocks) ->
  forall j original b,
    i <= j ->
    nth_error originalEntries j = Some original ->
    nth_error blocks (j - i) = Some b ->
    nth_error (parse_blocks originalEntries i blocks translated) j
    = Some (mkEntry (index original) (startTime original) (endTime original)
              (blockText (trim b))).
Proof.
  intros originalEntries.
  induction blocks as [|b0 blocks IH];
    intros i translated Hlen Hfull j original b Hij Hj Hb.
  - destruct (j - i); discriminate.
  - cbn [parse_blocks].
    assert (Hjn : j < length originalEntries)
      by (apply nth_error_Some; congruence).
    destruct (nth_error originalEntries i) as [oi|] eqn:Hnth;
      [|apply nth_error_None in Hnth; lia].
    destruct (length originalEntries - i) as [|k] eqn:Hk; [lia|].
    cbn [firstn] in Hfull. inversion Hfull as [|? ? Hb0 Hrest]; subst.
    destruct (trim b0) as [|c t] eqn:Htrim; [now elim Hb0|].
    destruct (Nat.eq_dec j (length translated)) as [->|Hne].
    + rewrite Nat.sub_diag in Hb. cbn [nth_error] in Hb. inversion Hb; subst b.
      rewrite Hnth in Hj. inversion Hj; subst oi.
      match goal with |- context [parse_blocks _ _ _ ?acc] =>
        destruct (parse_blocks_prefix originalEntries blocks
                    (S (length translated)) acc) as [suffix Hs]
      end.
      rewrite Hs, <- app_assoc, nth_error_app2 by lia.
      rewrite Nat.sub_diag. unfold blockText. rewrite Htrim. reflexivity.
    + apply IH.
      * rewrite length_app. cbn [length]. lia.
      * replace (length originalEntries - S (length translated)) with k by lia.
        exact Hrest.
      * lia.
      * exact Hj.
      * replace (j - length translated) with (S (j - S (length translated)))
          in Hb by lia.
        exact Hb.
Qed.

(** X7.  For a reply none of whose blocks is blank (among those that have
    an original), the entry at position [j] is original [j] with its text
    replaced by the text of block [j] (the block trimmed, a leading
    bracketed number dropped, trimmed again) when the reply has a block
    [j], and original [j] unchanged when it has not. *)
Theorem parseAPIResponse_entry : forall response originalEntries j original,
  Forall (fun b => trim b <> [])
    (firstn (length originalEntries) (split response)) ->
  nth_error originalEntries j = Some original ->
  nth_error (parseAPIResponse response originalEntries) j
  = Some match nth_error (split response) j with
         | Some b =>
           mkEntry (index original) (startTime original) (endTime original)
             (blockText (trim b))
         | None => original
         end.
Proof.
  intros response originalEntries j original Hfull Hj.
  assert (Hjn : j < length originalEntries)
    by (apply nth_error_Some; congruence).
  rewrite parseAPIResponse_unfold.
  set (blocks := split response) in *.
  set (translated := parse_blocks originalEntries 0 blocks []).
  assert (Hlen : length translated
                 = Nat.min (length blocks) (length originalEntries)).
  { pose proof (@parse_blocks_aligned originalEntries blocks 0 [] eq_refl) as Hal.
    rewrite Nat.sub_0_r in Hal. specialize (Hal Hfull eq_refl).
    cbn [Nat.add] in Hal. fold translated in Hal.
    rewrite <- (length_map identity), Hal, length_map, length_firstn.
    reflexivity. }
  destruct (nth_error blocks j) as [b|] eqn:Hb.
  - assert (Hjb : j < length blocks) by (apply nth_error_Some; congruence).
    rewrite nth_error_app1 by lia.
    apply (@parse_blocks_nth originalEntries blocks 0 [] eq_refl); try lia.
    + now rewrite Nat.sub_0_r.
    + exact Hj.
    + now rewrite Nat.sub_0_r.
  - apply nth_error_None in Hb.
    rewrite nth_error_app2 by lia.
    rewrite nth_error_skipn, <- Hj. f_equal. lia.
Qed.


Lemma parseAPIResponse_entry_witness :
  nth_error
    (parseAPIResponse (js ("[7]" ++ Sample.nl ++ " Salam "))
       [Sample.e1; Sample.e2]) 0
  = Some (mkEntry 1 (js "00:00:01,000") (js "00:00:02,000") (js "Salam")) /\
  nth_error
    (parseAPIResponse (js ("[7]" ++ Sample.nl ++ " Salam "))
       [Sample.e1; Sample.e2]) 1
  = Some Sample.e2.
Proof.
  assert (Hfull : Forall (fun b => trim b <> [])
                    (firstn (length [Sample.e1; Sample.e2])
                       (split (js ("[7]" ++ Sample.nl ++ " Salam "))))).
  { repeat constructor. discriminate. }
  split.
  - apply (parseAPIResponse_entry _ _ 0 Hfull eq_refl).
  - apply (parseAPIResponse_entry _ _ 1 Hfull eq_refl).
Defined.

(** *** Splitting what [formatEntriesForAPI] joined *)

Lemma dashes_S : forall s n after,
  dashes s = (S n, after) ->
  exists s', s = DASH :: s' /\ dashes s' = (n, after).
Proof.
  intros [|c s] n after H; cbn [dashes] in H; [discriminate|].
  destruct (N.eqb_spec c DASH); [subst c|discriminate].
  destruct (dashes s) as [m r] eqn:E. inversion H; subst.
  exists s. split; [reflexivity|assumption].
Qed.

Lemma match_sep_starts : forall s rest,
  match_sep s = Some rest -> startsWith SEPARATOR_START s = true.
Proof.
  intros s rest. unfold match_sep.
  destruct (match_sep_exact s) as [r|] eqn:E1.
  - intros _. unfold match_sep_exact in E1.
    do 5 (destruct s as [|? s]; try discriminate).
    destruct (_ && _) eqn:Hc; [|discriminate].
    repeat (apply andb_prop in Hc; destruct Hc as [Hc ?]).
    apply N.eqb_eq in Hc. repeat match goal with
      | H : (_ =? _)%N = true |- _ => apply N.eqb_eq in H end.
    subst. reflexivity.
  - unfold match_sep_run. destruct s as [|c0 s1]; try discriminate.
    destruct (N.eqb_spec c0 LF); [subst|discriminate].
    destruct (dashes s1) as [n after] eqn:E.
    destruct (Nat.leb_spec 3 n); [|discriminate].
    intros _.
    destruct n as [|[|[|n]]]; try lia.
    apply dashes_S in E as (s2 & -> & E).
    apply dashes_S in E as (s3 & -> & E).
    apply dashes_S in E as (s4 & -> & E).
    reflexivity.
Qed.

(** A string with no line that begins with three dashes after its first
    line. *)
Lemma no_match_inside : forall c b tail,
  includes (c :: b) SEPARATOR_START = false ->
  (tail = [] \/ exists t, tail = LF :: t) ->
  match_sep ((c :: b) ++ tail) = None.
Proof.
  intros c b tail Hsafe Htail.
  destruct (match_sep ((c :: b) ++ tail)) as [rest|] eqn:Hm; [|reflexivity].
  apply match_sep_starts in Hm.
  cbn [includes] in Hsafe. apply orb_false_iff in Hsafe as [Hstart _].
  exfalso. revert Hm Hstart. unfold SEPARATOR_START.
  destruct Htail as [->|[t ->]].
  - rewrite app_nil_r. congruence.
  - destruct b as [|c1 [|c2 [|c3 b]]]; cbn [app startsWith];
      rewrite ?andb_true_r, ?andb_false_r; congruence.
Qed.

Lemma includes_tail : forall c s p,
  includes (c :: s) p = false -> includes s p = false.
Proof.
  intros c s p H. cbn [includes] in H.
  now apply orb_false_iff in H as [_ H].
Qed.

(** Reading a block that holds no separator, up to the separator that
    follows it. *)
Lemma split_loop_block : forall b cur rest fuel,
  includes b SEPARATOR_START = false ->
  split_loop (length b + S fuel) cur (b ++ SEPARATOR ++ rest)
  = (rev cur ++ b) :: split_loop fuel [] rest.
Proof.
  induction b as [|c b IH]; intros cur rest fuel Hsafe.
  - cbn [length Nat.add app]. now rewrite app_nil_r.
  - cbn [length Nat.add split_loop].
    change ((c :: b) ++ SEPARATOR ++ rest)
      with (c :: (b ++ SEPARATOR ++ rest)).
    cbv iota.
    assert (Hnone : match_sep (c :: (b ++ SEPARATOR ++ rest)) = None).
    { apply (@no_match_inside c b (SEPARATOR ++ rest) Hsafe).
      right. eexists. reflexivity. }
    rewrite Hnone.
    rewrite IH by (eapply includes_tail; eassumption).
    cbn [rev]. now rewrite <- app_assoc.
Qed.

(** Reading the last block. *)
Lemma split_loop_last : forall b cur fuel,
  includes b SEPARATOR_START = false ->
  split_loop (length b + fuel) cur b = [rev cur ++ b].
Proof.
  induction b as [|c b IH]; intros cur fuel Hsafe.
  - cbn [length Nat.add]. destruct fuel; cbn; now rewrite ?app_nil_r.
  - cbn [length Nat.add split_loop].
    pose proof (@no_match_inside c b [] Hsafe (or_introl eq_refl)) as Hnone.
    rewrite app_nil_r in Hnone. rewrite Hnone.
    rewrite IH by (eapply includes_tail; eassumption).
    cbn [rev]. now rewrite <- app_assoc.
Qed.

(** [split] undoes [join] on blocks that hold no separator. *)
Lemma split_join : forall blocks,
  blocks <> [] ->
  Forall (fun b => includes b SEPARATOR_START = false) blocks ->
  split (join SEPARATOR blocks) = blocks.
Proof.
  intros blocks Hne Hsafe. unfold split.
  assert (Hgen : forall fuel, length (join SEPARATOR blocks) <= fuel ->
            split_loop fuel [] (join SEPARATOR blocks) = blocks).
  { revert Hne.
    induction Hsafe as [|b blocks Hb Hrest IH]; intros Hne fuel Hfuel;
      [congruence|].
    destruct blocks as [|b2 blocks].
    - cbn [join] in *.
      rewrite (@split_loop_fuel fuel (length b + 0) [] b) by lia.
      now rewrite split_loop_last.
    - change (join SEPARATOR (b :: b2 :: blocks))
        with (b ++ SEPARATOR ++ join SEPARATOR (b2 :: blocks)) in *.
      rewrite !length_app in Hfuel. change (length SEPARATOR) with 5 in Hfuel.
      rewrite (@split_loop_fuel fuel
                 (length b + S (4 + length (join SEPARATOR (b2 :: blocks)))) []
                 (b ++ SEPARATOR ++ join SEPARATOR (b2 :: blocks)))
        by (rewrite !length_app; change (length SEPARATOR) with 5; lia).
      rewrite split_loop_block by assumption.
      cbn [rev app]. f_equal. apply IH; [discriminate|lia]. }
  apply Hgen. lia.
Qed.

(** *** Trimming *)

Lemma dropWhile_app : forall p x y,
  dropWhile p (x ++ y)
  = match dropWhile p x with
    | [] => dropWhile p y
    | c :: r => (c :: r) ++ y
    end.
Proof.
  induction x as [|c x IH]; intros y; cbn [app dropWhile].
  - reflexivity.
  - destruct (p c); [apply IH|reflexivity].
Qed.

Lemma trimEnd_app : forall x y,
  trimEnd (x ++ y)
  = match trimEnd y with
    | [] => trimEnd x
    | _ :: _ => x ++ trimEnd y
    end.
Proof.
  intros x y. unfold trimEnd. rewrite rev_app_distr, dropWhile_app.
  destruct (dropWhile isWhiteSpace (rev y)) as [|c r].
  - reflexivity.
  - rewrite rev_app_distr, rev_involutive.
    destruct (rev (c :: r)) as [|c' r'] eqn:Hrev; [|reflexivity].
    apply (f_equal (@length _)) in Hrev. rewrite length_rev in Hrev.
    discriminate.
Qed.

Lemma trimEnd_cons : forall c t,
  trimEnd (c :: t)
  = match trimEnd t with
    | [] => if isWhiteSpace c then [] else [c]
    | _ :: _ => c :: trimEnd t
    end.
Proof.
  intros c t. change (c :: t) with ([c] ++ t). rewrite trimEnd_app.
  destruct (trimEnd t); [|reflexivity].
  unfold trimEnd. cbn [rev app dropWhile]. now destruct (isWhiteSpace c).
Qed.

Lemma trim_trimEnd_dropWhile : forall s,
  trim s = trimEnd (dropWhile isWhiteSpace s).
Proof. reflexivity. Qed.

Lemma trimEnd_dropWhile : forall t,
  trimEnd (dropWhile isWhiteSpace t) = dropWhile isWhiteSpace (trimEnd t).
Proof.
  induction t as [|c t IH]; [reflexivity|].
  cbn [dropWhile]. rewrite trimEnd_cons.
  destruct (isWhiteSpace c) eqn:Hc.
  - rewrite IH. destruct (trimEnd t); cbn [dropWhile]; now rewrite ?Hc.
  - rewrite trimEnd_cons, Hc.
    destruct (trimEnd t); cbn [dropWhile]; now rewrite Hc.
Qed.

Lemma trimEnd_idempotent : forall t, trimEnd (trimEnd t) = trimEnd t.
Proof.
  induction t as [|c t IH]; [reflexivity|].
  rewrite trimEnd_cons.
  destruct (trimEnd t) as [|c' r] eqn:Ht.
  - destruct (isWhiteSpace c) eqn:Hc; [reflexivity|].
    rewrite trimEnd_cons. cbn. now rewrite Hc.
  - rewrite trimEnd_cons, IH. reflexivity.
Qed.

Lemma trim_trimEnd : forall t, trim (trimEnd t) = trim t.
Proof.
  intros t. rewrite !trim_trimEnd_dropWhile.
  now rewrite trimEnd_dropWhile, trimEnd_idempotent, <- trimEnd_dropWhile.
Qed.

Lemma trim_blank : forall t, trimEnd t = [] -> trim t = [].
Proof.
  intros t H. rewrite trim_trimEnd_dropWhile, trimEnd_dropWhile, H.
  reflexivity.
Qed.

(** *** The number between brackets *)

Lemma string_of_uint_digits : forall d,
  Forall (fun c => isDigit c = true) (js (NilEmpty.string_of_uint d)).
Proof.
  induction d; cbn; constructor; (reflexivity || assumption).
Qed.

Lemma decimal_digits : forall n,
  Forall (fun c => isDigit c = true) (decimal n) /\ decimal n <> [].
Proof.
  intros n. split; [apply string_of_uint_digits|].
  unfold decimal.
  assert (Hnonnil : N.to_uint n <> Decimal.Nil).
  { destruct n as [|p]; [discriminate|].
    apply DecimalPos.Unsigned.to_uint_nonnil. }
  destruct (N.to_uint n); [congruence| | | | | | | | | |]; discriminate.
Qed.

Lemma digits_app : forall ds c rest,
  Forall (fun c => isDigit c = true) ds ->
  isDigit c = false ->
  digits (ds ++ c :: rest) = (length ds, c :: rest).
Proof.
  induction ds as [|d ds IH]; intros c rest Hds Hc; cbn [app digits length].
  - now rewrite Hc.
  - inversion Hds as [|? ? Hd Hds']; subst. rewrite Hd, IH by assumption.
    reflexivity.
Qed.

(** The text of the block of an entry is its text, trimmed. *)
Lemma blockText_formatEntry : forall e,
  (0 <= index e)%Z ->
  exists c block,
    trim (formatEntry e) = c :: block /\
    blockText (c :: block) = trim (text e).
Proof.
  intros e Hindex. unfold formatEntry.
  assert (Hshow : showZ (index e) = decimal (Z.to_N (index e)))
    by (destruct (index e); [reflexivity|reflexivity|lia]).
  rewrite Hshow.
  destruct (decimal_digits (Z.to_N (index e))) as [Hds Hne].
  set (ds := decimal (Z.to_N (index e))) in *.
  change (js "[" ++ ds ++ js "]" ++ LF :: text e)
    with (LBRACKET :: (ds ++ RBRACKET :: LF :: text e)).
  rewrite trim_trimEnd_dropWhile.
  change (dropWhile isWhiteSpace (LBRACKET :: (ds ++ RBRACKET :: LF :: text e)))
    with (LBRACKET :: (ds ++ RBRACKET :: LF :: text e)).
  clearbody ds.
  replace (LBRACKET :: (ds ++ RBRACKET :: LF :: text e))
    with ((LBRACKET :: ds ++ [RBRACKET]) ++ LF :: text e)
    by (cbn [app]; now rewrite <- app_assoc).
  assert (Hhead : trimEnd (LBRACKET :: ds ++ [RBRACKET])
                  = LBRACKET :: ds ++ [RBRACKET]).
  { change (LBRACKET :: ds ++ [RBRACKET])
      with ((LBRACKET :: ds) ++ [RBRACKET]).
    rewrite trimEnd_app. reflexivity. }
  assert (Hmatch : forall s2,
            match_index ((LBRACKET :: ds ++ [RBRACKET]) ++ s2)
            = Some match s2 with
                   | c' :: s3 => if (c' =? LF)%N then s3 else s2
                   | [] => []
                   end).
  { intros s2. cbn [app]. rewrite <- app_assoc. cbn [app].
    unfold match_index. change (LBRACKET =? LBRACKET)%N with true. cbv iota.
    rewrite digits_app by (assumption || reflexivity).
    destruct ds as [|d ds']; [congruence|]. cbn [length Nat.leb].
    change (RBRACKET =? RBRACKET)%N with true. cbv iota.
    destruct s2 as [|c' s3]; [reflexivity|]. now destruct (c' =? LF)%N. }
  rewrite trimEnd_app, trimEnd_cons.
  destruct (trimEnd (text e)) as [|c t] eqn:Htext.
  - change (isWhiteSpace LF) with true. cbv iota. rewrite Hhead.
    exists LBRACKET, (ds ++ [RBRACKET]). split; [reflexivity|].
    unfold blockText.
    pose proof (Hmatch []) as Hm. rewrite app_nil_r in Hm.
    cbn [app] in Hm. rewrite Hm.
    symmetry. now apply trim_blank.
  - exists LBRACKET, ((ds ++ [RBRACKET]) ++ LF :: c :: t).
    split; [reflexivity|].
    unfold blockText.
    pose proof (Hmatch (LF :: c :: t)) as Hm. cbn [app] in Hm.
    change (LF =? LF)%N with true in Hm. cbv iota in Hm.
    cbn [app]. rewrite Hm, <- Htext. apply trim_trimEnd.
Qed.

Lemma includes_skip_prefix : forall pre s,
  Forall (fun c => c <> LF) pre ->
  includes (pre ++ s) SEPARATOR_START = includes s SEPARATOR_START.
Proof.
  induction pre as [|c pre IH]; intros s Hpre; [reflexivity|].
  inversion Hpre as [|? ? Hc Hpre']; subst.
  cbn [app includes]. rewrite IH by assumption.
  unfold SEPARATOR_START at 1. cbn [startsWith].
  destruct (N.eqb_spec LF c) as [Heq|_]; [now elim Hc|reflexivity].
Qed.

Lemma formatEntry_safe : forall e,
  (0 <= index e)%Z ->
  includes (formatEntry e) SEPARATOR_START
  = includes (LF :: text e) SEPARATOR_START.
Proof.
  intros e Hindex. unfold formatEntry.
  assert (Hshow : showZ (index e) = decimal (Z.to_N (index e)))
    by (destruct (index e); [reflexivity|reflexivity|lia]).
  rewrite Hshow.
  destruct (decimal_digits (Z.to_N (index e))) as [Hds _].
  generalize dependent (decimal (Z.to_N (index e))). intros ds _ Hds.
  replace (js "[" ++ ds ++ js "]" ++ LF :: text e)
    with ((LBRACKET :: ds ++ [RBRACKET]) ++ LF :: text e)
    by (cbn [app]; now rewrite <- app_assoc).
  apply includes_skip_prefix.
  constructor; [discriminate|].
  apply Forall_app. split.
  - eapply Forall_impl; [|exact Hds].
    intros c Hc ->. discriminate.
  - constructor; [discriminate|constructor].
Qed.

(** The loop over the blocks, on the blocks of the entries themselves. *)
Lemma parse_blocks_formatted : forall es pre translated,
  (forall e, In e es -> (0 <= index e)%Z) ->
  parse_blocks (pre ++ es) (length pre) (map formatEntry es) translated
  = translated ++ map trimmed es.
Proof.
  induction es as [|e es IH]; intros pre translated Hindex;
    cbn [map parse_blocks].
  - now rewrite app_nil_r.
  - rewrite nth_error_app2, Nat.sub_diag by lia. cbn [nth_error].
    destruct (@blockText_formatEntry e (Hindex e (or_introl eq_refl)))
      as (c & block & Htrim & Htext).
    rewrite Htrim. fold (blockText (c :: block)). rewrite Htext.
    replace (pre ++ e :: es) with ((pre ++ [e]) ++ es)
      by (now rewrite <- app_assoc).
    replace (S (length pre)) with (length (pre ++ [e]))
      by (rewrite length_app; cbn; lia).
    rewrite IH by (intros e' He'; apply Hindex; now right).
    rewrite <- app_assoc. reflexivity.
Qed.

(** X8.  Reconciling the request with itself: when the provider sends back
    the very text [formatEntriesForAPI] produced, each entry comes back with
    its own index and times and its text trimmed, provided every index is
    a non-negative integer below [2^53] and no line of a text begins with
    three dashes. *)
Theorem parseAPIResponse_formatEntriesForAPI : forall es,
  (forall e, In e es ->
     (0 <= index e < 2 ^ 53)%Z /\
     includes (LF :: text e) SEPARATOR_START = false) ->
  parseAPIResponse (formatEntriesForAPI es) es = map trimmed es.
Proof.
  intros es Hes.
  destruct es as [|e0 es0] eqn:Heq; [reflexivity|]. rewrite <- Heq in *.
  assert (Hne : map formatEntry es <> []) by (rewrite Heq; discriminate).
  assert (Hsplit : split (formatEntriesForAPI es) = map formatEntry es).
  { apply split_join; [exact Hne|].
    apply Forall_map, Forall_forall. intros e He.
    destruct (Hes e He) as [[Hindex _] Hsafe].
    now rewrite formatEntry_safe. }
  rewrite parseAPIResponse_unfold. cbv zeta. rewrite Hsplit.
  pose proof (@parse_blocks_formatted es [] []) as Hparse.
  cbn [app length] in Hparse.
  rewrite Hparse by (intros e He; apply (Hes e He)).
  rewrite length_map, skipn_all. now rewrite app_nil_r.
Qed.

Lemma parseAPIResponse_formatEntriesForAPI_witness :
  parseAPIResponse (formatEntriesForAPI [Sample.e1; Sample.e2])
    [Sample.e1; Sample.e2]
  = [Sample.e1; Sample.e2].
Proof.
  apply (parseAPIResponse_formatEntriesForAPI [Sample.e1; Sample.e2]).
  intros e [<-|[<-|[]]]; (split; [simpl; lia | reflexivity]).
Defined.

(* ===================================================================== *)
(** ** Further properties: the context block and the progress tracker *)
(* ===================================================================== *)

Lemma mapi_from_contextPair_firstn : forall ctx tr i,
  mapi_from (contextPair tr) i ctx
  = mapi_from (contextPair (firstn (i + length ctx) tr)) i ctx.
Proof.
  induction ctx as [|e ctx IH]; intros tr i; [reflexivity|].
  cbn [mapi_from length]. f_equal.
  - unfold contextPair. rewrite nth_error_firstn.
    destruct (Nat.ltb_spec i (i + S (length ctx))); [reflexivity|lia].
  - rewrite IH, (IH (firstn _ _)). f_equal. f_equal.
    rewrite firstn_firstn. f_equal. lia.
Qed.

Lemma mapi_from_contextPair_nil : forall ctx i,
  mapi_from (contextPair []) i ctx
  = map (fun e => js "Original: " ++ text e) ctx.
Proof.
  induction ctx as [|e ctx IH]; intros i; [reflexivity|].
  cbn [mapi_from map]. rewrite IH. unfold contextPair.
  now rewrite nth_error_nil.
Qed.

(** X9.  The context block renders nothing for an empty context, never
    renders a translation that has no context entry at its position, and
    with no translation at all is the list of the original texts, one
    "Original: ..." paragraph each. *)
Theorem formatContextForAPI_pairs_by_position :
  forall contextEntries translatedContext,
  formatContextForAPI [] translatedContext = [] /\
  formatContextForAPI contextEntries translatedContext
  = formatContextForAPI contextEntries
      (firstn (length contextEntries) translatedContext) /\
  formatContextForAPI contextEntries []
  = join [LF; LF] (map (fun e => js "Original: " ++ text e) contextEntries).
Proof.
  intros contextEntries translatedContext. split; [reflexivity|]. split.
  - unfold formatContextForAPI.
    destruct (length contextEntries =? 0); [reflexivity|].
    f_equal. apply (mapi_from_contextPair_firstn contextEntries translatedContext 0).
  - unfold formatContextForAPI.
    destruct contextEntries as [|e ctx]; [reflexivity|].
    cbn [length Nat.eqb]. now rewrite mapi_from_contextPair_nil.
Qed.

Lemma percentOf_bounds : forall completed total,
  completed <= total -> (0 <= percentOf completed total <= 100)%Z.
Proof.
  intros completed total Hle. unfold percentOf.
  destruct (Nat.ltb_spec 0 total) as [Hpos|]; [|lia].
  assert (Htotal : (0 < inject_Z (Z.of_nat total))%Q).
  { change 0%Q with (inject_Z 0). rewrite <- Zlt_Qlt. lia. }
  assert (Hc : (0 <= inject_Z (Z.of_nat completed))%Q).
  { change 0%Q with (inject_Z 0). rewrite <- Zle_Qle. lia. }
  assert (Hct : (inject_Z (Z.of_nat completed) <= inject_Z (Z.of_nat total))%Q).
  { rewrite <- Zle_Qle. lia. }
  assert (Hq0 : (0 <= inject_Z (Z.of_nat completed) / inject_Z (Z.of_nat total))%Q).
  { apply Qle_shift_div_l; [assumption|]. lra. }
  assert (Hq1 : (inject_Z (Z.of_nat completed) / inject_Z (Z.of_nat total) <= 1)%Q).
  { apply Qle_shift_div_r; [assumption|]. lra. }
  split.
  - apply round_ge. change (inject_Z 0) with 0%Q. lra.
  - apply round_le. change (inject_Z 100) with 100%Q. lra.
Qed.

Lemma percentOf_complete : forall total,
  0 < total -> percentOf total total = 100%Z.
Proof.
  intros total Hpos. unfold percentOf.
  destruct (Nat.ltb_spec 0 total); [|lia].
  assert (Htotal : ~ (inject_Z (Z.of_nat total) == 0)%Q).
  { change 0%Q with (inject_Z 0). rewrite inject_Z_injective. lia. }
  unfold round.
  assert (Heq : (inject_Z (Z.of_nat total) / inject_Z (Z.of_nat total) * 100
                 + (1 # 2) == 100 + (1 # 2))%Q).
  { field. assumption. }
  rewrite Heq. reflexivity.
Qed.

Lemma percentOf_zero : forall total, percentOf 0 total = 0%Z.
Proof.
  intros total. unfold percentOf. destruct (0 <? total); [|reflexivity].
  unfold round.
  assert (Heq : (inject_Z (Z.of_nat 0) / inject_Z (Z.of_nat total) * 100
                 + (1 # 2) == 1 # 2)%Q).
  { change (inject_Z (Z.of_nat 0)) with 0%Q. unfold Qdiv. ring. }
  rewrite Heq. reflexivity.
Qed.

(** X10.  The progress tracker after some batches have been completed: it
    has counted the batches and summed their entries, and reports the two
    totals it was given; it is complete exactly when as many batches are
    completed as it was created for; its percentage stays between 0 and 100
    until then, is 100 at that point and 0 for a tracker of no batch;
    [reset] zeroes the counts and the percentage and keeps the two totals.
    The percentage is stated by these values only, at which the double
    arithmetic of the code and the exact quotient of [percentOf] agree. *)
Theorem progress_tracker_counts : forall nBatches nEntries counts,
  let t :=
    fold_left completeBatch counts
      (setTotalEntries (createProgressTracker nBatches) nEntries) in
  infoCompletedBatches (getProgress t) = length counts /\
  infoTotalBatches (getProgress t) = nBatches /\
  infoCompletedEntries (getProgress t) = list_sum counts /\
  infoTotalEntries (getProgress t) = nEntries /\
  isComplete t = (nBatches <=? length counts) /\
  (length counts <= nBatches ->
   (0 <= infoPercent (getProgress t) <= 100)%Z) /\
  (0 < nBatches -> length counts = nBatches ->
   infoPercent (getProgress t) = 100%Z) /\
  (nBatches = 0 -> infoPercent (getProgress t) = 0%Z) /\
  getProgress (reset t) = mkProgressInfo 0 nBatches 0 nEntries 0.
Proof.
  intros nBatches nEntries counts t.
  assert (Hfold : forall counts t0,
            fold_left completeBatch counts t0
            = mkTracker (trackerTotalBatches t0)
                (trackerCompletedBatches t0 + length counts)
                (trackerCompletedEntries t0 + list_sum counts)
                (trackerTotalEntries t0)).
  { clear. induction counts as [|c counts IH]; intros t0.
    - cbn. rewrite !Nat.add_0_r. now destruct t0.
    - cbn [fold_left]. rewrite IH. cbn [completeBatch trackerTotalBatches
        trackerCompletedBatches trackerCompletedEntries trackerTotalEntries
        length list_sum fold_right].
      f_equal; unfold list_sum; lia. }
  subst t. rewrite Hfold. cbn.
  do 5 (split; [reflexivity|]). split; [|split; [|split]].
  - intros Hle. now apply percentOf_bounds.
  - intros Hpos ->. now apply percentOf_complete.
  - intros ->. reflexivity.
  - unfold getProgress, reset. cbn. f_equal. apply percentOf_zero.
Qed.

Lemma progress_tracker_counts_witness :
  isComplete
    (fold_left completeBatch [10; 10; 5]
       (setTotalEntries (createProgressTracker 3) 25)) = true /\
  infoPercent
    (getProgress
       (fold_left completeBatch [10; 10; 5]
          (setTotalEntries (createProgressTracker 3) 25))) = 100%Z.
Proof.
  destruct (progress_tracker_counts 3 25 [10; 10; 5])
    as (_ & _ & _ & _ & Hcomplete & _ & Hpercent & _).
  split; [exact Hcomplete|]. apply Hpercent; [lia|reflexivity].
Defined.

(* ===================================================================== *)
(** ** Further properties: what a run adds to the trace *)
(* ===================================================================== *)

Section RetryEvents.

Variable env : Env.
Variable batch : Batch.
Variable targetLang : jsstring.
Variable translatedContext : list Entry.
Variable maxRetries : nat.
Variable onWaiting : option (Z -> nat -> nat -> list Notice).
Variable quiet : Notice -> Prop.

Hypothesis callback_quiet : forall callback seconds attempt m,
  onWaiting = Some callback -> Forall quiet (callback seconds attempt m).

Local Abbreviation req := (mkRequest batch targetLang translatedContext).
Local Abbreviation loop :=
  (retry_loop env batch targetLang translatedContext maxRetries onWaiting).
Local Abbreviation result k :=
  (translateBatch_result env k batch targetLang translatedContext).

(** The events of the retry loop, and where a value it returns comes
    from. *)
Lemma retry_loop_events : forall n attempt lastError w,
  exists delta,
    trace (snd (loop n attempt lastError w)) = trace w ++ delta /\
    Forall (retryEvent req quiet) delta /\
    fetches delta <= n /\
    forall v, fst (loop n attempt lastError w) = Return v ->
              exists k, result k = Return v.
Proof.
  induction n as [|n IH]; intros attempt lastError w.
  - rewrite retry_loop_0. exists []. cbn [fst snd].
    rewrite app_nil_r. repeat split; [constructor|cbn; lia|discriminate].
  - rewrite retry_loop_step.
    destruct (aborted env w).
    { exists []. cbn [fst snd]. rewrite app_nil_r.
      repeat split; [constructor|cbn; lia|discriminate]. }
    destruct (result (calls w)) as [v|e] eqn:Hres.
    { exists [EvFetch req]. cbn [fst snd after_fetch trace].
      repeat split; [repeat constructor|cbn; lia|].
      intros v' Hv'. inversion Hv'; subst v'. eauto. }
    destruct (isRetryable e).
    + match goal with |- context [loop n _ _ ?w'] => set (w1 := w') end.
      assert (Hw1 : exists d, trace w1 = trace w ++ d /\
                      Forall (retryEvent req quiet) d /\ fetches d = 1).
      { subst w1. destruct (attempt <? maxRetries).
        - cbn [after_backoff after_fetch trace].
          destruct onWaiting as [callback|] eqn:Hcb.
          + eexists. rewrite <- !app_assoc. split; [reflexivity|].
            cbn [app]. split.
            * constructor; [reflexivity|]. constructor; [exact I|].
              apply Forall_app. split.
              -- apply Forall_map. cbn [retryEvent].
                 now apply (callback_quiet _ _ _ eq_refl).
              -- repeat constructor.
            * unfold fetches. cbn [filter isFetch length].
              rewrite filter_app, length_app.
              fold (fetches (map EvNotice
                (callback (waitSeconds env attempt (after_fetch env req w))
                   (attempt + 1) maxRetries))).
              now rewrite fetches_notices.
          + eexists. rewrite <- !app_assoc. split; [reflexivity|].
            split; [repeat constructor|reflexivity].
        - eexists. split; [reflexivity|].
          split; [repeat constructor|reflexivity]. }
      destruct Hw1 as (d1 & Hd1 & He1 & Hf1).
      destruct (IH (S attempt) (Some e) w1) as (d2 & Hd2 & He2 & Hf2 & Hval).
      exists (d1 ++ d2). rewrite Hd2, Hd1, <- app_assoc.
      split; [reflexivity|]. split; [now apply Forall_app|].
      split; [rewrite fetches_app; lia|exact Hval].
    + exists [EvFetch req]. cbn [fst snd after_fetch trace].
      repeat split; [repeat constructor|cbn; lia|discriminate].
Qed.

End RetryEvents.

Lemma reportWaiting_quiet : forall i total callback seconds attempt m,
  Some (reportWaiting i total) = Some callback ->
  Forall (waitingNotice i total) (callback seconds attempt m).
Proof.
  intros i total callback seconds attempt m H. inversion H; subst.
  unfold reportWaiting. repeat constructor.
Qed.

Section RunEvents.

Variable env : Env.
Variable targetLang : jsstring.
Variable total : nat.

(** One iteration of the loop over the batches, by what it adds to the
    trace: nothing when the signal is aborted; otherwise the start of the
    batch and the events of the retry controller, followed either by the
    failure checkpoint and the throw, or by the success events and the rest
    of the loop. *)
Lemma batches_loop_cases : forall i batch rest all w,
  (aborted env w = true /\
   batches_loop env targetLang total i (batch :: rest) all w
   = (Throw (Err cancelled), w)) \/
  (aborted env w = false /\
   exists d w2,
     Forall (retryEvent (mkRequest batch targetLang (rollingContext all))
               (waitingNotice i total)) d /\
     fetches d <= 6 /\
     trace w2 = trace w ++ batchStarted i total batch ++ d /\
     ((exists thrown,
         batches_loop env targetLang total i (batch :: rest) all w
         = (Throw thrown, with_notices [Checkpoint i all true] w2)) \/
      (exists translated k w4,
         translateBatch_result env k batch targetLang (rollingContext all)
         = Return translated /\
         batches_loop env targetLang total i (batch :: rest) all w
         = batches_loop env targetLang total (S i) rest (all ++ translated) w4 /\
         trace w4 = trace w2 ++ batchDone i total batch all translated))).
Proof.
  intros i batch rest all w. rewrite batches_loop_step.
  destruct (aborted env w); [left; split; reflexivity|].
  right. split; [reflexivity|]. cbv zeta.
  match goal with |- context [translateBatchWithRetry _ _ _ _ _ _ ?w1] =>
    destruct (@retry_loop_events env batch targetLang (rollingContext all) 5
                (Some (reportWaiting i total)) (waitingNotice i total)
                (@reportWaiting_quiet i total) 6 0 None w1)
      as (d & Hd & Hev & Hf & Hval)
  end.
  unfold translateBatchWithRetry.
  destruct (retry_loop _ _ _ _ _ _ _ _ _ _) as [[translated|thrown] w2].
  - cbn [fst snd] in Hd, Hval. destruct (Hval translated eq_refl) as [k Hk].
    exists d, w2. split; [exact Hev|]. split; [exact Hf|]. split.
    + rewrite Hd. cbn [with_notices trace]. unfold batchStarted.
      now rewrite <- app_assoc.
    + right. eexists translated, k, _. split; [exact Hk|].
      split; [reflexivity|].
      unfold batchDone.
      destruct (i <? total - 1); cbn [after_timer with_notices trace map];
        rewrite <- ?app_assoc; cbn [app]; rewrite ?app_nil_r; reflexivity.
  - cbn [fst snd] in Hd.
    exists d, w2. split; [exact Hev|]. split; [exact Hf|]. split.
    + rewrite Hd. cbn [with_notices trace]. unfold batchStarted.
      now rewrite <- app_assoc.
    + left. exists thrown. reflexivity.
Qed.

End RunEvents.

Section RunTraces.

Variable env : Env.
Variable targetLang : jsstring.
Variable total : nat.

(** Every run of the loop is one of the runs [RunTrace] describes. *)
Lemma batches_loop_run : forall rest i all w,
  exists delta,
    trace (snd (batches_loop env targetLang total i rest all w))
    = trace w ++ delta /\
    RunTrace env targetLang total i rest all delta
      (fst (batches_loop env targetLang total i rest all w)).
Proof.
  induction rest as [|batch rest IH]; intros i all w.
  - exists []. cbn. rewrite app_nil_r. split; [reflexivity|constructor].
  - destruct (batches_loop_cases env targetLang total i batch rest all w)
      as [[Hab Heq]|(Hab & d & w2 & Hev & Hf & Hd & [[thrown Heq]|Hnext])].
    + rewrite Heq. exists []. cbn [fst snd]. rewrite app_nil_r.
      split; [reflexivity|constructor].
    + rewrite Heq. cbn [fst snd with_notices trace map].
      eexists. rewrite Hd, <- !app_assoc. split; [reflexivity|].
      now constructor.
    + destruct Hnext as (translated & k & w4 & Hk & Heq & Hw4).
      rewrite Heq. destruct (IH (S i) (all ++ translated) w4) as (delta & Ht & Hrun).
      eexists. rewrite Ht, Hw4, Hd, <- !app_assoc. split; [reflexivity|].
      econstructor; eassumption.
Qed.

End RunTraces.

Lemma translateAllBatches_run :
  forall env batches targetLang startFromBatch existingEntries w,
  exists delta,
    trace (snd (translateAllBatches env batches targetLang startFromBatch
                  existingEntries w))
    = trace w ++ resumeLogged startFromBatch existingEntries ++ delta /\
    RunTrace env targetLang (length batches) startFromBatch
      (skipn startFromBatch batches) existingEntries delta
      (fst (translateAllBatches env batches targetLang startFromBatch
              existingEntries w)).
Proof.
  intros env batches targetLang startFromBatch existingEntries w.
  unfold translateAllBatches, bind, resumeLogged.
  destruct (0 <? startFromBatch); cbn [notify ret emit fst snd].
  - match goal with |- context [batches_loop _ _ _ _ _ _ ?w1] =>
      destruct (batches_loop_run env targetLang (length batches)
                  (skipn startFromBatch batches) startFromBatch
                  existingEntries w1) as (delta & Ht & Hrun)
    end.
    exists delta. split; [|exact Hrun].
    rewrite Ht. cbn [trace map]. now rewrite <- app_assoc.
  - destruct (batches_loop_run env targetLang (length batches)
                (skipn startFromBatch batches) startFromBatch
                existingEntries w) as (delta & Ht & Hrun).
    exists delta. split; [|exact Hrun]. exact Ht.
Qed.

Lemma totalEntries_cons : forall batch rest,
  totalEntries (batch :: rest) = length (entries batch) + totalEntries rest.
Proof.
  intros batch rest. change (batch :: rest) with ([batch] ++ rest).
  rewrite totalEntries_app. reflexivity.
Qed.

Section RunTraceFacts.

Variable env : Env.
Variable targetLang : jsstring.
Variable total : nat.

Local Abbreviation Run := (RunTrace env targetLang total).

(** A run that returns has appended as many entries as the batches it was
    given hold. *)
Lemma runTrace_returns : forall i rest all delta outcome,
  Run i rest all delta outcome ->
  forall v, outcome = Return v ->
  exists tail, v = all ++ tail /\ length tail = totalEntries rest.
Proof.
  induction 1 as [i all|i batch rest all|i batch rest all d thrown Hev Hf
                 |i batch rest all d k translated delta outcome Hev Hf Hk Hrun IH];
    intros v Hv; try discriminate.
  - inversion Hv; subst. exists []. now rewrite app_nil_r.
  - destruct (IH v Hv) as (tail & -> & Hlen).
    exists (translated ++ tail). rewrite app_assoc. split; [reflexivity|].
    rewrite length_app, totalEntries_cons, Hlen.
    now rewrite (translateBatch_result_length _ _ _ _ _ Hk).
Qed.

(** The provider is called at most six times for each batch. *)
Lemma runTrace_fetches : forall i rest all delta outcome,
  Run i rest all delta outcome -> fetches delta <= 6 * length rest.
Proof.
  induction 1 as [i all|i batch rest all|i batch rest all d thrown Hev Hf
                 |i batch rest all d k translated delta outcome Hev Hf Hk Hrun IH];
    cbn [length]; try (cbn; lia).
  - rewrite !fetches_app. unfold batchStarted. rewrite fetches_notices.
    cbn. lia.
  - rewrite !fetches_app. unfold batchStarted, batchDone.
    rewrite fetches_app, !fetches_notices.
    destruct (i <? total - 1); cbn; lia.
Qed.

End RunTraceFacts.

(* ===================================================================== *)
(** ** Further properties: the orchestrator *)
(* ===================================================================== *)

(** The batches before position [k] of what [createBatches] returns hold
    the first [k] strides of the entries. *)
Lemma entriesBefore_createBatches : forall all batchSize k,
  entriesBefore (createBatches all batchSize) k
  = Nat.min (length all) (k * actualBatchSize batchSize).
Proof.
  intros all batchSize k.
  pose proof (actualBatchSize_clamp batchSize) as [Hclamp _].
  induction k as [|k IH]; [cbn; lia|].
  destruct (nth_error (createBatches all batchSize) k) as [b|] eqn:Hnth.
  - rewrite (entriesBefore_S _ _ Hnth), IH.
    destruct (createBatches_nth _ _ _ Hnth) as [-> Hk].
    unfold batch_at. cbn [entries]. rewrite length_slice. nia.
  - apply nth_error_None in Hnth.
    unfold entriesBefore in *.
    rewrite firstn_all2 in * by lia.
    rewrite IH.
    rewrite length_createBatches in Hnth.
    destruct (Nat.le_gt_cases (length all) (k * actualBatchSize batchSize))
      as [Hge|Hlt]; [nia|].
    assert (k < ceil_div (length all) (actualBatchSize batchSize))
      by (apply ceil_div_le; lia).
    lia.
Qed.

Lemma totalEntries_skipn : forall batches k,
  totalEntries (skipn k batches)
  = totalEntries batches - entriesBefore batches k.
Proof.
  intros batches k. unfold entriesBefore.
  rewrite <- (firstn_skipn k batches) at 2.
  rewrite totalEntries_app. lia.
Qed.

(** X11.  A translation that returns, fresh or resumed, returns the entries
    it was resumed with followed by one entry for each entry of the batches
    that were left: over the batches [createBatches] cuts, that is a result
    as long as what it was resumed with plus what lies beyond the first
    [startFromBatch] strides of the clamped batch size, and as long as the
    subtitle file for a fresh run. *)
Theorem translateAllBatches_result_length :
  forall env all batchSize targetLang startFromBatch existingEntries w v,
  fst (translateAllBatches env (createBatches all batchSize) targetLang
         startFromBatch existingEntries w) = Return v ->
  firstn (length existingEntries) v = existingEntries /\
  length v
  = length existingEntries
    + (length all - startFromBatch * actualBatchSize batchSize) /\
  (startFromBatch = 0 -> existingEntries = [] -> length v = length all).
Proof.
  intros env all batchSize targetLang startFromBatch existingEntries w v Hv.
  destruct (translateAllBatches_run env (createBatches all batchSize)
              targetLang startFromBatch existingEntries w)
    as (delta & _ & Hrun).
  destruct (runTrace_returns Hrun Hv) as (tail & -> & Hlen).
  rewrite totalEntries_skipn, entriesBefore_createBatches in Hlen.
  rewrite totalEntries_concat, createBatches_concat in Hlen.
  split; [|split].
  - rewrite firstn_app, Nat.sub_diag, firstn_all. cbn [firstn].
    now rewrite app_nil_r.
  - rewrite length_app. lia.
  - intros -> ->. rewrite length_app. cbn [length] in *. lia.
Qed.

Lemma translateAllBatches_result_length_witness :
  exists v,
    fst (translateAllBatches Sample.envOk
           (createBatches [Sample.e1; Sample.e2; Sample.e3] 10)
           Sample.persian 0 [] Sample.w0) = Return v /\
    length v = 3.
Proof.
  destruct (fst (translateAllBatches Sample.envOk
                   (createBatches [Sample.e1; Sample.e2; Sample.e3] 10)
                   Sample.persian 0 [] Sample.w0)) as [v|thrown] eqn:Hv;
    [|vm_compute in Hv; discriminate].
  exists v. split; [reflexivity|].
  exact (proj2 (proj2 (translateAllBatches_result_length _ _ _ _ _ _ _ Hv))
           eq_refl eq_refl).
Defined.

(** X12.  Resumed at or past the last stride of the entries, as after the
    batch size was raised between the two runs, [translateAllBatches]
    returns what it was resumed with: the provider is not called, nothing is
    checkpointed, and the abort signal is not looked at. *)
Theorem translateAllBatches_resumed_past_the_end :
  forall env all batchSize targetLang startFromBatch existingEntries w,
  length all <= startFromBatch * actualBatchSize batchSize ->
  let run := translateAllBatches env (createBatches all batchSize) targetLang
               startFromBatch existingEntries w in
  fst run = Return existingEntries /\
  fetches (trace (snd run)) = fetches (trace w) /\
  checkpoints (trace (snd run)) = checkpoints (trace w).
Proof.
  intros env all batchSize targetLang startFromBatch existingEntries w Hpast.
  pose proof (actualBatchSize_clamp batchSize) as [Hclamp _].
  assert (Hlen : length (createBatches all batchSize) <= startFromBatch).
  { rewrite length_createBatches.
    destruct (Nat.le_gt_cases
                (ceil_div (length all) (actualBatchSize batchSize))
                startFromBatch) as [|Hlt]; [assumption|].
    apply ceil_div_gt in Hlt; lia. }
  unfold translateAllBatches, bind. cbv zeta.
  rewrite (skipn_all2 _ Hlen).
  destruct (0 <? startFromBatch); cbn.
  - fold (fetches (trace w ++
            [EvNotice (Log (LogResuming (startFromBatch + 1)
                              (length existingEntries)) None)])).
    rewrite fetches_app, checkpoints_app. cbn.
    now rewrite Nat.add_0_r, app_nil_r.
  - repeat split.
Qed.

Lemma translateAllBatches_resumed_past_the_end_witness :
  fst (translateAllBatches Sample.envAbortInDelay
         (createBatches [Sample.e1; Sample.e2; Sample.e3] 10) Sample.persian
         1 [Sample.e1] (mkWorld 1000 0 0 []))
  = Return [Sample.e1].
Proof.
  refine (proj1 (translateAllBatches_resumed_past_the_end
                   Sample.envAbortInDelay [Sample.e1; Sample.e2; Sample.e3] 10
                   Sample.persian 1 [Sample.e1] (mkWorld 1000 0 0 []) _)).
  unfold actualBatchSize. cbn. lia.
Defined.

Lemma checkpoints_retryEvents : forall req i total d,
  Forall (retryEvent req (waitingNotice i total)) d -> checkpoints d = [].
Proof.
  induction 1 as [|ev d Hev _ IH]; [reflexivity|].
  destruct ev as [r|key|ms|s a m|n]; cbn [checkpoints]; try assumption.
  destruct n; [assumption|assumption|destruct Hev].
Qed.

Lemma progressCounter_app : forall t t' c,
  progressCounter c (t ++ t') = progressCounter (progressCounter c t) t'.
Proof.
  induction t as [|ev t IH]; intros t' c; [reflexivity|].
  destruct ev as [r|key|ms|s a m|n]; cbn [app progressCounter]; try apply IH.
  destruct n; apply IH.
Qed.

Lemma progressCounter_retryEvents : forall req i total d c,
  Forall (retryEvent req (waitingNotice i total)) d -> progressCounter c d = c.
Proof.
  intros req i total d c H. revert c.
  induction H as [|ev d Hev _ IH]; intros c; [reflexivity|].
  destruct ev as [r|key|ms|s a m|n]; cbn [progressCounter]; try apply IH.
  destruct n as [completed t batchEntries st| |]; try apply IH.
  destruct Hev as (_ & _ & ->). apply IH.
Qed.

Lemma progressReports_app : forall t t',
  progressReports (t ++ t') = progressReports t ++ progressReports t'.
Proof.
  induction t as [|ev t IH]; intros t'; [reflexivity|].
  destruct ev as [r|key|ms|s a m|n]; cbn [app progressReports]; try apply IH.
  destruct n; cbn [app]; now rewrite ?IH.
Qed.

Lemma progressReports_retryEvents : forall req i total d,
  Forall (retryEvent req (waitingNotice i total)) d ->
  Forall (fun p => p = (i, total)) (progressReports d).
Proof.
  induction 1 as [|ev d Hev _ IH]; [constructor|].
  destruct ev as [r|key|ms|s a m|n]; cbn [progressReports]; try assumption.
  destruct n as [completed t batchEntries st| |]; try assumption.
  destruct Hev as (-> & -> & _). now constructor.
Qed.

Section RunTraceNotices.

Variable env : Env.
Variable targetLang : jsstring.
Variable total : nat.

Local Abbreviation Run := (RunTrace env targetLang total).

(** The checkpoints of a run: one success for each batch done, numbered
    from [i + 1] on, for every batch when the run returns; then, when it
    throws, either nothing or the failure at the batch reached. *)
Lemma runTrace_marks : forall i rest all delta outcome,
  Run i rest all delta outcome ->
  exists m tail,
    marks delta = map (fun j => (j + 1, false)) (seq i m) ++ tail /\
    match outcome with
    | Return _ => m = length rest /\ tail = []
    | Throw _ => m < length rest /\ (tail = [] \/ tail = [(i + m, true)])
    end.
Proof.
  unfold marks.
  induction 1 as [i all|i batch rest all|i batch rest all d thrown Hev Hf
                 |i batch rest all d k translated delta outcome Hev Hf Hk Hrun IH].
  - exists 0, []. cbn. auto.
  - exists 0, []. cbn. split; [reflexivity|]. split; [lia|now left].
  - exists 0, [(i, true)]. rewrite !checkpoints_app.
    rewrite (checkpoints_retryEvents Hev). cbn.
    split; [reflexivity|]. split; [lia|]. right. now rewrite Nat.add_0_r.
  - destruct IH as (m & tail & Hmarks & Hout).
    exists (S m), tail. rewrite !checkpoints_app.
    rewrite (checkpoints_retryEvents Hev). unfold batchDone.
    rewrite checkpoints_app.
    assert (Hrest : checkpoints
                      (if i <? total - 1
                       then [EvNotice (Progress (i + 1) total 0 StWaitingNext);
                             EvTimer BATCH_DELAY]
                       else []) = [])
      by (destruct (i <? total - 1); reflexivity).
    rewrite Hrest. cbn [batchStarted map checkpoints app fst snd seq].
    rewrite Hmarks. split; [reflexivity|].
    destruct outcome; cbn [length].
    + destruct Hout as [-> ->]. auto.
    + destruct Hout as [Hm Htail]. split; [lia|].
      now rewrite Nat.add_succ_r.
Qed.

(** The counter [completedEntries] of [startTranslation] goes up twice for
    each batch done and once for a batch that fails. *)
Lemma runTrace_progressCounter : forall i rest all delta outcome,
  Run i rest all delta outcome ->
  forall c,
    c <= progressCounter c delta <= c + 2 * totalEntries rest /\
    forall v, outcome = Return v ->
              progressCounter c delta = c + 2 * totalEntries rest.
Proof.
  assert (Hadd : forall c n, (if 0 <? n then c + n else c) = c + n).
  { intros c n. destruct (Nat.ltb_spec 0 n); lia. }
  induction 1 as [i all|i batch rest all|i batch rest all d thrown Hev Hf
                 |i batch rest all d k translated delta outcome Hev Hf Hk Hrun IH];
    intros c; rewrite ?totalEntries_cons.
  - cbn. split; [lia|]. intros; lia.
  - cbn [progressCounter]. split; [lia|discriminate].
  - rewrite !progressCounter_app.
    cbn [batchStarted map progressCounter].
    rewrite (progressCounter_retryEvents _ Hev), Hadd.
    split; [lia|discriminate].
  - rewrite !progressCounter_app.
    cbn [batchStarted map progressCounter].
    rewrite (progressCounter_retryEvents _ Hev).
    unfold batchDone. rewrite progressCounter_app.
    cbn [map progressCounter].
    assert (Hrest : forall c',
              progressCounter c'
                (if i <? total - 1
                 then [EvNotice (Progress (i + 1) total 0 StWaitingNext);
                       EvTimer BATCH_DELAY]
                 else []) = c')
      by (intros c'; destruct (i <? total - 1); reflexivity).
    rewrite Hrest, !Hadd.
    destruct (IH (c + length (entries batch) + length (entries batch)))
      as [Hbounds Hret].
    split; [lia|]. intros v Hv. rewrite (Hret v Hv). lia.
Qed.

(** The progress notices of a run report the batches done so far out of
    [total], never more than [total]. *)
Lemma runTrace_progressReports : forall i rest all delta outcome,
  Run i rest all delta outcome ->
  i + length rest <= total ->
  Forall (fun p => i <= fst p <= total /\ snd p = total)
    (progressReports delta).
Proof.
  induction 1 as [i all|i batch rest all|i batch rest all d thrown Hev Hf
                 |i batch rest all d k translated delta outcome Hev Hf Hk Hrun IH];
    cbn [length]; intros Hle.
  - constructor.
  - constructor.
  - rewrite !progressReports_app.
    apply Forall_app. split; [|apply Forall_app; split].
    + cbn. repeat constructor; cbn; lia.
    + eapply Forall_impl; [|apply (progressReports_retryEvents Hev)].
      intros p ->. cbn. lia.
    + constructor.
  - rewrite !progressReports_app.
    apply Forall_app. split; [|apply Forall_app; split].
    + cbn. repeat constructor; cbn; lia.
    + eapply Forall_impl; [|apply (progressReports_retryEvents Hev)].
      intros p ->. cbn. lia.
    + unfold batchDone. rewrite progressReports_app.
      apply Forall_app. split; [apply Forall_app; split|].
      * cbn. repeat constructor; cbn; lia.
      * destruct (i <? total - 1); cbn; repeat constructor; cbn; lia.
      * eapply Forall_impl; [|apply IH; lia].
        intros p [Hp Ht]. split; [lia|assumption].
Qed.

End RunTraceNotices.

Lemma marks_resumeLogged : forall startFromBatch existingEntries delta,
  marks (resumeLogged startFromBatch existingEntries ++ delta) = marks delta.
Proof.
  intros. unfold marks, resumeLogged.
  destruct (0 <? startFromBatch); reflexivity.
Qed.

(** X14.  The checkpoints of a run, in the order they are saved: one
    success for each batch done, numbered [startFromBatch + 1],
    [startFromBatch + 2], ...; a run that returns has checkpointed every
    remaining batch and no failure; a run that throws stopped short of the
    last batch and saved, after its successes, either nothing more or one
    failure that reports the batches done so far. *)
Theorem translateAllBatches_checkpoint_numbering :
  forall env batches targetLang startFromBatch existingEntries w,
  exists delta m tail,
    trace (snd (translateAllBatches env batches targetLang startFromBatch
                  existingEntries w))
    = trace w ++ delta /\
    marks delta
    = map (fun j => (j + 1, false)) (seq startFromBatch m) ++ tail /\
    match fst (translateAllBatches env batches targetLang startFromBatch
                 existingEntries w) with
    | Return _ => m = length batches - startFromBatch /\ tail = []
    | Throw _ =>
      m < length batches - startFromBatch /\
      (tail = [] \/ tail = [(startFromBatch + m, true)])
    end.
Proof.
  intros env batches targetLang startFromBatch existingEntries w.
  destruct (translateAllBatches_run env batches targetLang startFromBatch
              existingEntries w) as (delta & Ht & Hrun).
  destruct (runTrace_marks Hrun) as (m & tail & Hmarks & Hout).
  exists (resumeLogged startFromBatch existingEntries ++ delta), m, tail.
  split; [exact Ht|]. rewrite marks_resumeLogged.
  split; [exact Hmarks|].
  rewrite length_skipn in Hout. exact Hout.
Qed.

Lemma startsWith_refl : forall s, startsWith s s = true.
Proof.
  induction s as [|c s IH]; [reflexivity|].
  cbn [startsWith]. now rewrite N.eqb_refl, IH.
Qed.

Lemma strictEq_refl : forall s, strictEq (Some s) s = true.
Proof.
  intros s. unfold strictEq. now rewrite Nat.eqb_refl, startsWith_refl.
Qed.

(** X15.  When a fresh translation of a file throws, whatever record its
    checkpoint callback saved is one [checkForSavedProgress] offers for
    resumption under the same file name as soon as it reports one completed
    batch, and only then: the record never reports every batch completed,
    and it holds entries exactly when it reports a completed batch. *)
Theorem failed_run_is_offered_for_resumption :
  forall env all batchSize targetLang fileName w thrown,
  fst (translateAllBatches env (createBatches all batchSize) targetLang 0 [] w)
  = Throw thrown ->
  exists delta,
    trace (snd (translateAllBatches env (createBatches all batchSize)
                  targetLang 0 [] w))
    = trace w ++ delta /\
    forall c, In c (checkpoints delta) ->
      fst (fst c) < length (createBatches all batchSize) /\
      resumeOffered
        (Some (checkpointRecord fileName targetLang batchSize all
                 (createBatches all batchSize) c))
        fileName
      = (0 <? fst (fst c)).
Proof.
  intros env all batchSize targetLang fileName w thrown Hthrown.
  set (batches := createBatches all batchSize) in *.
  pose proof (actualBatchSize_clamp batchSize) as [Hclamp _].
  destruct (translateAllBatches_run env batches targetLang 0 [] w)
    as (delta & Ht & Hrun).
  cbn [resumeLogged Nat.ltb Nat.leb app skipn] in Ht, Hrun.
  exists delta. split; [exact Ht|].
  destruct (@batches_loop_checkpoints env targetLang (length batches) batches
              batches 0 [] w eq_refl eq_refl) as (delta' & Ht' & Hok).
  change (batches_loop env targetLang (length batches) 0 batches [] w)
    with (translateAllBatches env batches targetLang 0 [] w) in Ht'.
  rewrite Ht in Ht'. apply app_inv_head in Ht'. subst delta'.
  destruct (runTrace_marks Hrun) as (m & tail & Hmarks & Hout).
  rewrite Hthrown in Hout. destruct Hout as [Hm Htail].
  intros [[completed saved] failed] Hin.
  assert (Hlt : completed < length batches).
  { assert (Hmark : In (completed, failed) (marks delta))
      by (apply (in_map (fun c => (fst (fst c), snd c)) _ _ Hin)).
    rewrite Hmarks in Hmark. apply in_app_or in Hmark.
    destruct Hmark as [Hmark|Hmark].
    - apply in_map_iff in Hmark. destruct Hmark as (j & Hj & Hseq).
      apply in_seq in Hseq. inversion Hj. lia.
    - destruct Htail as [->| ->]; [destruct Hmark|].
      destruct Hmark as [Hj|[]]. inversion Hj. lia. }
  split; [exact Hlt|].
  rewrite Forall_forall in Hok. specialize (Hok _ Hin).
  unfold checkpoint_ok in Hok. cbn [fst snd] in Hok |- *.
  subst batches. rewrite entriesBefore_createBatches in Hok.
  assert (Hpos : 0 < length all).
  { rewrite length_createBatches in Hlt.
    assert (0 < ceil_div (length all) (actualBatchSize batchSize)) as H0 by lia.
    apply ceil_div_gt in H0; lia. }
  unfold resumeOffered, checkpointRecord.
  cbn [savedTranslatedEntries savedFileName savedCompletedBatches
       savedTotalBatches fst snd getBatchStats statTotalBatches].
  rewrite strictEq_refl. unfold totalBatches.
  destruct (Nat.ltb_spec completed (length (createBatches all batchSize)));
    [|lia].
  destruct (Nat.ltb_spec 0 (length saved)), (Nat.ltb_spec 0 completed);
    try reflexivity; nia.
Qed.

Lemma failed_run_is_offered_for_resumption_witness :
  let env :=
    mkEnv (fun k _ => if k <? 1 then Sample.okReply (js "Salam")
                      else Sample.errorReply 403 None)
      (fun _ => 100%Q) (fun _ => (1 # 2)%Q) None
      (fun _ => Sample.okReply []) Sample.typeError in
  let all := repeat Sample.e1 11 in
  exists delta,
    trace (snd (translateAllBatches env (createBatches all 10)
                  Sample.persian 0 [] Sample.w0))
    = trace Sample.w0 ++ delta /\
    forall c, In c (checkpoints delta) ->
      fst (fst c) < length (createBatches all 10) /\
      resumeOffered
        (Some (checkpointRecord (js "film.srt") Sample.persian 10 all
                 (createBatches all 10) c))
        (js "film.srt")
      = (0 <? fst (fst c)).
Proof.
  intros env all.
  apply (@failed_run_is_offered_for_resumption env all 10 Sample.persian
           (js "film.srt") Sample.w0
           (Err (mkError
                   (js "Invalid API key. Please check your Gemini API key.")))).
  vm_compute. reflexivity.
Defined.

(** X16.  The counter of translated subtitles [startTranslation] shows
    beside the progress bar counts every entry twice: its progress callback
    adds the entries of a batch when the batch is sent and again when it is
    done, so that when the translation returns the counter has gone up by
    twice the entries translated in the run, [2 N] of the [N] entries of the
    file for a fresh run. *)
Theorem startTranslation_counts_entries_twice :
  forall env all batchSize targetLang startFromBatch existingEntries w v,
  fst (translateAllBatches env (createBatches all batchSize) targetLang
         startFromBatch existingEntries w) = Return v ->
  exists delta,
    trace (snd (translateAllBatches env (createBatches all batchSize)
                  targetLang startFromBatch existingEntries w))
    = trace w ++ delta /\
    progressCounter (length existingEntries) delta
    = length existingEntries
      + 2 * (length all - startFromBatch * actualBatchSize batchSize) /\
    (startFromBatch = 0 -> existingEntries = [] ->
     progressCounter 0 delta
     = 2 * statTotalEntries (getBatchStats (createBatches all batchSize))).
Proof.
  intros env all batchSize targetLang startFromBatch existingEntries w v Hv.
  destruct (translateAllBatches_run env (createBatches all batchSize)
              targetLang startFromBatch existingEntries w)
    as (delta & Ht & Hrun).
  exists (resumeLogged startFromBatch existingEntries ++ delta).
  split; [exact Ht|].
  assert (Hlog : forall c,
            progressCounter c
              (resumeLogged startFromBatch existingEntries ++ delta)
            = progressCounter c delta).
  { intros c. unfold resumeLogged. destruct (0 <? startFromBatch); reflexivity. }
  rewrite !Hlog.
  pose proof (fun c => proj2 (runTrace_progressCounter Hrun c) v Hv) as Hcount.
  rewrite totalEntries_skipn, entriesBefore_createBatches in Hcount.
  rewrite totalEntries_concat, createBatches_concat in Hcount.
  split.
  - rewrite Hcount. lia.
  - intros -> ->. rewrite Hcount.
    cbn [getBatchStats statTotalEntries].
    rewrite totalEntries_concat, createBatches_concat. lia.
Qed.

Lemma startTranslation_counts_entries_twice_witness :
  exists delta,
    trace (snd (translateAllBatches Sample.envOk
                  (createBatches [Sample.e1; Sample.e2; Sample.e3] 10)
                  Sample.persian 0 [] Sample.w0))
    = trace Sample.w0 ++ delta /\
    progressCounter 0 delta = 6.
Proof.
  destruct (fst (translateAllBatches Sample.envOk
                   (createBatches [Sample.e1; Sample.e2; Sample.e3] 10)
                   Sample.persian 0 [] Sample.w0)) as [v|thrown] eqn:Hv;
    [|vm_compute in Hv; discriminate].
  destruct (startTranslation_counts_entries_twice _ _ _ _ _ _ _ Hv)
    as (delta & Ht & Hcount & _).
  exists delta. split; [exact Ht|exact Hcount].
Defined.

(** X17.  Every progress notification of a run reports the number of
    batches of the run as the total and no more completed batches than
    that, so that the percentage [updateProgress] computes from it lies
    between 0 and 100. *)
Theorem translateAllBatches_progress_within_total :
  forall env batches targetLang startFromBatch existingEntries w,
  exists delta,
    trace (snd (translateAllBatches env batches targetLang startFromBatch
                  existingEntries w))
    = trace w ++ delta /\
    Forall (fun p => snd p = length batches /\
                     startFromBatch <= fst p <= snd p /\
                     (0 <= percentOf (fst p) (snd p) <= 100)%Z)
      (progressReports delta).
Proof.
  intros env batches targetLang startFromBatch existingEntries w.
  destruct (translateAllBatches_run env batches targetLang startFromBatch
              existingEntries w) as (delta & Ht & Hrun).
  exists (resumeLogged startFromBatch existingEntries ++ delta).
  split; [exact Ht|].
  rewrite progressReports_app.
  apply Forall_app. split.
  { unfold resumeLogged. destruct (0 <? startFromBatch); constructor. }
  destruct (Nat.le_gt_cases startFromBatch (length batches)) as [Hle|Hgt].
  - eapply Forall_impl; [|apply (runTrace_progressReports Hrun)].
    + intros p [Hp Htotal]. rewrite Htotal.
      split; [reflexivity|]. split; [lia|].
      apply percentOf_bounds. lia.
    + rewrite length_skipn. lia.
  - rewrite skipn_all2 in Hrun by lia. inversion Hrun. constructor.
Qed.

(* ===================================================================== *)
(** ** Further properties: resuming *)
(* ===================================================================== *)

Section Stateless.

Variable env : Env.
Variable targetLang : jsstring.
Variable g : Batch -> list Entry -> Result Error (list Entry).

Hypothesis stateless : forall k batch translatedContext,
  translateBatch_result env k batch targetLang translatedContext
  = g batch translatedContext.

(** The success checkpoints of a run lie on the way from where the run
    started to where it would end uninterrupted. *)
Lemma runTrace_checkpoint_outcome :
  forall total i rest all delta outcome,
  RunTrace env targetLang total i rest all delta outcome ->
  forall completed saved,
    In (completed, saved, false) (checkpoints delta) ->
    i <= completed /\
    outcomeOf g (skipn (completed - i) rest) saved = outcomeOf g rest all.
Proof.
  induction 1 as [i all|i batch rest all|i batch rest all d thrown Hev Hf
                 |i batch rest all d k translated delta outcome Hev Hf Hk Hrun IH];
    intros completed saved Hin.
  - destruct Hin.
  - destruct Hin.
  - rewrite !checkpoints_app, (checkpoints_retryEvents Hev) in Hin.
    cbn in Hin. destruct Hin as [Hc|[]]. discriminate.
  - rewrite !checkpoints_app, (checkpoints_retryEvents Hev) in Hin.
    unfold batchDone in Hin. rewrite checkpoints_app in Hin.
    assert (Hrest : checkpoints
                      (if i <? total - 1
                       then [EvNotice (Progress (i + 1) total 0 StWaitingNext);
                             EvTimer BATCH_DELAY]
                       else []) = [])
      by (destruct (i <? total - 1); reflexivity).
    rewrite Hrest in Hin. cbn [batchStarted map checkpoints app] in Hin.
    rewrite stateless in Hk.
    destruct Hin as [Hc|Hin].
    + inversion Hc; subst. split; [lia|].
      replace (i + 1 - i) with 1 by lia.
      cbn [skipn outcomeOf]. now rewrite Hk.
    + destruct (IH _ _ Hin) as [Hle Heq]. split; [lia|].
      replace (completed - i) with (S (completed - S i)) by lia.
      cbn [skipn outcomeOf]. now rewrite Hk.
Qed.

Hypothesis never_aborted : abortAt env = None.

Lemma retry_loop_stateless :
  forall batch translatedContext maxRetries onWaiting n attempt lastError w,
  fst (retry_loop env batch targetLang translatedContext maxRetries onWaiting
         n attempt lastError w)
  = match n with
    | 0 => Throw (match lastError with Some e => Err e | None => Undefined end)
    | S _ =>
      match g batch translatedContext with
      | Return translated => Return translated
      | Throw e => Throw (Err e)
      end
    end.
Proof.
  intros batch translatedContext maxRetries onWaiting.
  induction n as [|n IH]; intros attempt lastError w; [reflexivity|].
  rewrite retry_loop_step, (aborted_never _ never_aborted), stateless.
  destruct (g batch translatedContext) as [translated|e] eqn:Hg;
    [reflexivity|].
  destruct (isRetryable e); [|reflexivity].
  rewrite IH. destruct n; [reflexivity|]. reflexivity.
Qed.

(** Without cancellation, a run ends as [outcomeOf] says, wherever and
    whenever it is started. *)
Lemma batches_loop_stateless : forall total rest i all w,
  fst (batches_loop env targetLang total i rest all w) = outcomeOf g rest all.
Proof.
  intros total. induction rest as [|batch rest IH]; intros i all w;
    [reflexivity|].
  cbn [outcomeOf].
  rewrite batches_loop_step, (aborted_never _ never_aborted). cbv zeta.
  unfold translateBatchWithRetry.
  match goal with |- context [retry_loop ?e ?b ?t ?c ?m ?o ?n ?a ?l ?w1] =>
    pose proof (retry_loop_stateless b c m o n a l w1) as Hretry;
    destruct (retry_loop e b t c m o n a l w1) as [[translated|thrown] w3]
  end; cbn [fst] in Hretry; fold (rollingContext all) in Hretry.
  - destruct (g batch (rollingContext all)); [|discriminate].
    inversion Hretry; subst. apply IH.
  - destruct (g batch (rollingContext all)); [discriminate|].
    inversion Hretry; subst. reflexivity.
Qed.

End Stateless.

(** X18.  Resuming is faithful.  Let the answer of the provider depend only
    on the request.  Whatever success checkpoint a fresh run saved, however
    that run went on or was cut short, a run resumed from it that is not
    cancelled ends exactly as an uninterrupted fresh run that is not
    cancelled ends: with the same entries when one of them returns, with the
    same error when one of them throws. *)
Theorem resumed_run_ends_as_a_fresh_run :
  forall answer env1 env2 batches targetLang w1 w2 w3 delta completed saved,
  (forall k req, provider env1 k req = answer req) ->
  (forall k req, provider env2 k req = answer req) ->
  undefinedSplit env1 = undefinedSplit env2 ->
  abortAt env2 = None ->
  trace (snd (translateAllBatches env1 batches targetLang 0 [] w1))
  = trace w1 ++ delta ->
  In (completed, saved, false) (checkpoints delta) ->
  fst (translateAllBatches env2 batches targetLang completed saved w2)
  = fst (translateAllBatches env2 batches targetLang 0 [] w3).
Proof.
  intros answer env1 env2 batches targetLang w1 w2 w3 delta completed saved
    Hanswer1 Hanswer2 Hsplit Hnever Hdelta Hin.
  set (g := fun batch translatedContext =>
              translateBatch_result env2 0 batch targetLang translatedContext).
  assert (Hg2 : forall k batch translatedContext,
            translateBatch_result env2 k batch targetLang translatedContext
            = g batch translatedContext).
  { intros. unfold g, translateBatch_result. now rewrite !Hanswer2. }
  assert (Hg1 : forall k batch translatedContext,
            translateBatch_result env1 k batch targetLang translatedContext
            = g batch translatedContext).
  { intros. unfold g, translateBatch_result.
    now rewrite Hanswer1, Hanswer2, Hsplit. }
  destruct (translateAllBatches_run env1 batches targetLang 0 [] w1)
    as (delta' & Ht & Hrun).
  cbn [resumeLogged Nat.ltb Nat.leb app skipn] in Ht, Hrun.
  rewrite Hdelta in Ht. apply app_inv_head in Ht. subst delta'.
  destruct (@runTrace_checkpoint_outcome env1 targetLang g Hg1 _ _ _ _ _ _
              Hrun _ _ Hin) as [_ Heq].
  rewrite Nat.sub_0_r in Heq.
  unfold translateAllBatches, bind.
  destruct (0 <? completed); cbn [notify emit ret Nat.ltb Nat.leb skipn];
    rewrite !(@batches_loop_stateless env2 targetLang g Hg2 Hnever);
    exact Heq.
Qed.

Lemma resumed_run_ends_as_a_fresh_run_witness :
  let saved :=
    [mkEntry 1 (js "00:00:01,000") (js "00:00:02,000") (js "Salam")] in
  fst (translateAllBatches Sample.envOk [Sample.b0; Sample.b1] Sample.persian
         1 saved Sample.w0)
  = fst (translateAllBatches Sample.envOk [Sample.b0; Sample.b1]
           Sample.persian 0 [] Sample.w0).
Proof.
  intros saved.
  apply (@resumed_run_ends_as_a_fresh_run
           (fun _ => Sample.okReply (js "Salam"))
           Sample.envAbortInDelay Sample.envOk [Sample.b0; Sample.b1]
           Sample.persian Sample.w0 Sample.w0 Sample.w0
           (trace (snd (translateAllBatches Sample.envAbortInDelay
                          [Sample.b0; Sample.b1] Sample.persian 0 []
                          Sample.w0)))
           1 saved).
  - reflexivity.
  - reflexivity.
  - reflexivity.
  - reflexivity.
  - reflexivity.
  - vm_compute. left. reflexivity.
Defined.

Lemma requests_app : forall t t',
  requests (t ++ t') = requests t ++ requests t'.
Proof.
  induction t as [|ev t IH]; intros t'; [reflexivity|].
  destruct ev; cbn [app requests]; now rewrite ?IH.
Qed.

Lemma requests_notices : forall ns, requests (map EvNotice ns) = [].
Proof. induction ns; [reflexivity|assumption]. Qed.

Lemma requests_retryEvents : forall req quiet d,
  Forall (retryEvent req quiet) d -> Forall (eq req) (requests d).
Proof.
  induction 1 as [|ev d Hev _ IH]; [constructor|].
  destruct ev; cbn [requests]; try assumption.
  constructor; [now symmetry|assumption].
Qed.

Lemma requests_batchDone : forall i total batch all translated,
  requests (batchDone i total batch all translated) = [].
Proof.
  intros. unfold batchDone. rewrite requests_app, requests_notices.
  destruct (i <? total - 1); reflexivity.
Qed.

Lemma length_rollingContext : forall all,
  length (rollingContext all) = Nat.min 3 (length all).
Proof. intros all. unfold rollingContext. rewrite length_skipn. lia. Qed.

(** The requests of a run over the batches of [createBatches]. *)
Lemma runTrace_requests :
  forall env targetLang total entries0 batchSize i rest all delta outcome,
  RunTrace env targetLang total i rest all delta outcome ->
  skipn i (createBatches entries0 batchSize) = rest ->
  length all = entriesBefore (createBatches entries0 batchSize) i ->
  Forall (fun r =>
            reqTargetLang r = targetLang /\
            In (reqBatch r) (createBatches entries0 batchSize) /\
            length (reqTranslatedContext r)
            = length (contextEntries (reqBatch r)))
    (requests delta).
Proof.
  intros env targetLang total entries0 batchSize.
  pose proof (actualBatchSize_clamp batchSize) as [Hclamp _].
  assert (Hreq : forall i batch rest all,
            skipn i (createBatches entries0 batchSize) = batch :: rest ->
            length all = entriesBefore (createBatches entries0 batchSize) i ->
            In batch (createBatches entries0 batchSize) /\
            length (rollingContext all) = length (contextEntries batch)).
  { intros i batch rest all Hskip Hlen.
    apply skipn_cons_nth_error in Hskip. destruct Hskip as [Hnth _].
    split; [eapply nth_error_In; eassumption|].
    rewrite length_rollingContext, Hlen, entriesBefore_createBatches.
    destruct (createBatches_nth _ _ _ Hnth) as [-> Hi].
    unfold batch_at. cbn [contextEntries]. rewrite Nat.add_0_l.
    destruct (Nat.ltb_spec 0 (i * actualBatchSize batchSize)) as [Hpos|Hzero].
    - rewrite length_slice. unfold DEFAULT_CONFIG.contextOverlap. nia.
    - cbn [length]. lia. }
  induction 1 as [i all|i batch rest all|i batch rest all d thrown Hev Hf
                 |i batch rest all d k translated delta outcome Hev Hf Hk Hrun IH];
    intros Hskip Hlen.
  - constructor.
  - constructor.
  - destruct (Hreq _ _ _ _ Hskip Hlen) as [Hin Hctx].
    rewrite !requests_app. unfold batchStarted. rewrite requests_notices.
    cbn [app requests]. rewrite app_nil_r.
    eapply Forall_impl; [|apply (requests_retryEvents Hev)].
    intros r <-. cbn. auto.
  - destruct (Hreq _ _ _ _ Hskip Hlen) as [Hin Hctx].
    rewrite !requests_app, requests_batchDone. unfold batchStarted.
    rewrite requests_notices. cbn [app].
    apply Forall_app. split.
    + eapply Forall_impl; [|apply (requests_retryEvents Hev)].
      intros r <-. cbn. auto.
    + apply skipn_cons_nth_error in Hskip. destruct Hskip as [Hnth Hskip].
      apply IH; [exact Hskip|].
      rewrite (entriesBefore_S _ _ Hnth), length_app, Hlen.
      now rewrite (translateBatch_result_length _ _ _ _ _ Hk).
Qed.

(** While it works on a request, the retry controller sends that request
    and no other. *)
Lemma requests_retryEvents_repeat : forall req quiet d,
  Forall (retryEvent req quiet) d -> requests d = repeat req (fetches d).
Proof.
  induction 1 as [|ev d Hev _ IH]; [reflexivity|].
  destruct ev as [r|key|ms|s a m|n]; cbn [requests];
    try (rewrite fetches_cons_other by reflexivity; exact IH).
  cbn in Hev. subst r. unfold fetches in *. cbn [filter isFetch length repeat].
  now rewrite IH.
Qed.

(** The calls of a run, batch by batch: the requests go to the batches that
    are left, in their order, at most six in a row to each, for as many of
    them as the run reaches. *)
Lemma runTrace_calls :
  forall env targetLang total i rest all delta outcome,
  RunTrace env targetLang total i rest all delta outcome ->
  exists counts,
    length counts <= length rest /\
    Forall (fun c => c <= 6) counts /\
    map reqBatch (requests delta)
    = concat (map (fun bc => repeat (fst bc) (snd bc)) (combine rest counts)).
Proof.
  intros env targetLang total.
  induction 1 as [i all|i batch rest all|i batch rest all d thrown Hev Hf
                 |i batch rest all d k translated delta outcome Hev Hf Hk Hrun IH].
  - exists []. split; [cbn; lia|]. split; [constructor|reflexivity].
  - exists []. split; [cbn; lia|]. split; [constructor|reflexivity].
  - exists [fetches d]. split; [cbn; lia|].
    split; [constructor; [exact Hf|constructor]|].
    rewrite !requests_app. unfold batchStarted. rewrite requests_notices.
    cbn [app requests combine map concat fst snd]. rewrite !app_nil_r.
    rewrite (requests_retryEvents_repeat Hev), map_repeat, combine_nil.
    cbn [map concat reqBatch]. now rewrite app_nil_r.
  - destruct IH as (counts & Hlen & Hsix & Hreq).
    exists (fetches d :: counts). split; [cbn [length]; lia|].
    split; [constructor; assumption|].
    rewrite !requests_app, requests_batchDone. unfold batchStarted.
    rewrite requests_notices.
    cbn [app combine map concat fst snd].
    rewrite map_app, Hreq.
    rewrite (requests_retryEvents_repeat Hev), map_repeat. reflexivity.
Qed.

(** X13.  A run calls the provider at most six times for each batch from
    [startFromBatch] on, however it ends: read in order, its requests go to
    those batches in their order, [c] in a row to the batch that has count
    [c], every count is at most six, and there are no more counts than
    batches; in all that is at most six calls for each of these batches. *)
Theorem translateAllBatches_provider_calls :
  forall env batches targetLang startFromBatch existingEntries w,
  let run := translateAllBatches env batches targetLang startFromBatch
               existingEntries w in
  exists delta counts,
    trace (snd run) = trace w ++ delta /\
    length counts <= length batches - startFromBatch /\
    Forall (fun c => c <= 6) counts /\
    map reqBatch (requests delta)
    = concat (map (fun bc => repeat (fst bc) (snd bc))
                (combine (skipn startFromBatch batches) counts)) /\
    fetches delta = list_sum counts /\
    fetches (trace (snd run))
    <= fetches (trace w) + 6 * (length batches - startFromBatch).
Proof.
  intros env batches targetLang startFromBatch existingEntries w run.
  subst run.
  destruct (translateAllBatches_run env batches targetLang startFromBatch
              existingEntries w) as (delta & Ht & Hrun).
  destruct (runTrace_calls Hrun) as (counts & Hlen & Hsix & Hreq).
  rewrite length_skipn in Hlen.
  assert (Hquiet : requests (resumeLogged startFromBatch existingEntries) = []
                   /\ fetches (resumeLogged startFromBatch existingEntries) = 0)
    by (unfold resumeLogged; destruct (0 <? startFromBatch); split; reflexivity).
  destruct Hquiet as [Hquiet Hnone].
  assert (Hcount : forall t, fetches t = length (map reqBatch (requests t))).
  { clear. intros t. rewrite length_map.
    induction t as [|ev t IH]; [reflexivity|].
    destruct ev; cbn [requests length];
      rewrite ?fetches_cons_other by reflexivity; try exact IH.
    unfold fetches in *. cbn [filter isFetch length]. now rewrite IH. }
  assert (Hsum : forall (bs : list Batch) cs,
            length cs <= length bs ->
            length (concat (map (fun bc => repeat (fst bc) (snd bc))
                              (combine bs cs)))
            = list_sum cs).
  { clear. induction bs as [|b bs IH]; intros [|c cs] Hle;
      cbn [combine map concat length list_sum fold_right] in *;
      try reflexivity; try lia.
    rewrite length_app, repeat_length, IH by lia. reflexivity. }
  exists (resumeLogged startFromBatch existingEntries ++ delta), counts.
  split; [exact Ht|]. split; [exact Hlen|]. split; [exact Hsix|].
  split; [now rewrite requests_app, Hquiet|].
  assert (Hdelta : fetches delta = list_sum counts).
  { rewrite Hcount, Hreq. apply Hsum. now rewrite length_skipn. }
  split; [rewrite fetches_app, Hnone; exact Hdelta|].
  rewrite Ht, !fetches_app, Hnone, Hdelta.
  assert (list_sum counts <= 6 * length counts).
  { clear - Hsix. induction Hsix as [|c cs Hc _ IH]; [cbn; lia|].
    cbn [list_sum fold_right length] in *. unfold list_sum in IH. lia. }
  lia.
Qed.

(** X19.  In a run over the batches [createBatches] cuts, fresh or resumed
    with the entries of the batches before [startFromBatch], every request
    sent to the provider is for the target language and one of the batches,
    and carries as many translated context entries as the batch has
    original context entries: [formatContextForAPI] finds a translation for
    each original it prints. *)
Theorem translateAllBatches_request_context :
  forall env all batchSize targetLang startFromBatch existingEntries w,
  length existingEntries
  = entriesBefore (createBatches all batchSize) startFromBatch ->
  exists delta,
    trace (snd (translateAllBatches env (createBatches all batchSize)
                  targetLang startFromBatch existingEntries w))
    = trace w ++ delta /\
    Forall (fun r =>
              reqTargetLang r = targetLang /\
              In (reqBatch r) (createBatches all batchSize) /\
              length (reqTranslatedContext r)
              = length (contextEntries (reqBatch r)))
      (requests delta).
Proof.
  intros env all batchSize targetLang startFromBatch existingEntries w Hlen.
  destruct (translateAllBatches_run env (createBatches all batchSize)
              targetLang startFromBatch existingEntries w)
    as (delta & Ht & Hrun).
  exists (resumeLogged startFromBatch existingEntries ++ delta).
  split; [exact Ht|].
  rewrite requests_app.
  replace (requests (resumeLogged startFromBatch existingEntries))
    with (@nil Request)
    by (unfold resumeLogged; destruct (0 <? startFromBatch); reflexivity).
  exact (@runTrace_requests _ _ _ all batchSize _ _ _ _ _ Hrun eq_refl Hlen).
Qed.

Lemma translateAllBatches_request_context_witness :
  exists delta,
    trace (snd (translateAllBatches Sample.envOk
                  (createBatches (repeat Sample.e1 25) 10) Sample.persian
                  1 (repeat Sample.e1 10) Sample.w0))
    = trace Sample.w0 ++ delta /\
    Forall (fun r =>
              reqTargetLang r = Sample.persian /\
              In (reqBatch r) (createBatches (repeat Sample.e1 25) 10) /\
              length (reqTranslatedContext r)
              = length (contextEntries (reqBatch r)))
      (requests delta).
Proof.
  apply (translateAllBatches_request_context Sample.envOk
           (repeat Sample.e1 25) 10 Sample.persian 1 (repeat Sample.e1 10)
           Sample.w0).
  reflexivity.
Defined.

(* ===================================================================== *)
(** ** Further properties: the time spent waiting *)
(* ===================================================================== *)

Lemma timerTotal_app : forall t t',
  (timerTotal (t ++ t') == timerTotal t + timerTotal t')%Q.
Proof.
  induction t as [|ev t IH]; intros t'; cbn [app timerTotal]; [ring|].
  destruct ev; try apply IH. rewrite IH. ring.
Qed.

Lemma timerTotal_notices : forall ns, timerTotal (map EvNotice ns) = 0%Q.
Proof. induction ns; [reflexivity|assumption]. Qed.

Lemma backoffBudget_S : forall attempt,
  (backoffBudget (S attempt)
   == backoffBudget attempt
      + 15000 * inject_Z (2 ^ Z.of_nat attempt) + 2000)%Q.
Proof.
  intros attempt. unfold backoffBudget.
  rewrite !Nat2Z.inj_succ, Z.pow_succ_r by lia.
  unfold Z.succ. rewrite inject_Z_mult, inject_Z_plus. ring.
Qed.

Lemma backoffBudget_mono : forall a b,
  a <= b -> (backoffBudget a <= backoffBudget b)%Q.
Proof.
  intros a b Hle. induction Hle as [|b Hle IH]; [apply Qle_refl|].
  rewrite backoffBudget_S.
  assert (0 <= inject_Z (2 ^ Z.of_nat b))%Q.
  { change 0%Q with (inject_Z 0). rewrite <- Zle_Qle.
    apply Z.pow_nonneg. lia. }
  lra.
Qed.

Section Waiting.

Variable env : Env.
Variable batch : Batch.
Variable targetLang : jsstring.
Variable translatedContext : list Entry.
Variable maxRetries : nat.
Variable onWaiting : option (Z -> nat -> nat -> list Notice).

Hypothesis random_range : forall k, (0 <= random env k < 1)%Q.

Lemma retry_loop_timers : forall n attempt lastError w,
  exists delta,
    trace (snd (retry_loop env batch targetLang translatedContext maxRetries
                  onWaiting n attempt lastError w))
    = trace w ++ delta /\
    (0 <= timerTotal delta)%Q /\
    (timerTotal delta + backoffBudget attempt
     <= backoffBudget (Nat.max attempt maxRetries))%Q.
Proof.
  assert (Hnone : forall attempt,
            (0 + backoffBudget attempt
             <= backoffBudget (Nat.max attempt maxRetries))%Q).
  { intros attempt. rewrite Qplus_0_l. apply backoffBudget_mono. lia. }
  induction n as [|n IH]; intros attempt lastError w.
  - rewrite retry_loop_0. exists []. cbn [fst snd timerTotal].
    rewrite app_nil_r. split; [reflexivity|]. split; [apply Qle_refl|apply Hnone].
  - rewrite retry_loop_step.
    destruct (aborted env w).
    { exists []. cbn [fst snd timerTotal]. rewrite app_nil_r.
      split; [reflexivity|]. split; [apply Qle_refl|apply Hnone]. }
    destruct (translateBatch_result env (calls w) batch targetLang
                translatedContext) as [v|e].
    { eexists. cbn [fst snd after_fetch trace]. split; [reflexivity|].
      cbn [timerTotal]. split; [apply Qle_refl|apply Hnone]. }
    destruct (isRetryable e).
    + destruct (Nat.ltb_spec attempt maxRetries) as [Hlt|Hge].
      * match goal with |- context [retry_loop _ _ _ _ _ _ n _ _ ?w'] =>
          destruct (IH (S attempt) (Some e) w') as (d2 & Hd2 & Hpos & Hle)
        end.
        rewrite Hd2. cbn [after_backoff after_fetch trace draws].
        set (w1 := after_fetch env
                     (mkRequest batch targetLang translatedContext) w) in *.
        pose proof (random_range (draws w)) as [Hr0 Hr1].
        assert (Hpow : (0 <= inject_Z (2 ^ Z.of_nat attempt))%Q).
        { change 0%Q with (inject_Z 0). rewrite <- Zle_Qle.
          apply Z.pow_nonneg. lia. }
        replace (Nat.max (S attempt) maxRetries)
          with (Nat.max attempt maxRetries) in Hle by lia.
        rewrite backoffBudget_S in Hle.
        destruct onWaiting as [callback|].
        -- eexists. rewrite <- !app_assoc. split; [reflexivity|].
           cbn [app timerTotal].
           rewrite timerTotal_app, timerTotal_notices. cbn [app timerTotal].
           unfold totalDelay, w1. cbn [after_fetch draws].
           split; lra.
        -- eexists. rewrite <- !app_assoc. split; [reflexivity|].
           cbn [app timerTotal].
           unfold totalDelay, w1. cbn [after_fetch draws].
           split; lra.
      * destruct (IH (S attempt) (Some e)
                    (after_fetch env
                       (mkRequest batch targetLang translatedContext) w))
          as (d2 & Hd2 & Hpos & Hle).
        rewrite Hd2. cbn [after_fetch trace].
        eexists. rewrite <- app_assoc. split; [reflexivity|].
        cbn [app timerTotal]. split; [exact Hpos|].
        replace (Nat.max (S attempt) maxRetries) with (S attempt) in Hle by lia.
        replace (Nat.max attempt maxRetries) with attempt by lia.
        lra.
    + eexists. cbn [fst snd after_fetch trace]. split; [reflexivity|].
      cbn [timerTotal]. split; [apply Qle_refl|apply Hnone].
Qed.

End Waiting.

(** X20.  However the calls of the provider go, the retry controller spends
    at most [15000 * (2^maxRetries - 1) + 2000 * maxRetries] milliseconds in
    its backoff timers for one batch: 475 seconds with the five retries
    [translateAllBatches] allows. *)
Theorem translateBatchWithRetry_total_wait :
  forall env batch targetLang translatedContext maxRetries onWaiting w,
  (forall k, (0 <= random env k < 1)%Q) ->
  exists delta,
    trace (snd (translateBatchWithRetry env batch targetLang
                  translatedContext maxRetries onWaiting w))
    = trace w ++ delta /\
    (0 <= timerTotal delta <= backoffBudget maxRetries)%Q /\
    (maxRetries = 5 -> (timerTotal delta <= 475000)%Q).
Proof.
  intros env batch targetLang translatedContext maxRetries onWaiting w Hrandom.
  destruct (@retry_loop_timers env batch targetLang translatedContext
              maxRetries onWaiting Hrandom (S maxRetries) 0 None w)
    as (delta & Ht & Hpos & Hle).
  exists delta. split; [exact Ht|].
  cbn [Nat.max] in Hle.
  assert (H0 : (backoffBudget 0 == 0)%Q) by reflexivity.
  rewrite H0, Qplus_0_r in Hle.
  split; [split; assumption|].
  intros ->. eapply Qle_trans; [exact Hle|]. vm_compute. discriminate.
Qed.

Lemma translateBatchWithRetry_total_wait_witness :
  exists delta,
    trace (snd (translateBatchWithRetry Sample.envAlways429 Sample.b0
                  Sample.persian [] 5 None Sample.w0))
    = trace Sample.w0 ++ delta /\
    (0 <= timerTotal delta <= backoffBudget 5)%Q /\
    (5 = 5 -> (timerTotal delta <= 475000)%Q).
Proof.
  apply (translateBatchWithRetry_total_wait Sample.envAlways429 Sample.b0
           Sample.persian [] 5 None Sample.w0).
  intros k. cbn. split; [discriminate|reflexivity].
Defined.

(* ===================================================================== *)
(** ** Further properties: the subtitle files *)
(* ===================================================================== *)

Lemma replaceCRLF_no_CR : forall s,
  Forall (fun c => c <> CR) s -> replaceCRLF s = s.
Proof.
  induction 1 as [|c s Hc _ IH]; [reflexivity|].
  cbn [replaceCRLF]. apply N.eqb_neq in Hc. now rewrite Hc, IH.
Qed.

Lemma replaceCR_no_CR : forall s,
  Forall (fun c => c <> CR) s -> replaceCR s = s.
Proof.
  induction 1 as [|c s Hc _ IH]; [reflexivity|].
  unfold replaceCR in *. cbn [map]. apply N.eqb_neq in Hc.
  now rewrite Hc, IH.
Qed.

Lemma normalizedContent_no_CR : forall s,
  Forall (fun c => c <> CR) s -> normalizedContent s = s.
Proof.
  intros s H. unfold normalizedContent.
  now rewrite (replaceCRLF_no_CR H), (replaceCR_no_CR H).
Qed.

Lemma replaceCRLF_withCRLF : forall s,
  Forall (fun c => c <> CR) s -> replaceCRLF (withCRLF s) = s.
Proof.
  induction 1 as [|c s Hc _ IH]; [reflexivity|].
  unfold withCRLF in *. cbn [flat_map].
  destruct (N.eqb_spec c LF) as [->|Hlf].
  - cbn [app replaceCRLF]. cbn. now rewrite IH.
  - cbn [app replaceCRLF]. apply N.eqb_neq in Hc. now rewrite Hc, IH.
Qed.

(** *** Lines *)

Lemma splitLines_loop_line : forall x cur rest,
  Forall (fun c => c <> LF) x ->
  splitLines_loop cur (x ++ LF :: rest)
  = (rev cur ++ x) :: splitLines_loop [] rest.
Proof.
  induction x as [|c x IH]; intros cur rest Hx.
  - cbn. now rewrite app_nil_r.
  - inversion Hx as [|? ? Hc Hx']; subst. cbn [app splitLines_loop].
    apply N.eqb_neq in Hc. rewrite Hc, IH by assumption.
    cbn [rev]. now rewrite <- app_assoc.
Qed.

Lemma splitLines_loop_nonempty : forall s cur, splitLines_loop cur s <> [].
Proof.
  induction s as [|c s IH]; intros cur; cbn; [discriminate|].
  destruct (c =? LF)%N; [discriminate|apply IH].
Qed.

Lemma join_cons_cons : forall sep p q rest,
  join sep (p :: q :: rest) = p ++ sep ++ join sep (q :: rest).
Proof. reflexivity. Qed.

Lemma join_splitLines_loop : forall s cur,
  join [LF] (splitLines_loop cur s) = rev cur ++ s.
Proof.
  induction s as [|c s IH]; intros cur.
  - cbn. now rewrite app_nil_r.
  - cbn [splitLines_loop].
    destruct (N.eqb_spec c LF) as [->|Hc].
    + pose proof (splitLines_loop_nonempty s []) as Hne.
      destruct (splitLines_loop [] s) as [|q rest] eqn:Hs; [contradiction|].
      rewrite join_cons_cons, <- Hs, IH. reflexivity.
    + rewrite IH. cbn [rev]. now rewrite <- app_assoc.
Qed.

Lemma join_splitLines : forall s, join [LF] (splitLines s) = s.
Proof. intros s. apply (join_splitLines_loop s []). Qed.

(** *** Blocks *)

Lemma length_dropWhile : forall p s, length (dropWhile p s) <= length s.
Proof.
  induction s as [|c s IH]; [reflexivity|].
  cbn [dropWhile]. destruct (p c); cbn [length]; lia.
Qed.

Lemma match_blank_shorter : forall s rest,
  match_blank s = Some rest -> length rest < length s.
Proof.
  intros s rest H. unfold match_blank in H.
  destruct s as [|c0 [|c1 s]]; try discriminate.
  destruct (_ && _); [|discriminate]. inversion H; subst.
  pose proof (length_dropWhile (fun c => (c =? LF)%N) s). cbn [length]. lia.
Qed.

Lemma splitBlank_loop_fuel : forall fuel fuel' cur s,
  length s <= fuel -> length s <= fuel' ->
  splitBlank_loop fuel cur s = splitBlank_loop fuel' cur s.
Proof.
  induction fuel as [|fuel IH]; intros fuel' cur s H H'.
  - destruct s; [|simpl in H; lia]. destruct fuel'; simpl; now rewrite ?app_nil_r.
  - destruct fuel' as [|fuel'].
    + destruct s; [|simpl in H'; lia]. simpl; now rewrite ?app_nil_r.
    + cbn [splitBlank_loop]. destruct s as [|c s']; [reflexivity|].
      destruct (match_blank (c :: s')) as [rest|] eqn:E.
      * apply match_blank_shorter in E. f_equal. apply IH; simpl in *; lia.
      * apply IH; simpl in *; lia.
Qed.

Lemma solid_tail : forall c b, solid (c :: b) -> solid b.
Proof.
  intros c b [Hinc Hlast]. split; [eapply includes_tail; eassumption|].
  destruct b as [|c' b]; [now left|right].
  destruct Hlast as [|Hlast]; [discriminate|exact Hlast].
Qed.

Lemma no_blank_inside : forall c b tail,
  solid (c :: b) ->
  (tail = [] \/ exists t, tail = LF :: t) ->
  match_blank ((c :: b) ++ tail) = None.
Proof.
  intros c b tail [Hinc Hlast] Htail.
  destruct Hlast as [|Hlast]; [discriminate|].
  cbn [includes] in Hinc. apply orb_false_iff in Hinc as [Hstart _].
  destruct b as [|c' b].
  - cbn [last] in Hlast. apply N.eqb_neq in Hlast.
    destruct Htail as [->|[t ->]]; cbn [app match_blank]; [reflexivity|].
    now rewrite Hlast.
  - cbn [app match_blank]. cbn [startsWith] in Hstart.
    rewrite andb_true_r in Hstart.
    rewrite (N.eqb_sym c LF), (N.eqb_sym c' LF). now rewrite Hstart.
Qed.

Lemma splitBlank_loop_block : forall b cur rest fuel,
  solid b ->
  dropWhile (fun c => (c =? LF)%N) rest = rest ->
  splitBlank_loop (length b + S fuel) cur (b ++ LF :: LF :: rest)
  = (rev cur ++ b) :: splitBlank_loop fuel [] rest.
Proof.
  induction b as [|c b IH]; intros cur rest fuel Hsolid Hrest.
  - cbn [length Nat.add app splitBlank_loop match_blank].
    rewrite N.eqb_refl. cbn [andb]. now rewrite Hrest, app_nil_r.
  - cbn [length Nat.add splitBlank_loop].
    change ((c :: b) ++ LF :: LF :: rest) with (c :: (b ++ LF :: LF :: rest)).
    cbv iota.
    assert (Hnone : match_blank (c :: (b ++ LF :: LF :: rest)) = None).
    { apply (@no_blank_inside c b (LF :: LF :: rest) Hsolid).
      right. eexists. reflexivity. }
    rewrite Hnone.
    rewrite IH by (try assumption; eapply solid_tail; eassumption).
    cbn [rev]. now rewrite <- app_assoc.
Qed.

Lemma splitBlank_loop_last : forall b cur fuel,
  solid b ->
  splitBlank_loop (length b + fuel) cur b = [rev cur ++ b].
Proof.
  induction b as [|c b IH]; intros cur fuel Hsolid.
  - cbn [length Nat.add]. destruct fuel; cbn; now rewrite ?app_nil_r.
  - cbn [length Nat.add splitBlank_loop].
    pose proof (@no_blank_inside c b [] Hsolid (or_introl eq_refl)) as Hnone.
    rewrite app_nil_r in Hnone. rewrite Hnone.
    rewrite IH by (eapply solid_tail; eassumption).
    cbn [rev]. now rewrite <- app_assoc.
Qed.

(** [splitBlank] undoes [join] on solid blocks that do not start with a line
    feed. *)
Lemma splitBlank_join : forall blocks,
  blocks <> [] ->
  Forall (fun b => solid b /\ b <> [] /\
                   dropWhile (fun c => (c =? LF)%N) b = b) blocks ->
  splitBlank (join [LF; LF] blocks) = blocks.
Proof.
  intros blocks Hne Hsafe. unfold splitBlank.
  assert (Hgen : forall fuel, length (join [LF; LF] blocks) <= fuel ->
            splitBlank_loop fuel [] (join [LF; LF] blocks) = blocks).
  { revert Hne.
    induction Hsafe as [|b blocks (Hb & _ & Hhead) Hrest IH];
      intros Hne fuel Hfuel;
      [congruence|].
    destruct blocks as [|b2 blocks].
    - cbn [join] in *.
      rewrite (@splitBlank_loop_fuel fuel (length b + 0) [] b) by lia.
      now rewrite splitBlank_loop_last.
    - rewrite join_cons_cons in *.
      rewrite !length_app in Hfuel. cbn [length] in Hfuel.
      assert (Hnext : dropWhile (fun c => (c =? LF)%N)
                        (join [LF; LF] (b2 :: blocks))
                      = join [LF; LF] (b2 :: blocks)).
      { inversion Hrest as [|? ? (_ & Hne2 & Hb2) _]; subst.
        destruct blocks as [|b3 blocks]; [exact Hb2|].
        rewrite join_cons_cons, dropWhile_app, Hb2.
        destruct b2 as [|c b2]; [congruence|reflexivity]. }
      rewrite (@splitBlank_loop_fuel fuel
                 (length b + S (1 + length (join [LF; LF] (b2 :: blocks)))) []
                 (b ++ [LF; LF] ++ join [LF; LF] (b2 :: blocks)))
        by (rewrite !length_app; cbn [length]; lia).
      cbn [app].
      rewrite splitBlank_loop_block by assumption.
      cbn [rev app]. f_equal. apply IH; [discriminate|lia]. }
  apply Hgen. lia.
Qed.

(** *** Numbers *)

Lemma isDigit_range : forall c, isDigit c = true -> (48 <= c <= 57)%N.
Proof.
  intros c H. unfold isDigit in H. apply andb_true_iff in H as [H1 H2].
  apply N.leb_le in H1, H2. lia.
Qed.

Lemma isDigit_cases : forall c,
  isDigit c = true ->
  In c [48; 49; 50; 51; 52; 53; 54; 55; 56; 57]%N.
Proof.
  intros c H. apply isDigit_range in H. cbn [In].
  assert (c = 48 \/ c = 49 \/ c = 50 \/ c = 51 \/ c = 52 \/ c = 53 \/ c = 54
          \/ c = 55 \/ c = 56 \/ c = 57)%N as Hc by lia.
  repeat (destruct Hc as [Hc|Hc]; [subst; auto 12|]). subst. auto 12.
Qed.

(** A digit is none of the code units the parser treats specially. *)
Lemma isDigit_plain : forall c,
  isDigit c = true ->
  isWhiteSpace c = false /\ (c =? LF)%N = false /\ (c =? CR)%N = false /\
  (c =? DASH)%N = false /\ (c =? PLUS)%N = false /\ (c =? DOT)%N = false.
Proof.
  intros c H. apply isDigit_cases in H. cbn [In] in H.
  repeat (destruct H as [H|H]; [subst; repeat split; reflexivity|]).
  destruct H.
Qed.

Lemma js_String : forall a s, js (String a s) = N_of_ascii a :: js s.
Proof. reflexivity. Qed.

Ltac read_digit :=
  rewrite js_String; cbn [parseDigits];
  match goal with
  | |- context [N_of_ascii ?a] =>
    let v := eval vm_compute in (N_of_ascii a) in
    change (N_of_ascii a) with v
  end;
  match goal with
  | |- context [isDigit ?c] => change (isDigit c) with true
  end;
  cbv iota.

Lemma parseDigits_uint_acc : forall d acc,
  parseDigits (Npos acc) (js (NilEmpty.string_of_uint d))
  = Npos (Pos.of_uint_acc d acc).
Proof.
  induction d; intros acc; [reflexivity| | | | | | | | | |];
    cbn [NilEmpty.string_of_uint Pos.of_uint_acc];
    read_digit; rewrite <- IHd; f_equal; lia.
Qed.

Lemma parseDigits_uint : forall d,
  parseDigits 0 (js (NilEmpty.string_of_uint d)) = N.of_uint d.
Proof.
  induction d; [reflexivity| | | | | | | | | |];
    cbn [NilEmpty.string_of_uint N.of_uint Pos.of_uint];
    read_digit;
    try exact IHd;
    (etransitivity; [|apply parseDigits_uint_acc]); f_equal.
Qed.

Lemma parseDigits_decimal : forall n, parseDigits 0 (decimal n) = n.
Proof.
  intros n. unfold decimal. rewrite parseDigits_uint.
  apply DecimalN.Unsigned.of_to.
Qed.

Lemma trim_fixed : forall c s,
  isWhiteSpace c = false -> trimEnd (c :: s) = c :: s -> trim (c :: s) = c :: s.
Proof.
  intros c s Hc Hend. rewrite trim_trimEnd_dropWhile.
  cbn [dropWhile]. now rewrite Hc.
Qed.

Lemma trimEnd_digits : forall ds,
  Forall (fun c => isDigit c = true) ds -> trimEnd ds = ds.
Proof.
  induction 1 as [|c ds Hc _ IH]; [reflexivity|].
  rewrite trimEnd_cons, IH. destruct ds; [|reflexivity].
  now rewrite (proj1 (isDigit_plain _ Hc)).
Qed.

(** [parseInt] reads back the number a template literal prints. *)
Lemma parseInt_showZ : forall z,
  (1 <= z)%Z -> parseInt (trim (showZ z)) = Some z.
Proof.
  intros z Hz. destruct z as [|p|p]; try lia.
  unfold showZ. change (Z.to_N (Z.pos p)) with (N.pos p).
  destruct (decimal_digits (N.pos p)) as [Hdigits Hne].
  pose proof (parseDigits_decimal (N.pos p)) as Hvalue.
  destruct (decimal (N.pos p)) as [|c ds] eqn:Hd; [congruence|].
  inversion Hdigits as [|? ? Hc Hds]; subst.
  destruct (isDigit_plain _ Hc) as (Hws & _ & _ & Hdash & Hplus & _).
  rewrite trim_fixed by (try assumption; now apply trimEnd_digits).
  unfold parseInt. cbn [dropWhile]. rewrite Hws, Hdash, Hplus, Hc, Hvalue.
  reflexivity.
Qed.

(** *** Timestamps *)

(** A timestamp of the shape the parser recognises, as [generateSRT] writes
    it: its digits, with a comma before the milliseconds. *)
Lemma written_time : forall t,
  timeShape t = true ->
  exists h1 h2 m1 m2 s1 s2 f1 f2 f3,
    replaceFirst DOT COMMA t
    = [h1; h2; COLON; m1; m2; COLON; s1; s2; COMMA; f1; f2; f3] /\
    Forall (fun c => isDigit c = true) [h1; h2; m1; m2; s1; s2; f1; f2; f3].
Proof.
  intros t H. unfold timeShape, match_time in H.
  do 12 (destruct t as [|? t]; [discriminate|]).
  destruct t; [|destruct (_ && _); discriminate].
  match type of H with (match (if ?b then _ else _) with _ => _ end) = _ =>
    destruct b eqn:Hshape; [|discriminate]
  end.
  repeat match goal with
         | H : _ && _ = true |- _ => apply andb_true_iff in H as [? ?]
         end.
  repeat match goal with
         | H : (_ =? COLON)%N = true |- _ => apply N.eqb_eq in H; subst
         end.
  repeat match goal with
         | H : isDigit ?c = true |- _ =>
           pose proof (proj2 (proj2 (proj2 (proj2 (proj2 (isDigit_plain _ H))))));
           revert H
         end.
  intros.
  do 9 eexists. split.
  - cbn [replaceFirst].
    repeat match goal with
           | H : (?c =? DOT)%N = false |- _ => rewrite H; clear H
           end.
    change (COLON =? DOT)%N with false. cbv iota.
    match goal with
    | H : (?p =? COMMA)%N || (?p =? DOT)%N = true |- _ =>
      destruct (N.eqb_spec p DOT) as [->|Hdot];
        [|rewrite orb_false_r in H; apply N.eqb_eq in H; subst p;
          change (COMMA =? DOT)%N with false; cbv iota]
    end.
    + reflexivity.
    + repeat match goal with
             | H : (?c =? DOT)%N = false |- _ => rewrite H; clear H
             end.
      reflexivity.
  - repeat constructor; assumption.
Qed.

Ltac split_digits :=
  repeat match goal with
         | H : Forall _ (_ :: _) |- _ => inversion H; clear H; subst
         | H : Forall _ [] |- _ => clear H
         end.

Ltac use_digits :=
  repeat match goal with
         | H : isDigit ?c = true |- context [isDigit ?c] => rewrite H
         | H : isDigit ?c = true |- context [isWhiteSpace ?c] =>
           rewrite (proj1 (isDigit_plain _ H))
         end.

Ltac eval_chars :=
  repeat match goal with
         | |- context [isWhiteSpace (N.pos ?p)] =>
           let v := eval vm_compute in (isWhiteSpace (N.pos p)) in
           change (isWhiteSpace (N.pos p)) with v
         | |- context [isDigit (N.pos ?p)] =>
           let v := eval vm_compute in (isDigit (N.pos p)) in
           change (isDigit (N.pos p)) with v
         | |- context [(N.pos ?p =? N.pos ?q)%N] =>
           let v := eval vm_compute in (N.pos p =? N.pos q)%N in
           change (N.pos p =? N.pos q)%N with v
         end.

Ltac crunch :=
  repeat first
    [ progress use_digits
    | progress eval_chars
    | progress cbn [andb orb dropWhile app rev] ].

(** The timestamp line [generateSRT] writes is read back as its two
    timestamps. *)
Lemma stamp_line_read : forall t1 t2,
  timeShape t1 = true -> timeShape t2 = true ->
  let line :=
    replaceFirst DOT COMMA t1 ++ js " --> " ++ replaceFirst DOT COMMA t2 in
  trim line = line /\
  search_stamp line
  = Some (replaceFirst DOT COMMA t1, replaceFirst DOT COMMA t2) /\
  Forall (fun c => c <> LF /\ c <> CR) line.
Proof.
  intros t1 t2 H1 H2 line. subst line.
  destruct (written_time _ H1)
    as (a1 & a2 & a3 & a4 & a5 & a6 & a7 & a8 & a9 & -> & Ha).
  destruct (written_time _ H2)
    as (b1 & b2 & b3 & b4 & b5 & b6 & b7 & b8 & b9 & -> & Hb).
  split_digits.
  change (js " --> ") with [32; 45; 45; 62; 32]%N.
  unfold COLON, COMMA, DOT, DASH, GT, LF, CR in *.
  repeat split.
  - unfold trim. crunch. reflexivity.
  - cbn [app search_stamp].
    unfold match_stamp, match_time.
    unfold COLON, COMMA, DOT, DASH, GT, LF, CR in *.
    crunch. reflexivity.
  - cbn [app].
    repeat constructor;
      try discriminate;
      match goal with
      | H : isDigit ?c = true |- ?c <> 10%N =>
        destruct (isDigit_plain _ H) as (_ & Hlf & _);
        now apply N.eqb_neq in Hlf
      | H : isDigit ?c = true |- ?c <> 13%N =>
        destruct (isDigit_plain _ H) as (_ & _ & Hcr & _);
        now apply N.eqb_neq in Hcr
      end.
Qed.

(** *** Cues *)

Lemma includes_skip_nonLF : forall pre s,
  Forall (fun c => c <> LF) pre ->
  includes (pre ++ s) [LF; LF] = includes s [LF; LF].
Proof.
  induction 1 as [|c pre Hc _ IH]; [reflexivity|].
  cbn [app includes startsWith]. apply N.eqb_neq in Hc.
  rewrite (N.eqb_sym LF c), Hc. cbn [andb orb]. exact IH.
Qed.

Lemma last_app_nonempty : forall (x y : jsstring) d,
  y <> [] -> last (x ++ y) d = last y d.
Proof.
  induction x as [|c x IH]; intros y d Hy; [reflexivity|].
  cbn [app]. specialize (IH y d Hy).
  destruct (x ++ y) as [|c' r] eqn:Hxy.
  - destruct x; [cbn in Hxy; congruence|discriminate].
  - cbn [last]. exact IH.
Qed.

Lemma trimEnd_shorter : forall s, length (trimEnd s) <= length s.
Proof.
  intros s. unfold trimEnd. rewrite length_rev.
  etransitivity; [apply length_dropWhile|]. now rewrite length_rev.
Qed.

(** A string that [trimEnd] leaves alone does not end with white space. *)
Lemma trimEnd_fixed_last : forall t,
  t <> [] -> trimEnd t = t -> isWhiteSpace (last t 0%N) = false.
Proof.
  intros t Hne Hfix.
  destruct (exists_last Hne) as (t0 & z & ->).
  rewrite last_last.
  destruct (isWhiteSpace z) eqn:Hz; [|reflexivity].
  exfalso. unfold trimEnd in Hfix. rewrite rev_app_distr in Hfix.
  cbn [rev app dropWhile] in Hfix. rewrite Hz in Hfix.
  apply (f_equal (@length _)) in Hfix.
  rewrite length_rev, length_app in Hfix. cbn [length] in Hfix.
  pose proof (length_dropWhile isWhiteSpace (rev t0)) as Hle.
  rewrite length_rev in Hle. lia.
Qed.

Lemma trimEnd_app_fixed : forall x y,
  y <> [] -> trimEnd y = y -> trimEnd (x ++ y) = x ++ y.
Proof.
  intros x y Hne Hfix. rewrite trimEnd_app, Hfix.
  destruct y; [congruence|reflexivity].
Qed.

Lemma digits_plain : forall ds,
  Forall (fun c => isDigit c = true) ds ->
  Forall (fun c => c <> LF /\ c <> CR) ds.
Proof.
  intros ds H. eapply Forall_impl; [|exact H].
  intros c Hc. destruct (isDigit_plain _ Hc) as (_ & Hlf & Hcr & _).
  apply N.eqb_neq in Hlf, Hcr. now split.
Qed.

Lemma cue_index : forall a b entry i,
  index entry <> 0%Z -> cue a b entry i = cue a b entry 0.
Proof.
  intros a b entry i H. unfold cue.
  apply Z.eqb_neq in H. now rewrite H.
Qed.

(** The cue [generateSRT] writes for a writable entry is a block
    [parseSRT] reads back. *)
Lemma cue_read : forall entry i,
  writable entry ->
  let block := cue DOT COMMA entry i in
  parseSRT_block block = Some (withCommas entry) /\
  solid block /\
  dropWhile (fun c => (c =? LF)%N) block = block /\
  Forall (fun c => c <> CR) block /\
  trimEnd block = block /\
  exists c rest, block = c :: rest /\ isWhiteSpace c = false.
Proof.
  intros entry i (Hindex & Hstart & Hend & Htext & Hfix & Hblank & Hcr) block.
  subst block. unfold cue.
  assert (Hnz : (index entry =? 0)%Z = false) by (apply Z.eqb_neq; lia).
  rewrite Hnz.
  destruct (stamp_line_read _ _ Hstart Hend) as (Htrim & Hsearch & Hplain).
  set (line := replaceFirst DOT COMMA (startTime entry) ++ js " --> "
               ++ replaceFirst DOT COMMA (endTime entry)) in *.
  replace (replaceFirst DOT COMMA (startTime entry) ++ js " --> "
           ++ replaceFirst DOT COMMA (endTime entry) ++ LF :: text entry)
    with (line ++ LF :: text entry)
    by (subst line; now rewrite <- !app_assoc).
  clearbody line.
  assert (Hdigits : Forall (fun c => isDigit c = true) (showZ (index entry))
                    /\ showZ (index entry) <> []).
  { destruct (index entry) as [|p|p]; try lia. apply decimal_digits. }
  destruct Hdigits as [Hdigits Hnum].
  pose proof (digits_plain Hdigits) as Hnumplain.
  pose proof (parseInt_showZ (proj1 Hindex)) as Hint.
  set (number := showZ (index entry)) in *.
  assert (HlineLF : Forall (fun c => c <> LF) line)
    by (eapply Forall_impl; [|exact Hplain]; now intros c []).
  assert (HnumLF : Forall (fun c => c <> LF) number)
    by (eapply Forall_impl; [|exact Hnumplain]; now intros c []).
  assert (Hend' : trimEnd (number ++ LF :: line ++ LF :: text entry)
                  = number ++ LF :: line ++ LF :: text entry).
  { change (number ++ LF :: line ++ LF :: text entry)
      with (number ++ [LF] ++ line ++ [LF] ++ text entry).
    rewrite !app_assoc. now apply trimEnd_app_fixed. }
  assert (Hhead : exists c rest,
            number ++ LF :: line ++ LF :: text entry = c :: rest /\
            isDigit c = true).
  { destruct number as [|c ds]; [congruence|].
    inversion Hdigits; subst. eexists _, _. split; [reflexivity|assumption]. }
  destruct Hhead as (c & rest & Hblock & Hc).
  destruct (isDigit_plain _ Hc) as (Hws & Hlf & _).
  split; [|split; [|split; [|split; [|split]]]].
  - unfold parseSRT_block.
    rewrite Hblock, trim_fixed by (rewrite <- ?Hblock; assumption).
    rewrite <- Hblock. unfold splitLines.
    rewrite (splitLines_loop_line [] _ HnumLF).
    rewrite (splitLines_loop_line [] _ HlineLF).
    cbn [rev app].
    pose proof (splitLines_loop_nonempty (text entry) []) as Hlines.
    pose proof (join_splitLines_loop (text entry) []) as Hjoin.
    destruct (splitLines_loop [] (text entry)) as [|l ls]; [congruence|].
    cbn [length Nat.ltb Nat.leb]. rewrite Hint, Htrim, Hsearch, Hjoin.
    reflexivity.
  - split.
    + rewrite (includes_skip_nonLF _ HnumLF).
      cbn [includes startsWith].
      destruct line as [|c0 line']; [discriminate|].
      inversion HlineLF as [|? ? Hc0 Hline']; subst.
      apply N.eqb_neq in Hc0. cbn [app].
      rewrite N.eqb_refl, (N.eqb_sym LF c0), Hc0.
      cbn [andb orb].
      change (c0 :: line' ++ LF :: text entry)
        with ((c0 :: line') ++ LF :: text entry).
      rewrite (includes_skip_nonLF _ HlineLF). exact Hblank.
    + right.
      change (number ++ LF :: line ++ LF :: text entry)
        with (number ++ [LF] ++ line ++ [LF] ++ text entry).
      rewrite !app_assoc, last_app_nonempty by assumption.
      intros Hlast. pose proof (trimEnd_fixed_last Htext Hfix) as Hnot.
      rewrite Hlast in Hnot. discriminate.
  - rewrite Hblock. cbn [dropWhile]. now rewrite Hlf.
  - apply Forall_app. split.
    { eapply Forall_impl; [|exact Hnumplain]. now intros ? []. }
    constructor; [discriminate|]. apply Forall_app. split.
    { eapply Forall_impl; [|exact Hplain]. now intros ? []. }
    constructor; [discriminate|exact Hcr].
  - exact Hend'.
  - exists c, rest. split; assumption.
Qed.

Lemma Forall_join : forall (P : char -> Prop) sep parts,
  Forall P sep -> Forall (Forall P) parts -> Forall P (join sep parts).
Proof.
  intros P sep parts Hsep Hparts.
  induction Hparts as [|p parts Hp Hrest IH]; [constructor|].
  destruct parts as [|q parts]; [exact Hp|].
  rewrite join_cons_cons. apply Forall_app. split; [exact Hp|].
  apply Forall_app. split; [exact Hsep|exact IH].
Qed.

Lemma trimEnd_join : forall sep parts,
  parts <> [] ->
  Forall (fun p => p <> [] /\ trimEnd p = p) parts ->
  join sep parts <> [] /\ trimEnd (join sep parts) = join sep parts.
Proof.
  intros sep parts Hne Hparts. revert Hne.
  induction Hparts as [|p parts [Hp Hfix] Hrest IH]; intros Hne; [congruence|].
  destruct parts as [|q parts]; [cbn [join]; now split|].
  rewrite join_cons_cons.
  destruct IH as [IHne IHfix]; [discriminate|].
  split.
  - destruct p; [congruence|discriminate].
  - rewrite app_assoc. now apply trimEnd_app_fixed.
Qed.

(** The blocks [generateSRT] writes for writable entries, read one by
    one. *)
Lemma cues_read : forall entries i,
  Forall writable entries ->
  let blocks := mapi_from (cue DOT COMMA) i entries in
  (forall acc, parseSRT_loop blocks acc = acc ++ map withCommas entries) /\
  Forall (fun b => solid b /\ b <> [] /\
                   dropWhile (fun c => (c =? LF)%N) b = b) blocks /\
  Forall (Forall (fun c => c <> CR)) blocks /\
  Forall (fun b => b <> [] /\ trimEnd b = b) blocks /\
  (entries <> [] ->
   exists c rest, join [LF; LF] blocks = c :: rest /\ isWhiteSpace c = false).
Proof.
  intros entries i H. revert i.
  induction H as [|entry entries Hentry _ IH]; intros i blocks; subst blocks.
  - cbn [mapi_from map parseSRT_loop].
    split; [intros acc; now rewrite app_nil_r|].
    repeat split; try constructor. congruence.
  - cbn [mapi_from map parseSRT_loop].
    destruct (cue_read i Hentry)
      as (Hread & Hsolid & Hhead & Hcr & Hfix & c & rest & Hblock & Hc).
    destruct (IH (S i)) as (IHread & IHsolid & IHcr & IHfix & _).
    assert (Hne : cue DOT COMMA entry i <> []) by (rewrite Hblock; discriminate).
    split; [|split; [|split; [|split]]].
    + intros acc. rewrite Hread, IHread, <- app_assoc. reflexivity.
    + constructor; [|exact IHsolid].
      split; [exact Hsolid|split; assumption].
    + constructor; assumption.
    + constructor; [|exact IHfix]. split; assumption.
    + intros _. rewrite Hblock.
      destruct (mapi_from (cue DOT COMMA) (S i) entries);
        [cbn [join]|rewrite join_cons_cons; cbn [app]];
        eexists _, _; (split; [reflexivity|exact Hc]).
Qed.

(** X21.  Writing and reading back an SRT file.  For entries numbered from
    1 up, with timestamps in the shape the parser recognises and a text that
    is not empty, has no white space at its end, no carriage return and no
    empty line, [parseSRT] reads from the file [generateSRT] writes exactly
    these entries, their timestamps written with a comma. *)
Theorem parseSRT_generateSRT : forall entries,
  Forall writable entries ->
  parseSRT (generateSRT entries)
  = mkParsedSubtitle srt [] (map withCommas entries).
Proof.
  intros entries H.
  destruct entries as [|entry entries]; [reflexivity|].
  destruct (cues_read 0 H) as (Hread & Hsolid & Hcr & Hfix & Hhead).
  destruct Hhead as (c & rest & Hjoin & Hc); [discriminate|].
  unfold parseSRT, generateSRT.
  set (blocks := mapi_from (cue DOT COMMA) 0 (entry :: entries)) in *.
  assert (Hne : blocks <> []) by (subst blocks; discriminate).
  rewrite normalizedContent_no_CR
    by (apply Forall_join; [repeat constructor; discriminate|exact Hcr]).
  destruct (trimEnd_join [LF; LF] Hne Hfix) as [_ Hend].
  rewrite Hjoin in Hend |- *. rewrite (trim_fixed Hc Hend), <- Hjoin.
  rewrite (splitBlank_join Hne Hsolid), (Hread []). reflexivity.
Qed.

Lemma parseSRT_generateSRT_witness :
  parseSRT (generateSRT [Sample.e1; Sample.e2])
  = mkParsedSubtitle srt [] (map withCommas [Sample.e1; Sample.e2]).
Proof.
  apply parseSRT_generateSRT.
  repeat constructor; try reflexivity; try discriminate.
Defined.

(** *** What [parseSRT] returns *)

Lemma match_time_shape : forall s t rest,
  match_time s = Some (t, rest) -> timeShape t = true.
Proof.
  intros s t rest H. unfold match_time in H.
  do 12 (destruct s as [|? s]; [discriminate|]).
  match type of H with (if ?b then _ else _) = _ =>
    destruct b eqn:Hshape; [|discriminate]
  end.
  inversion H; subst. unfold timeShape, match_time. now rewrite Hshape.
Qed.

Lemma search_stamp_shape : forall s t1 t2,
  search_stamp s = Some (t1, t2) ->
  timeShape t1 = true /\ timeShape t2 = true.
Proof.
  induction s as [|c s IH]; intros t1 t2 H; cbn [search_stamp] in H.
  - discriminate.
  - destruct (match_stamp (c :: s)) as [[u1 u2]|] eqn:Hm; [|now apply IH].
    inversion H; subst. unfold match_stamp in Hm.
    destruct (match_time (c :: s)) as [[v1 r1]|] eqn:H1; [|discriminate].
    destruct (dropWhile isWhiteSpace r1) as [|a [|b [|d r2]]]; try discriminate.
    destruct (_ && _); [|discriminate].
    destruct (match_time (dropWhile isWhiteSpace r2)) as [[v2 r3]|] eqn:H2;
      [|discriminate].
    inversion Hm; subst.
    split; eapply match_time_shape; eassumption.
Qed.

Lemma dropWhile_suffix : forall p s, exists pre, s = pre ++ dropWhile p s.
Proof.
  induction s as [|c s [pre IH]]; [now exists []|].
  cbn [dropWhile]. destruct (p c); [|now exists []].
  exists (c :: pre). cbn [app]. now rewrite <- IH.
Qed.

Lemma trimEnd_prefix : forall s, exists post, s = trimEnd s ++ post.
Proof.
  intros s. unfold trimEnd.
  destruct (dropWhile_suffix isWhiteSpace (rev s)) as [pre H].
  exists (rev pre). rewrite <- rev_app_distr, <- H. now rewrite rev_involutive.
Qed.

(** [trim] keeps a segment of its argument. *)
Lemma trim_segment : forall s, exists pre post, s = pre ++ trim s ++ post.
Proof.
  intros s. rewrite trim_trimEnd_dropWhile.
  destruct (dropWhile_suffix isWhiteSpace s) as [pre Hpre].
  destruct (trimEnd_prefix (dropWhile isWhiteSpace s)) as [post Hpost].
  exists pre, post. now rewrite <- Hpost.
Qed.

Lemma trimEnd_trim : forall s, trimEnd (trim s) = trim s.
Proof.
  intros s. rewrite trim_trimEnd_dropWhile. apply trimEnd_idempotent.
Qed.

Lemma startsWith_app : forall p u v,
  startsWith p u = true -> startsWith p (u ++ v) = true.
Proof.
  induction p as [|a p IH]; intros u v H; [reflexivity|].
  destruct u as [|b u]; [discriminate|].
  cbn [startsWith app] in *. apply andb_true_iff in H as [Hab Hrest].
  now rewrite Hab, (IH _ _ Hrest).
Qed.

Lemma includes_app_l : forall u v p,
  includes (u ++ v) p = false -> includes u p = false.
Proof.
  induction u as [|c u IH]; intros v p H.
  - cbn [includes]. rewrite orb_false_r.
    destruct (startsWith p []) eqn:Hs; [|reflexivity].
    apply (startsWith_app _ _ v) in Hs. cbn [app] in H, Hs.
    destruct v; cbn [includes] in H; rewrite Hs in H; discriminate.
  - cbn [app includes] in *. apply orb_false_iff in H as [Hs Hrest].
    rewrite (IH _ _ Hrest), orb_false_r.
    destruct (startsWith p (c :: u)) eqn:Hs'; [|reflexivity].
    apply (startsWith_app _ _ v) in Hs'. cbn [app] in Hs'. congruence.
Qed.

Lemma includes_app_r : forall u v p,
  includes (u ++ v) p = false -> includes v p = false.
Proof.
  induction u as [|c u IH]; intros v p H; [exact H|].
  apply IH. eapply includes_tail. exact H.
Qed.

Lemma includes_segment : forall pre s post p,
  includes (pre ++ s ++ post) p = false -> includes s p = false.
Proof.
  intros pre s post p H. apply includes_app_r in H.
  now apply includes_app_l in H.
Qed.

Lemma includes_blank_short : forall s,
  length s <= 1 -> includes s [LF; LF] = false.
Proof.
  intros [|c [|d s]] H; cbn in H; try lia; cbn [includes startsWith];
    rewrite ?andb_false_r; reflexivity.
Qed.

Lemma includes_blank_snoc : forall u c d,
  includes (u ++ [c]) [LF; LF] = false ->
  (c =? LF)%N && (d =? LF)%N = false ->
  includes (u ++ [c; d]) [LF; LF] = false.
Proof.
  induction u as [|x u IH]; intros c d H Hcd.
  - cbn [app includes startsWith].
    rewrite (N.eqb_sym LF c), (N.eqb_sym LF d), andb_true_r, Hcd.
    rewrite ?andb_false_r. reflexivity.
  - cbn [app includes] in *. apply orb_false_iff in H as [Hs Hrest].
    rewrite (IH _ _ Hrest Hcd), orb_false_r.
    destruct u as [|y u]; cbn [app startsWith] in *.
    + rewrite andb_true_r in *.
      destruct (LF =? x)%N; [|reflexivity]. cbn [andb] in *.
      now rewrite Hs.
    + exact Hs.
Qed.

(** The pieces [splitBlank] returns hold no empty line. *)
Lemma splitBlank_loop_solid : forall fuel cur s,
  length s <= fuel ->
  includes (rev cur ++ firstn 1 s) [LF; LF] = false ->
  Forall (fun b => includes b [LF; LF] = false) (splitBlank_loop fuel cur s).
Proof.
  induction fuel as [|fuel IH]; intros cur s Hfuel Hinv.
  - destruct s; [|cbn in Hfuel; lia]. cbn. constructor; [exact Hinv|constructor].
  - cbn [splitBlank_loop]. destruct s as [|c s'].
    + cbn [firstn] in Hinv. rewrite app_nil_r in Hinv.
      constructor; [exact Hinv|constructor].
    + cbn [firstn] in Hinv.
      destruct (match_blank (c :: s')) as [rest|] eqn:Hm.
      * constructor; [eapply includes_app_l; exact Hinv|].
        apply match_blank_shorter in Hm. cbn [length] in *.
        apply IH; [lia|].
        apply includes_blank_short. cbn [rev app].
        destruct rest; cbn; lia.
      * cbn [length] in Hfuel. apply IH; [lia|].
        cbn [rev]. rewrite <- app_assoc. cbn [app].
        destruct s' as [|d s'']; [cbn [firstn]; exact Hinv|].
        cbn [firstn]. apply includes_blank_snoc; [exact Hinv|].
        unfold match_blank in Hm.
        destruct ((c =? LF)%N && (d =? LF)%N); [discriminate|reflexivity].
Qed.

Lemma Forall_dropWhile : forall (P : char -> Prop) p s,
  Forall P s -> Forall P (dropWhile p s).
Proof.
  intros P p s H. destruct (dropWhile_suffix p s) as [pre Hs].
  rewrite Hs in H. now apply Forall_app in H.
Qed.

Lemma Forall_trim : forall (P : char -> Prop) s,
  Forall P s -> Forall P (trim s).
Proof.
  intros P s H. destruct (trim_segment s) as (pre & post & Hs).
  rewrite Hs in H. apply Forall_app in H as [_ H].
  now apply Forall_app in H.
Qed.

Lemma Forall_splitBlank_loop : forall (P : char -> Prop) fuel cur s,
  Forall P cur -> Forall P s ->
  Forall (Forall P) (splitBlank_loop fuel cur s).
Proof.
  intros P. induction fuel as [|fuel IH]; intros cur s Hcur Hs.
  - cbn. constructor; [|constructor].
    apply Forall_app. split; [now apply Forall_rev|assumption].
  - cbn [splitBlank_loop]. destruct s as [|c s'].
    + constructor; [now apply Forall_rev|constructor].
    + inversion Hs as [|? ? Hc Hs']; subst.
      destruct (match_blank (c :: s')) as [rest|] eqn:Hm.
      * constructor; [now apply Forall_rev|].
        apply IH; [constructor|].
        unfold match_blank in Hm. destruct s' as [|d s'']; [discriminate|].
        destruct (_ && _); [|discriminate]. inversion Hm; subst.
        apply Forall_dropWhile. now inversion Hs'.
      * apply IH; [now constructor|assumption].
Qed.

Lemma Forall_splitLines_loop : forall (P : char -> Prop) s cur,
  Forall P cur -> Forall P s -> Forall (Forall P) (splitLines_loop cur s).
Proof.
  intros P. induction s as [|c s IH]; intros cur Hcur Hs.
  - cbn. constructor; [now apply Forall_rev|constructor].
  - inversion Hs; subst. cbn [splitLines_loop].
    destruct (c =? LF)%N.
    + constructor; [now apply Forall_rev|]. apply IH; [constructor|assumption].
    + apply IH; [now constructor|assumption].
Qed.

Lemma normalizedContent_plain : forall content,
  Forall (fun c => c <> CR) (normalizedContent content).
Proof.
  intros content. unfold normalizedContent, replaceCR.
  apply Forall_map, Forall_forall. intros c _.
  destruct (N.eqb_spec c CR); [discriminate|assumption].
Qed.

(** What a block gives when it gives an entry. *)
Lemma parseSRT_block_entry : forall block entry,
  parseSRT_block block = Some entry ->
  includes block [LF; LF] = false ->
  Forall (fun c => c <> CR) block ->
  timeShape (startTime entry) = true /\
  timeShape (endTime entry) = true /\
  text entry <> [] /\
  trimEnd (text entry) = text entry /\
  includes (LF :: text entry) [LF; LF] = false /\
  Forall (fun c => c <> CR) (text entry).
Proof.
  intros block entry H Hblank Hcr. unfold parseSRT_block in H.
  pose proof (join_splitLines (trim block)) as Hjoin.
  pose proof (@Forall_splitLines_loop _ (trim block) [] (Forall_nil _)
                (Forall_trim Hcr)) as Hlines.
  fold (splitLines (trim block)) in Hlines.
  destruct (splitLines (trim block)) as [|line0 [|line1 [|line2 textLines]]];
    try discriminate.
  cbn [length Nat.ltb Nat.leb] in H.
  destruct (parseInt (trim line0)) as [index|]; [|discriminate].
  destruct (search_stamp (trim line1)) as [[t1 t2]|] eqn:Hstamp;
    [|discriminate].
  inversion H; subst entry. cbn [startTime endTime text].
  apply search_stamp_shape in Hstamp as [Ht1 Ht2].
  rewrite !join_cons_cons in Hjoin.
  set (txt := join [LF] (line2 :: textLines)) in *.
  assert (Hseg : trim block = (line0 ++ [LF] ++ line1) ++ [LF] ++ txt)
    by (rewrite <- Hjoin, <- !app_assoc; reflexivity).
  pose proof (trimEnd_trim block) as Hfix. rewrite Hseg in Hfix.
  destruct (trim_segment block) as (pre & post & Hblock).
  rewrite Hblock in Hblank. apply includes_segment in Hblank.
  rewrite Hseg in Hblank. apply includes_app_r in Hblank.
  assert (Htxt : Forall (fun c => c <> CR) txt).
  { subst txt. apply Forall_join; [repeat constructor; discriminate|].
    inversion Hlines as [|? ? _ Hl1]; subst.
    inversion Hl1 as [|? ? _ Hl2]; subst. exact Hl2. }
  assert (Hend : txt <> [] /\ trimEnd txt = txt).
  { rewrite app_assoc, trimEnd_app in Hfix.
    destruct (trimEnd txt) as [|c r] eqn:Ht.
    - exfalso.
      pose proof (trimEnd_shorter ((line0 ++ [LF] ++ line1) ++ [LF])) as Hle.
      rewrite Hfix in Hle. rewrite !length_app in Hle.
      assert (txt = []) by (destruct txt; [reflexivity|cbn [length] in Hle; lia]).
      subst txt. rewrite H0 in Hfix. rewrite app_nil_r in Hfix.
      assert (Hne : (line0 ++ [LF] ++ line1) ++ [LF] <> [])
        by (intros Heq; apply app_eq_nil in Heq as [_ Heq]; discriminate).
      pose proof (trimEnd_fixed_last Hne Hfix) as Hlast.
      rewrite last_last in Hlast. discriminate.
    - apply app_inv_head in Hfix. split; [|exact Hfix].
      rewrite <- Hfix. discriminate. }
  destruct Hend as [Hne Hend].
  repeat split; assumption.
Qed.

Lemma parseSRT_loop_entries : forall blocks acc entry,
  In entry (parseSRT_loop blocks acc) ->
  In entry acc \/
  exists block, In block blocks /\ parseSRT_block block = Some entry.
Proof.
  induction blocks as [|block blocks IH]; intros acc entry H; [now left|].
  cbn [parseSRT_loop] in H.
  destruct (parseSRT_block block) as [e|] eqn:Hb.
  - apply IH in H as [H|(b & Hin & Hb')].
    + apply in_app_or in H as [H|[<-|[]]]; [now left|].
      right. exists block. split; [now left|exact Hb].
    + right. exists b. split; [now right|exact Hb'].
  - apply IH in H as [H|(b & Hin & Hb')]; [now left|].
    right. exists b. split; [now right|exact Hb'].
Qed.

(** X22.  Whatever the content of the file, every entry [parseSRT] returns
    has timestamps in the shape the parser recognises and a text that is not
    empty, has no white space at its end, no carriage return and no empty
    line: everything [generateSRT] needs, but for the number, to write the
    entry as a block that is read back. *)
Theorem parseSRT_entries_wellformed : forall content entry,
  In entry (subtitleEntries (parseSRT content)) ->
  timeShape (startTime entry) = true /\
  timeShape (endTime entry) = true /\
  text entry <> [] /\
  trimEnd (text entry) = text entry /\
  includes (LF :: text entry) [LF; LF] = false /\
  Forall (fun c => c <> CR) (text entry).
Proof.
  intros content entry H. unfold parseSRT in H. cbn [subtitleEntries] in H.
  apply parseSRT_loop_entries in H as [[]|(block & Hin & Hblock)].
  set (s := trim (normalizedContent content)) in *.
  assert (Hplain : Forall (fun c => c <> CR) s)
    by (apply Forall_trim, normalizedContent_plain).
  pose proof (@splitBlank_loop_solid (length s) [] s (le_n _)
                (includes_blank_short (firstn 1 s)
                   (firstn_le_length 1 s))) as Hsolid.
  pose proof (@Forall_splitBlank_loop _ (length s) [] s (Forall_nil _) Hplain)
    as Hcr.
  fold (splitBlank s) in Hsolid, Hcr.
  rewrite Forall_forall in Hsolid, Hcr.
  exact (parseSRT_block_entry Hblock (Hsolid _ Hin) (Hcr _ Hin)).
Qed.

Lemma parseSRT_entries_wellformed_witness :
  let content :=
    js ("1" ++ Sample.nl ++ "00:00:01.000-->00:00:02.500" ++ Sample.nl
        ++ "Hello " ++ Sample.nl ++ Sample.nl ++ Sample.nl) in
  let entry := mkEntry 1 (js "00:00:01.000") (js "00:00:02.500") (js "Hello") in
  timeShape (startTime entry) = true /\
  timeShape (endTime entry) = true /\
  text entry <> [] /\
  trimEnd (text entry) = text entry /\
  includes (LF :: text entry) [LF; LF] = false /\
  Forall (fun c => c <> CR) (text entry).
Proof.
  intros content entry.
  apply (parseSRT_entries_wellformed content entry).
  vm_compute. left. reflexivity.
Defined.

(** *** Line endings *)

Lemma replaceCRLF_no_LF : forall s,
  Forall (fun c => c <> LF) s -> replaceCRLF s = s.
Proof.
  induction 1 as [|c s Hc Hs IH]; [reflexivity|].
  cbn [replaceCRLF]. rewrite IH.
  destruct (c =? CR)%N; [|reflexivity].
  destruct s as [|c' s']; [reflexivity|].
  inversion Hs as [|? ? Hc' _]; subst. apply N.eqb_neq in Hc'.
  now rewrite Hc'.
Qed.

Lemma normalizedContent_withCR : forall s,
  Forall (fun c => c <> CR) s -> normalizedContent (withCR s) = s.
Proof.
  intros s H. unfold normalizedContent.
  rewrite replaceCRLF_no_LF.
  - unfold replaceCR, withCR. rewrite map_map.
    induction H as [|c s Hc _ IH]; [reflexivity|].
    cbn [map]. rewrite IH. f_equal.
    destruct (N.eqb_spec c LF) as [->|Hlf]; [reflexivity|].
    apply N.eqb_neq in Hc. now rewrite Hc.
  - unfold withCR. apply Forall_map, Forall_forall. intros c _.
    destruct (N.eqb_spec c LF); [discriminate|assumption].
Qed.

Lemma normalizedContent_withCRLF : forall s,
  Forall (fun c => c <> CR) s -> normalizedContent (withCRLF s) = s.
Proof.
  intros s H. unfold normalizedContent.
  now rewrite (replaceCRLF_withCRLF H), (replaceCR_no_CR H).
Qed.

(** X23.  The entries [parseSRT] reads do not depend on how the lines of
    the file end: a file whose lines end with carriage return and line feed,
    or with carriage return alone, is read as the file whose lines end with
    line feed. *)
Theorem parseSRT_line_endings : forall content,
  Forall (fun c => c <> CR) content ->
  parseSRT (withCRLF content) = parseSRT content /\
  parseSRT (withCR content) = parseSRT content.
Proof.
  intros content H. unfold parseSRT.
  now rewrite (normalizedContent_withCRLF H), (normalizedContent_withCR H),
    (normalizedContent_no_CR H).
Qed.

Lemma parseSRT_line_endings_witness :
  let content :=
    js ("1" ++ Sample.nl ++ "00:00:01,000 --> 00:00:02,000" ++ Sample.nl
        ++ "Hello" ++ Sample.nl ++ "there") in
  parseSRT (withCRLF content) = parseSRT content /\
  parseSRT (withCR content) = parseSRT content.
Proof.
  intros content. apply parseSRT_line_endings.
  repeat constructor; discriminate.
Defined.

(** *** Formats *)

Lemma trim_head : forall c s,
  isWhiteSpace c = false -> exists rest, trim (c :: s) = c :: rest.
Proof.
  intros c s Hc. rewrite trim_trimEnd_dropWhile. cbn [dropWhile].
  rewrite Hc, trimEnd_cons.
  destruct (trimEnd s); [rewrite Hc|]; eexists; reflexivity.
Qed.

Lemma startsWith_prefix : forall p s,
  startsWith p s = true -> exists rest, s = p ++ rest.
Proof.
  induction p as [|a p IH]; intros s H; [now exists s|].
  destruct s as [|b s]; [discriminate|].
  cbn [startsWith] in H. apply andb_true_iff in H as [Hab Hrest].
  apply N.eqb_eq in Hab. subst b. destruct (IH _ Hrest) as [rest ->].
  now exists rest.
Qed.

(** The first code unit of a number as a template literal prints it. *)
Lemma showZ_head : forall z,
  exists c rest,
    showZ z = c :: rest /\ (isDigit c = true \/ c = DASH).
Proof.
  intros z. destruct z as [|p|p].
  - exists 48%N, []. split; [reflexivity|now left].
  - unfold showZ. change (Z.to_N (Z.pos p)) with (N.pos p).
    destruct (decimal_digits (N.pos p)) as [Hdigits Hne].
    destruct (decimal (N.pos p)) as [|c ds]; [congruence|].
    inversion Hdigits; subst. exists c, ds. split; [reflexivity|now left].
  - unfold showZ. cbn [js list_ascii_of_string map app].
    eexists _, _. split; [reflexivity|now right].
Qed.

(** X24.  A generated file is read by the parser of the format it was
    generated for.  What [generateSubtitle] writes for a subtitle of format
    'srt' is never taken for a VTT file, whatever the entries, so
    [parseSubtitle] reads it with [parseSRT]; what it writes for a subtitle
    of format 'vtt' whose header starts with WEBVTT always is, so
    [parseSubtitle] reads it with [parseVTT]. *)
Theorem generated_file_is_read_in_its_format : forall subtitle,
  let content := generateSubtitle subtitle in
  match format subtitle with
  | srt =>
    content = generateSRT (subtitleEntries subtitle) /\
    detectFormat content = srt /\
    parseSubtitle content = parseSRT content
  | vtt =>
    startsWith (js "WEBVTT") (header subtitle) = true ->
    content = generateVTT (subtitleEntries subtitle) (header subtitle) /\
    detectFormat content = vtt /\
    parseSubtitle content = parseVTT content
  end.
Proof.
  intros [fmt hdr entries] content. subst content.
  unfold generateSubtitle. cbn [format header subtitleEntries].
  assert (Hsrt : detectFormat (generateSRT entries) = srt).
  { unfold detectFormat, generateSRT.
    destruct entries as [|entry entries]; [reflexivity|].
    cbn [mapi_from].
    assert (Hhead : exists c rest,
              join [LF; LF]
                (cue DOT COMMA entry 0
                 :: mapi_from (cue DOT COMMA) 1 entries) = c :: rest /\
              (isDigit c = true \/ c = DASH)).
    { unfold cue at 1.
      destruct (showZ_head (if (index entry =? 0)%Z then Z.of_nat (0 + 1)
                            else index entry))
        as (c & rest & -> & Hc).
      destruct (mapi_from (cue DOT COMMA) 1 entries);
        [cbn [join]|rewrite join_cons_cons]; cbn [app];
        eexists _, _; (split; [reflexivity|exact Hc]). }
    destruct Hhead as (c & rest & -> & Hc).
    assert (Hws : isWhiteSpace c = false /\ (N_of_ascii "W" =? c)%N = false).
    { destruct Hc as [Hc| ->]; [|split; reflexivity].
      apply isDigit_cases in Hc. cbn [In] in Hc.
      repeat (destruct Hc as [Hc|Hc]; [subst; split; reflexivity|]).
      destruct Hc. }
    destruct Hws as [Hws HW].
    destruct (@trim_head c rest Hws) as [rest' ->].
    cbn [js list_ascii_of_string map startsWith]. now rewrite HW. }
  assert (Hvtt : startsWith (js "WEBVTT") hdr = true ->
                 detectFormat (generateVTT entries hdr) = vtt).
  { intros Hheader. apply startsWith_prefix in Hheader as [h ->].
    unfold detectFormat, generateVTT.
    rewrite trim_trimEnd_dropWhile, <- !app_assoc, dropWhile_app.
    change (dropWhile isWhiteSpace (js "WEBVTT")) with (js "WEBVTT").
    cbv iota.
    change (js "WEBVTT") with (N_of_ascii "W" :: js "EBVTT") at 2.
    cbv iota. rewrite trimEnd_app.
    destruct (trimEnd _); reflexivity. }
  destruct fmt.
  - split; [reflexivity|]. split; [exact Hsrt|].
    unfold parseSubtitle. now rewrite Hsrt.
  - intros Hheader. split; [reflexivity|]. split; [exact (Hvtt Hheader)|].
    unfold parseSubtitle. now rewrite (Hvtt Hheader).
Qed.

Lemma generated_file_is_read_in_its_format_witness :
  let subtitle :=
    mkParsedSubtitle vtt (js "WEBVTT - film") [Sample.e1; Sample.e2] in
  detectFormat (generateSubtitle subtitle) = vtt /\
  parseSubtitle (generateSubtitle subtitle)
  = parseVTT (generateSubtitle subtitle).
Proof.
  intros subtitle.
  destruct (generated_file_is_read_in_its_format subtitle eq_refl)
    as (_ & Hdetect & Hparse).
  split; [exact Hdetect|exact Hparse].
Defined.

(** *** VTT files *)

Lemma isDigit_not_comma : forall c, isDigit c = true -> (c =? COMMA)%N = false.
Proof.
  intros c H. apply isDigit_range in H. apply N.eqb_neq.
  unfold COMMA. lia.
Qed.

(** A timestamp of the shape [parseSRT] recognises, as [generateVTT] writes
    it: its digits, with a period before the milliseconds. *)
Lemma written_time_vtt : forall t,
  timeShape t = true ->
  exists h1 h2 m1 m2 s1 s2 f1 f2 f3,
    replaceFirst COMMA DOT t
    = [h1; h2; COLON; m1; m2; COLON; s1; s2; DOT; f1; f2; f3] /\
    Forall (fun c => isDigit c = true) [h1; h2; m1; m2; s1; s2; f1; f2; f3].
Proof.
  intros t H. unfold timeShape, match_time in H.
  do 12 (destruct t as [|? t]; [discriminate|]).
  destruct t; [|destruct (_ && _); discriminate].
  match type of H with (match (if ?b then _ else _) with _ => _ end) = _ =>
    destruct b eqn:Hshape; [|discriminate]
  end.
  repeat match goal with
         | H : _ && _ = true |- _ => apply andb_true_iff in H as [? ?]
         end.
  repeat match goal with
         | H : (_ =? COLON)%N = true |- _ => apply N.eqb_eq in H; subst
         end.
  repeat match goal with
         | H : isDigit ?c = true |- _ =>
           pose proof (isDigit_not_comma _ H); revert H
         end.
  intros.
  do 9 eexists. split.
  - cbn [replaceFirst].
    repeat match goal with
           | H : (?c =? COMMA)%N = false |- _ => rewrite H; clear H
           end.
    change (COLON =? COMMA)%N with false. cbv iota.
    match goal with
    | H : (?p =? COMMA)%N || (?p =? DOT)%N = true |- _ =>
      destruct (N.eqb_spec p COMMA) as [->|Hcomma];
        [|cbn [orb] in H; apply N.eqb_eq in H; subst p;
          change (DOT =? COMMA)%N with false; cbv iota]
    end.
    + reflexivity.
    + repeat match goal with
             | H : (?c =? COMMA)%N = false |- _ => rewrite H; clear H
             end.
      reflexivity.
  - repeat constructor; assumption.
Qed.

(** The timestamp line [generateVTT] writes is read back as its two
    timestamps. *)
Lemma stamp_line_read_vtt : forall t1 t2,
  timeShape t1 = true -> timeShape t2 = true ->
  let line :=
    replaceFirst COMMA DOT t1 ++ js " --> " ++ replaceFirst COMMA DOT t2 in
  search_stamp_vtt line
  = Some (replaceFirst COMMA DOT t1, replaceFirst COMMA DOT t2) /\
  Forall (fun c => c <> LF /\ c <> CR) line.
Proof.
  intros t1 t2 H1 H2 line. subst line.
  destruct (written_time_vtt _ H1)
    as (a1 & a2 & a3 & a4 & a5 & a6 & a7 & a8 & a9 & -> & Ha).
  destruct (written_time_vtt _ H2)
    as (b1 & b2 & b3 & b4 & b5 & b6 & b7 & b8 & b9 & -> & Hb).
  split_digits.
  change (js " --> ") with [32; 45; 45; 62; 32]%N.
  unfold COLON, COMMA, DOT, DASH, GT, LF, CR in *.
  split.
  - cbn [app search_stamp_vtt].
    unfold match_stamp_vtt, match_time_vtt, match_time_hours.
    unfold COLON, COMMA, DOT, DASH, GT, LF, CR in *.
    crunch. reflexivity.
  - cbn [app].
    repeat constructor;
      try discriminate;
      match goal with
      | H : isDigit ?c = true |- ?c <> 10%N =>
        destruct (isDigit_plain _ H) as (_ & Hlf & _);
        now apply N.eqb_neq in Hlf
      | H : isDigit ?c = true |- ?c <> 13%N =>
        destruct (isDigit_plain _ H) as (_ & _ & Hcr & _);
        now apply N.eqb_neq in Hcr
      end.
Qed.

Lemma includes_arrow_digits : forall ds,
  Forall (fun c => isDigit c = true) ds -> includes ds (js "-->") = false.
Proof.
  induction 1 as [|c ds Hc _ IH]; [reflexivity|].
  cbn [includes]. rewrite IH, orb_false_r.
  destruct (isDigit_plain _ Hc) as (_ & _ & _ & Hdash & _).
  cbn [js list_ascii_of_string map startsWith].
  change (N_of_ascii "-") with DASH. now rewrite (N.eqb_sym DASH c), Hdash.
Qed.

(** The shape of a block made of a number, a line and a text. *)
Lemma block_shape : forall number line txt,
  Forall (fun c => isDigit c = true) number -> number <> [] ->
  Forall (fun c => c <> LF /\ c <> CR) line -> line <> [] ->
  txt <> [] -> trimEnd txt = txt ->
  includes (LF :: txt) [LF; LF] = false ->
  Forall (fun c => c <> CR) txt ->
  let block := number ++ LF :: line ++ LF :: txt in
  trim block = block /\
  splitLines block = number :: line :: splitLines txt /\
  solid block /\
  dropWhile (fun c => (c =? LF)%N) block = block /\
  Forall (fun c => c <> CR) block /\
  trimEnd block = block /\
  exists c rest, block = c :: rest /\ isWhiteSpace c = false.
Proof.
  intros number line txt Hdigits Hnum Hplain Hline Htext Hfix Hblank Hcr block.
  subst block.
  pose proof (digits_plain Hdigits) as Hnumplain.
  assert (HlineLF : Forall (fun c => c <> LF) line)
    by (eapply Forall_impl; [|exact Hplain]; now intros c []).
  assert (HnumLF : Forall (fun c => c <> LF) number)
    by (eapply Forall_impl; [|exact Hnumplain]; now intros c []).
  assert (Hend : trimEnd (number ++ LF :: line ++ LF :: txt)
                 = number ++ LF :: line ++ LF :: txt).
  { change (number ++ LF :: line ++ LF :: txt)
      with (number ++ [LF] ++ line ++ [LF] ++ txt).
    rewrite !app_assoc. now apply trimEnd_app_fixed. }
  assert (Hhead : exists c rest,
            number ++ LF :: line ++ LF :: txt = c :: rest /\
            isDigit c = true).
  { destruct number as [|c ds]; [congruence|].
    inversion Hdigits; subst. eexists _, _. split; [reflexivity|assumption]. }
  destruct Hhead as (c & rest & Hblock & Hc).
  destruct (isDigit_plain _ Hc) as (Hws & Hlf & _).
  split; [|split; [|split; [|split; [|split; [|split]]]]].
  - rewrite Hblock. apply trim_fixed; [exact Hws|]. now rewrite <- Hblock.
  - unfold splitLines.
    rewrite (splitLines_loop_line [] _ HnumLF).
    rewrite (splitLines_loop_line [] _ HlineLF). reflexivity.
  - split.
    + rewrite (includes_skip_nonLF _ HnumLF).
      cbn [includes startsWith].
      destruct line as [|c0 line']; [congruence|].
      inversion HlineLF as [|? ? Hc0 Hline']; subst.
      apply N.eqb_neq in Hc0. cbn [app].
      rewrite N.eqb_refl, (N.eqb_sym LF c0), Hc0.
      cbn [andb orb].
      change (c0 :: line' ++ LF :: txt) with ((c0 :: line') ++ LF :: txt).
      rewrite (includes_skip_nonLF _ HlineLF). exact Hblank.
    + right.
      change (number ++ LF :: line ++ LF :: txt)
        with (number ++ [LF] ++ line ++ [LF] ++ txt).
      rewrite !app_assoc, last_app_nonempty by assumption.
      intros Hlast. pose proof (trimEnd_fixed_last Htext Hfix) as Hnot.
      rewrite Hlast in Hnot. discriminate.
  - rewrite Hblock. cbn [dropWhile]. now rewrite Hlf.
  - apply Forall_app. split.
    { eapply Forall_impl; [|exact Hnumplain]. now intros ? []. }
    constructor; [discriminate|]. apply Forall_app. split.
    { eapply Forall_impl; [|exact Hplain]. now intros ? []. }
    constructor; [discriminate|exact Hcr].
  - exact Hend.
  - exists c, rest. split; assumption.
Qed.

(** The cue [generateVTT] writes for a writable entry is a part [parseVTT]
    reads back, whatever its cue counter. *)
Lemma cue_read_vtt : forall entry i cueIndex,
  writable entry ->
  let block := cue COMMA DOT entry i in
  parseVTT_block block cueIndex = Some (withPeriods entry) /\
  solid block /\
  block <> [] /\
  dropWhile (fun c => (c =? LF)%N) block = block /\
  Forall (fun c => c <> CR) block.
Proof.
  intros entry i cueIndex
    (Hindex & Hstart & Hend & Htext & Hfix & Hblank & Hcr) block.
  subst block. unfold cue.
  assert (Hnz : (index entry =? 0)%Z = false) by (apply Z.eqb_neq; lia).
  rewrite Hnz.
  destruct (stamp_line_read_vtt _ _ Hstart Hend) as (Hsearch & Hplain).
  set (line := replaceFirst COMMA DOT (startTime entry) ++ js " --> "
               ++ replaceFirst COMMA DOT (endTime entry)) in *.
  replace (replaceFirst COMMA DOT (startTime entry) ++ js " --> "
           ++ replaceFirst COMMA DOT (endTime entry) ++ LF :: text entry)
    with (line ++ LF :: text entry)
    by (subst line; now rewrite <- !app_assoc).
  clearbody line.
  assert (Hline : line <> []) by (intros ->; discriminate).
  assert (Hdigits : Forall (fun c => isDigit c = true) (showZ (index entry))
                    /\ showZ (index entry) <> []).
  { destruct (index entry) as [|p|p]; try lia. apply decimal_digits. }
  destruct Hdigits as [Hdigits Hnum].
  pose proof (parseInt_showZ (proj1 Hindex)) as Hint.
  set (number := showZ (index entry)) in *.
  destruct (block_shape Hdigits Hnum Hplain Hline Htext Hfix Hblank Hcr)
    as (Htrim & Hlines & Hsolid & Hhead & Hplain' & _ & c & rest & Hblock & Hc).
  split; [|split; [exact Hsolid|split; [|split; assumption]]].
  - unfold parseVTT_block. rewrite Htrim, Hlines.
    rewrite Hblock. cbn [nth].
    assert (Htrimnum : trim number = number).
    { destruct number as [|d ds]; [congruence|]. inversion Hdigits; subst.
      apply trim_fixed; [apply (isDigit_plain _ H1)|].
      now apply trimEnd_digits. }
    rewrite Htrimnum in Hint |- *.
    rewrite (includes_arrow_digits Hdigits).
    destruct number as [|d ds] eqn:Hnumber; [congruence|].
    cbn [negb length Nat.leb nth Nat.add skipn truthy].
    rewrite Hsearch, Hint, Hnz.
    fold (splitLines (text entry)). now rewrite join_splitLines.
  - rewrite Hblock. discriminate.
Qed.

Lemma cues_read_vtt : forall entries i cueIndex,
  Forall writable entries ->
  let blocks := mapi_from (cue COMMA DOT) i entries in
  (forall acc,
     parseVTT_loop blocks cueIndex acc = acc ++ map withPeriods entries) /\
  Forall (fun b => solid b /\ b <> [] /\
                   dropWhile (fun c => (c =? LF)%N) b = b) blocks /\
  Forall (Forall (fun c => c <> CR)) blocks.
Proof.
  intros entries i cueIndex H. revert i cueIndex.
  induction H as [|entry entries Hentry _ IH]; intros i cueIndex blocks;
    subst blocks.
  - cbn [mapi_from map parseVTT_loop].
    split; [intros acc; now rewrite app_nil_r|]. split; constructor.
  - cbn [mapi_from map parseVTT_loop].
    destruct (cue_read_vtt i cueIndex Hentry)
      as (Hread & Hsolid & Hne & Hhead & Hcr).
    destruct (IH (S i) (S cueIndex)) as (IHread & IHsolid & IHcr).
    split; [|split].
    + intros acc. rewrite Hread, IHread, <- app_assoc. reflexivity.
    + constructor; [|exact IHsolid].
      split; [exact Hsolid|split; assumption].
    + constructor; assumption.
Qed.

(** X25.  Writing and reading back a VTT file.  Under a header that starts
    with WEBVTT, has no white space at its end, no carriage return and no
    empty line, and for entries as in the SRT round trip, [parseVTT] reads
    from the file [generateVTT] writes this header and exactly these
    entries, their timestamps written with a period. *)
Theorem parseVTT_generateVTT : forall entries header,
  Forall writable entries ->
  startsWith (js "WEBVTT") header = true ->
  trimEnd header = header ->
  includes header [LF; LF] = false ->
  Forall (fun c => c <> CR) header ->
  parseVTT (generateVTT entries header)
  = mkParsedSubtitle vtt header (map withPeriods entries).
Proof.
  intros entries header Hentries Hstarts Hfix Hblank Hcr.
  destruct (cues_read_vtt 0 1 Hentries) as (Hread & Hsolid & Hplain).
  set (blocks := mapi_from (cue COMMA DOT) 0 entries) in *.
  destruct (startsWith_prefix _ _ Hstarts) as [h Hh].
  assert (Hne : header <> []) by (rewrite Hh; discriminate).
  assert (Hhead : solid header /\ header <> [] /\
                  dropWhile (fun c => (c =? LF)%N) header = header).
  { split; [split; [exact Hblank|right]|split; [exact Hne|]].
    - intros Hlast. pose proof (trimEnd_fixed_last Hne Hfix) as Hnot.
      rewrite Hlast in Hnot. discriminate.
    - rewrite Hh. reflexivity. }
  assert (Htrim : trim header = header).
  { rewrite Hh in Hfix |- *. cbn [js list_ascii_of_string map app] in *.
    now apply trim_fixed. }
  assert (Hparts : splitBlank (header ++ [LF; LF] ++ join [LF; LF] blocks)
                   = header :: match blocks with [] => [[]] | _ => blocks end).
  { destruct blocks as [|b bs] eqn:Hblocks.
    - cbn [join app]. unfold splitBlank.
      rewrite (@splitBlank_loop_fuel _ (length header + 2) [] _)
        by (rewrite ?length_app; cbn [length]; lia).
      rewrite splitBlank_loop_block by (try reflexivity; apply Hhead).
      reflexivity.
    - rewrite <- join_cons_cons.
      apply splitBlank_join; [discriminate|]. now constructor. }
  unfold parseVTT, generateVTT. fold blocks.
  rewrite normalizedContent_no_CR.
  2:{ apply Forall_app. split; [exact Hcr|]. apply Forall_app. split.
      - repeat constructor; discriminate.
      - apply Forall_join; [repeat constructor; discriminate|exact Hplain]. }
  rewrite Hparts. cbn [nth]. rewrite Htrim, Hstarts. cbn [skipn].
  assert (Hheader : orElse (Some header) (js "WEBVTT") = header)
    by (destruct header; [congruence|reflexivity]).
  rewrite Hheader. f_equal.
  destruct blocks as [|b bs] eqn:Hblocks.
  - destruct entries; [reflexivity|discriminate].
  - exact (Hread []).
Qed.

Lemma parseVTT_generateVTT_witness :
  parseVTT (generateVTT [Sample.e1; Sample.e2] (js "WEBVTT - film"))
  = mkParsedSubtitle vtt (js "WEBVTT - film")
      (map withPeriods [Sample.e1; Sample.e2]).
Proof.
  apply parseVTT_generateVTT;
    repeat constructor; try reflexivity; try discriminate.
Defined.

(** *** What [parseVTT] returns *)

Lemma match_time_vtt_shape : forall s t rest,
  match_time_vtt s = Some (t, rest) -> vttTimeShape t = true.
Proof.
  intros s t rest H. unfold match_time_vtt in H.
  destruct (match_time_hours s) as [[u r]|] eqn:Hhours.
  - inversion H; subst. unfold match_time_hours in Hhours.
    do 12 (destruct s as [|? s]; [discriminate|]).
    match type of Hhours with (if ?b then _ else _) = _ =>
      destruct b eqn:Hshape; [|discriminate]
    end.
    inversion Hhours; subst.
    unfold vttTimeShape, match_time_vtt, match_time_hours.
    now rewrite Hshape.
  - unfold match_time_minutes in H.
    do 9 (destruct s as [|? s]; [discriminate|]).
    match type of H with (if ?b then _ else _) = _ =>
      destruct b eqn:Hshape; [|discriminate]
    end.
    inversion H; subst.
    unfold vttTimeShape, match_time_vtt, match_time_hours, match_time_minutes.
    now rewrite Hshape.
Qed.

Lemma search_stamp_vtt_shape : forall s t1 t2,
  search_stamp_vtt s = Some (t1, t2) ->
  vttTimeShape t1 = true /\ vttTimeShape t2 = true.
Proof.
  induction s as [|c s IH]; intros t1 t2 H; cbn [search_stamp_vtt] in H.
  - discriminate.
  - destruct (match_stamp_vtt (c :: s)) as [[u1 u2]|] eqn:Hm; [|now apply IH].
    inversion H; subst. unfold match_stamp_vtt in Hm.
    destruct (match_time_vtt (c :: s)) as [[v1 r1]|] eqn:H1; [|discriminate].
    destruct (dropWhile isWhiteSpace r1) as [|a [|b [|d r2]]]; try discriminate.
    destruct (_ && _); [|discriminate].
    destruct (match_time_vtt (dropWhile isWhiteSpace r2)) as [[v2 r3]|] eqn:H2;
      [|discriminate].
    inversion Hm; subst.
    split; eapply match_time_vtt_shape; eassumption.
Qed.

Lemma join_app : forall sep (l1 l2 : list jsstring),
  l1 <> [] -> l2 <> [] ->
  join sep (l1 ++ l2) = join sep l1 ++ sep ++ join sep l2.
Proof.
  intros sep l1 l2 H1 H2. induction l1 as [|p l1 IH]; [congruence|].
  destruct l1 as [|q l1].
  - destruct l2 as [|r l2]; [congruence|]. reflexivity.
  - cbn [app] in *. rewrite !join_cons_cons, IH by discriminate.
    now rewrite <- !app_assoc.
Qed.

(** What follows a line feed in a string that does not end with white
    space. *)
Lemma after_line_feed : forall x y,
  trimEnd (x ++ [LF] ++ y) = x ++ [LF] ++ y ->
  y <> [] /\ trimEnd y = y.
Proof.
  intros x y Hfix. rewrite app_assoc, trimEnd_app in Hfix.
  destruct (trimEnd y) as [|c r] eqn:Ht.
  - exfalso.
    pose proof (trimEnd_shorter (x ++ [LF])) as Hle.
    rewrite Hfix in Hle. rewrite !length_app in Hle.
    assert (y = []) by (destruct y; [reflexivity|cbn [length] in Hle; lia]).
    subst y. rewrite app_nil_r in Hfix.
    assert (Hne : x ++ [LF] <> [])
      by (intros Heq; apply app_eq_nil in Heq as [_ Heq]; discriminate).
    pose proof (trimEnd_fixed_last Hne Hfix) as Hlast.
    rewrite last_last in Hlast. discriminate.
  - apply app_inv_head in Hfix. split; [|exact Hfix].
    rewrite <- Hfix. discriminate.
Qed.

(** The text of an entry read from line [k + 1] on of a trimmed block. *)
Lemma text_of_lines : forall block k,
  includes block [LF; LF] = false ->
  Forall (fun c => c <> CR) block ->
  k < length (splitLines (trim block)) ->
  let txt := join [LF] (skipn (k + 1) (splitLines (trim block))) in
  trimEnd txt = txt /\
  includes (LF :: txt) [LF; LF] = false /\
  Forall (fun c => c <> CR) txt.
Proof.
  intros block k Hblank Hcr Hk txt. subst txt.
  pose proof (join_splitLines (trim block)) as Hjoin.
  pose proof (@Forall_splitLines_loop _ (trim block) [] (Forall_nil _)
                (Forall_trim Hcr)) as Hlines.
  fold (splitLines (trim block)) in Hlines.
  set (lines := splitLines (trim block)) in *.
  destruct (skipn (k + 1) lines) as [|l ls] eqn:Hskip.
  - cbn [join]. split; [reflexivity|]. split; [reflexivity|constructor].
  - assert (Hsplit : lines = firstn (k + 1) lines ++ l :: ls)
      by (rewrite <- Hskip; symmetry; apply firstn_skipn).
    assert (Hfirst : firstn (k + 1) lines <> []).
    { destruct lines; [cbn in Hk; lia|].
      replace (k + 1) with (S k) by lia. discriminate. }
    rewrite Hsplit, join_app in Hjoin by (assumption || discriminate).
    pose proof (trimEnd_trim block) as Hfix. rewrite <- Hjoin in Hfix.
    destruct (after_line_feed _ _ Hfix) as [_ Hend].
    destruct (trim_segment block) as (pre & post & Hblock).
    rewrite Hblock in Hblank. apply includes_segment in Hblank.
    rewrite <- Hjoin in Hblank. apply includes_app_r in Hblank.
    split; [exact Hend|]. split; [exact Hblank|].
    apply Forall_join; [repeat constructor; discriminate|].
    rewrite Hsplit in Hlines. now apply Forall_app in Hlines.
Qed.

Lemma parseVTT_block_entry : forall part cueIndex entry,
  parseVTT_block part cueIndex = Some entry ->
  1 <= cueIndex ->
  includes part [LF; LF] = false ->
  Forall (fun c => c <> CR) part ->
  index entry <> 0%Z /\
  vttTimeShape (startTime entry) = true /\
  vttTimeShape (endTime entry) = true /\
  trimEnd (text entry) = text entry /\
  includes (LF :: text entry) [LF; LF] = false /\
  Forall (fun c => c <> CR) (text entry).
Proof.
  intros part cueIndex entry H Hcue Hblank Hcr. unfold parseVTT_block in H.
  destruct (trim part) as [|c0 r0] eqn:Htrim; [discriminate|].
  rewrite <- Htrim in H.
  set (lines := splitLines (trim part)) in *.
  set (hasId := match nth 0 lines [] with
                | [] => false
                | _ :: _ => negb (includes (nth 0 lines []) (js "-->"))
                end) in *.
  set (k := if hasId then 1 else 0) in *.
  destruct (Nat.leb_spec (length lines) k) as [|Hk]; [discriminate|].
  destruct (search_stamp_vtt (nth k lines [])) as [[t1 t2]|] eqn:Hstamp;
    [|discriminate].
  inversion H; subst entry. cbn [index startTime endTime text].
  apply search_stamp_vtt_shape in Hstamp as [Ht1 Ht2].
  destruct (@text_of_lines part k Hblank Hcr Hk) as (Hend & Hno & Hplain).
  fold lines in Hend, Hno, Hplain.
  split; [|repeat split; assumption].
  destruct (truthy (if hasId then Some (trim (nth 0 lines [])) else None))
    as [id|]; [|lia].
  destruct (parseInt id) as [n|]; [|lia].
  destruct (Z.eqb_spec n 0); [lia|assumption].
Qed.

Lemma parseVTT_loop_entries : forall pieces cueIndex acc entry,
  In entry (parseVTT_loop pieces cueIndex acc) ->
  1 <= cueIndex ->
  In entry acc \/
  exists part k,
    In part pieces /\ 1 <= k /\ parseVTT_block part k = Some entry.
Proof.
  induction pieces as [|part pieces IH]; intros cueIndex acc entry H Hcue;
    [now left|].
  cbn [parseVTT_loop] in H.
  destruct (parseVTT_block part cueIndex) as [e|] eqn:Hb.
  - apply IH in H as [H|(p & k & Hin & Hk & Hp)]; [|..|lia].
    + apply in_app_or in H as [H|[<-|[]]]; [now left|].
      right. exists part, cueIndex. split; [now left|]. split; assumption.
    + right. exists p, k. split; [now right|]. split; assumption.
  - apply IH in H as [H|(p & k & Hin & Hk & Hp)]; [now left|..|lia].
    right. exists p, k. split; [now right|]. split; assumption.
Qed.

(** X26.  Whatever the content of the file, what [parseVTT] returns has
    the format 'vtt' and a header that starts with WEBVTT and has no white
    space at its end; every entry has a number other than 0, VTT timestamps
    with or without hours, and a text (possibly empty) with no white space
    at its end, no carriage return and no empty line. *)
Theorem parseVTT_wellformed : forall content,
  let parsed := parseVTT content in
  format parsed = vtt /\
  startsWith (js "WEBVTT") (header parsed) = true /\
  trimEnd (header parsed) = header parsed /\
  forall entry, In entry (subtitleEntries parsed) ->
    index entry <> 0%Z /\
    vttTimeShape (startTime entry) = true /\
    vttTimeShape (endTime entry) = true /\
    trimEnd (text entry) = text entry /\
    includes (LF :: text entry) [LF; LF] = false /\
    Forall (fun c => c <> CR) (text entry).
Proof.
  intros content parsed. subst parsed. unfold parseVTT.
  set (s := normalizedContent content).
  set (first := trim (nth 0 (splitBlank s) [])).
  cbn [format header subtitleEntries].
  split; [reflexivity|]. split; [|split].
  - destruct (startsWith (js "WEBVTT") first) eqn:Hfirst; [|reflexivity].
    destruct first; [discriminate|exact Hfirst].
  - destruct (startsWith (js "WEBVTT") first) eqn:Hfirst; [|reflexivity].
    destruct first eqn:Hf; [discriminate|].
    cbn [orElse]. rewrite <- Hf. apply trimEnd_trim.
  - intros entry Hin.
    apply parseVTT_loop_entries in Hin as [[]|(part & k & Hpart & Hk & Hblock)];
      [|lia].
    assert (Hparts : In part (splitBlank s))
      by (destruct (startsWith _ _); [|exact Hpart];
          rewrite <- (firstn_skipn 1 (splitBlank s));
          apply in_or_app; now right).
    assert (Hplain : Forall (fun c => c <> CR) s)
      by apply normalizedContent_plain.
    pose proof (@splitBlank_loop_solid (length s) [] s (le_n _)
                  (includes_blank_short (firstn 1 s)
                     (firstn_le_length 1 s))) as Hsolid.
    pose proof (@Forall_splitBlank_loop _ (length s) [] s (Forall_nil _) Hplain)
      as Hcr.
    fold (splitBlank s) in Hsolid, Hcr.
    rewrite Forall_forall in Hsolid, Hcr.
    exact (parseVTT_block_entry Hblock Hk (Hsolid _ Hparts) (Hcr _ Hparts)).
Qed.

Lemma parseVTT_wellformed_witness :
  let content :=
    js ("WEBVTT" ++ Sample.nl ++ Sample.nl ++ "intro" ++ Sample.nl
        ++ "00:01.000 --> 00:02.000" ++ Sample.nl ++ "Hi ") in
  let entry := mkEntry 1 (js "00:01.000") (js "00:02.000") (js "Hi") in
  index entry <> 0%Z /\
  vttTimeShape (startTime entry) = true /\
  vttTimeShape (endTime entry) = true /\
  trimEnd (text entry) = text entry /\
  includes (LF :: text entry) [LF; LF] = false /\
  Forall (fun c => c <> CR) (text entry).
Proof.
  intros content entry.
  apply (proj2 (proj2 (proj2 (parseVTT_wellformed content))) entry).
  vm_compute. left. reflexivity.
Defined.
